(** * DeviceTracker: device-list synchronisation and validation

    A shallow embedding of [src/e2ee/DeviceTracker.ts].

    The class keeps one piece of state of its own, the registry
    [deviceListUpdates] of in-flight promises, and talks to four
    collaborators: the directory ([client.getUserDevices]), the crypto
    store ([client.cryptoStore]), the signature verifier
    ([client.crypto.verifySignature]) and the log ([LogService.warn]).

    The development has two layers.
    - The validation policy (lines 45-88) as pure functions over the store,
      run to completion for one response.
    - The asynchronous machine: every call of [updateUsersDeviceLists] or
      [flagUsersOutdated] is a task that runs synchronously up to its next
      [await]; the scheduler resumes one suspended task at a time, which is
      JavaScript's cooperative single-threaded execution. *)

From stdpp Require Import base option strings list gmap.

Open Scope string_scope.
Open Scope list_scope.

(** ** Data model *)

(** Modelled from the spec: the [UserDevice] interface of [models/Crypto]
    (not part of the sources at hand), restricted to the fields the tracker
    reads.  [keys] and [signatures] are JavaScript objects used as maps;
    [signatures] is optional. *)
Record UserDevice := mkUserDevice {
  user_id : string;
  device_id : string;
  keys : gmap string string;
  signatures : option (gmap string (gmap string string));
}.

(** Modelled from the spec: the two members of the [DeviceKeyAlgorithm] enum
    of [models/Crypto] used by the tracker.  The member for the signing key is
    spelled [Ed25119] in the source. *)
Definition Ed25119 : string := "ed25519".
Definition Curve25519 : string := "curve25519".

(** The template literal [`${algorithm}:${deviceId}`]. *)
Definition key_label (algorithm deviceId : string) : string :=
  algorithm +:+ ":" +:+ deviceId.

(** JavaScript's [!s] on a string: only the empty string is falsy. *)
Definition falsy (s : string) : bool := bool_decide (s = EmptyString).

(** The response of [client.getUserDevices]: its [device_keys] member, an
    object from user ids to objects from device ids to claimed devices.
    [Object.keys] gives each key once; the loops below visit them in the
    order of [map_to_list], and nothing that follows depends on the order. *)
Abbreviation claims := (gmap string UserDevice) (only parsing).
Abbreviation response := (gmap string (gmap string UserDevice)) (only parsing).

(** Modelled from the spec: the crypto store's device table.
    [getUserDevices] yields the list stored for a user (nothing stored: the
    empty list), [setUserDevices] replaces that list as a whole. *)
Abbreviation store := (gmap string (list UserDevice)) (only parsing).

Definition getUserDevices (st : store) (userId : string) : list UserDevice :=
  default [] (st !! userId).

Definition setUserDevices (st : store) (userId : string)
    (devices : list UserDevice) : store :=
  <[userId := devices]> st.

(** What the tracker does that the outside can see, in program order. *)
Inductive event :=
| EvWarn (message : string)
| EvFetch (call : nat) (userIds : list string)
| EvRegister (userId : string) (promise : nat)
| EvSetUserDevices (userId : string) (devices : list UserDevice)
| EvFlagUsersOutdated (userIds : list string)
| EvResolve (promise : nat).

(** ** The warnings of lines 50, 58, 68, 75 and 81 *)

Definition lying_warning (userId deviceId : string) (device : UserDevice) : string :=
  "Server appears to be lying about device lists: " +:+ userId +:+ " " +:+ deviceId
  +:+ " has unexpected device " +:+ user_id device +:+ " " +:+ device_id device
  +:+ " listed - ignoring device".

Definition missing_key_warning (userId deviceId : string) : string :=
  "Device " +:+ userId +:+ " " +:+ deviceId
  +:+ " is missing either an Ed25519 or Curve25519 key - ignoring device".

Definition compromised_warning (userId deviceId : string) : string :=
  "Device " +:+ userId +:+ " " +:+ deviceId
  +:+ " appears compromised: Ed25519 key changed - ignoring device".

Definition missing_signature_warning (userId deviceId : string) : string :=
  "Device " +:+ userId +:+ " " +:+ deviceId
  +:+ " is missing a signature - ignoring device".

Definition invalid_signature_warning (userId deviceId : string) : string :=
  "Device " +:+ userId +:+ " " +:+ deviceId
  +:+ " has an invalid signature - ignoring device".

(** ** The checks on one claim *)

(** Lines 49-60, the part of the loop body before the store is read.
    [inl w]: the claim is skipped with warning [w]; [inr ed25519]: the claim
    goes on with this signing key. *)
Definition check_claim (userId deviceId : string) (device : UserDevice)
    : string + string :=
  if bool_decide (user_id device ≠ userId) || bool_decide (device_id device ≠ deviceId)
  then inl (lying_warning userId deviceId device)
  else
    match keys device !! key_label Ed25119 deviceId,
          keys device !! key_label Curve25519 deviceId with
    | Some ed25519, Some curve25519 =>
        if falsy ed25519 || falsy curve25519
        then inl (missing_key_warning userId deviceId)
        else inr ed25519
    | _, _ => inl (missing_key_warning userId deviceId)
    end.

(** Line 63: [currentDevices.find(d => d.device_id === deviceId)]. *)
Definition existing_device (currentDevices : list UserDevice) (deviceId : string)
    : option UserDevice :=
  List.find (λ d, bool_decide (device_id d = deviceId)) currentDevices.

(** Line 73: [device.signatures?.[userId]?.[label]]. *)
Definition self_signature (userId deviceId : string) (device : UserDevice)
    : option string :=
  match signatures device with
  | Some sigs =>
      match sigs !! userId with
      | Some own => own !! key_label Ed25119 deviceId
      | None => None
      end
  | None => None
  end.

(** Lines 63-77, the part between the store's answer and the call of the
    verifier.  [inr signature]: the claim goes on to be verified. *)
Definition check_pinned (currentDevices : list UserDevice)
    (userId deviceId : string) (device : UserDevice) (ed25519 : string)
    : string + string :=
  let changed :=
    match existing_device currentDevices deviceId with
    | Some existingDevice =>
        bool_decide (keys existingDevice !! key_label Ed25119 deviceId ≠ Some ed25519)
    | None => false
    end in
  if changed then inl (compromised_warning userId deviceId)
  else
    match self_signature userId deviceId device with
    | Some signature =>
        if falsy signature then inl (missing_signature_warning userId deviceId)
        else inr signature
    | None => inl (missing_signature_warning userId deviceId)
    end.

Section Tracker.

(** [client.crypto.verifySignature], the answer it resolves with. *)
Variable verifySignature : UserDevice → string → string → bool.

(** Lines 79-85, after the verifier answered: the new [validated] and the
    warning, if any. *)
Definition check_verified (userId deviceId : string) (device : UserDevice)
    (ed25519 signature : string) (validated : list UserDevice)
    : list UserDevice * list event :=
  if verifySignature device ed25519 signature
  then (validated ++ [device], [])
  else (validated, [EvWarn (invalid_signature_warning userId deviceId)]).

(** ** One pass run to completion *)

(** The verdict on one claim against the devices currently stored: does
    the loop body reach [validated.push(device)]? *)
Definition accepts (currentDevices : list UserDevice) (userId deviceId : string)
    (device : UserDevice) : bool :=
  match check_claim userId deviceId device with
  | inl _ => false
  | inr ed25519 =>
      match check_pinned currentDevices userId deviceId device ed25519 with
      | inl _ => false
      | inr signature => verifySignature device ed25519 signature
      end
  end.

(** The inner loop, lines 47-85, over the claims still to be looked at. *)
Fixpoint validate_claims (st : store) (userId : string)
    (todo : list (string * UserDevice)) (validated : list UserDevice)
    : list UserDevice * list event :=
  match todo with
  | [] => (validated, [])
  | (deviceId, device) :: todo =>
      match check_claim userId deviceId device with
      | inl w =>
          let '(v, log) := validate_claims st userId todo validated in
          (v, EvWarn w :: log)
      | inr ed25519 =>
          match check_pinned (getUserDevices st userId) userId deviceId device ed25519 with
          | inl w =>
              let '(v, log) := validate_claims st userId todo validated in
              (v, EvWarn w :: log)
          | inr signature =>
              let '(validated', log1) :=
                check_verified userId deviceId device ed25519 signature validated in
              let '(v, log) := validate_claims st userId todo validated' in
              (v, log1 ++ log)
          end
      end
  end.

(** One turn of the outer loop, lines 46-87. *)
Definition update_user (st : store) (userId : string) (cl : claims)
    : store * list event :=
  let '(validated, log) := validate_claims st userId (map_to_list cl) [] in
  (setUserDevices st userId validated, log ++ [EvSetUserDevices userId validated]).

(** The outer loop, lines 45-88, over the users still to be looked at. *)
Fixpoint update_users (st : store) (todo : list (string * claims))
    : store * list event :=
  match todo with
  | [] => (st, [])
  | (userId, cl) :: todo =>
      let '(st', log1) := update_user st userId cl in
      let '(st'', log2) := update_users st' todo in
      (st'', log1 ++ log2)
  end.

(** The body of the promise's executor from the directory's answer on,
    when nothing interleaves and no collaborator throws. *)
Definition run_pass (st : store) (resp : response) : store * list event :=
  update_users st (map_to_list resp).

(** ** The executor, await by await *)

(** The loop variables that are live across an [await] of the inner loop. *)
Record frame := mkFrame {
  f_users : list (string * claims);
  f_userId : string;
  f_validated : list UserDevice;
  f_deviceId : string;
  f_device : UserDevice;
  f_todo : list (string * UserDevice);
}.

(** Where the async arrow function of line 43 is suspended. *)
Inductive exec :=
| AwaitFetch
| AwaitGetUserDevices (k : frame) (ed25519 : string)
| AwaitVerify (k : frame) (ed25519 signature : string)
| AwaitSetUserDevices (users : list (string * claims)) (userId : string)
    (validated : list UserDevice)
| Resolved
| Crashed.

(** What an awaited collaborator settles with: it resolves, it throws, or
    (the directory) it resolves with a response. *)
Inductive reply :=
| Ok
| Threw
| Devices (resp : response).

(** The inner loop from the top of its body up to the next [await]: claims
    failing the checks of lines 49-60 are skipped on the way; at the end of
    the claims line 87 calls the store. *)
Fixpoint inner_loop (users : list (string * claims)) (userId : string)
    (validated : list UserDevice) (todo : list (string * UserDevice))
    : list event * exec :=
  match todo with
  | [] => ([], AwaitSetUserDevices users userId validated)
  | (deviceId, device) :: todo =>
      match check_claim userId deviceId device with
      | inl w =>
          let '(log, e) := inner_loop users userId validated todo in
          (EvWarn w :: log, e)
      | inr ed25519 =>
          ([], AwaitGetUserDevices
                 (mkFrame users userId validated deviceId device todo) ed25519)
      end
  end.

(** The outer loop from its head up to the next [await]; after the last
    user line 89 resolves the promise. *)
Definition outer_loop (users : list (string * claims)) : list event * exec :=
  match users with
  | [] => ([], Resolved)
  | (userId, cl) :: users => inner_loop users userId [] (map_to_list cl)
  end.

(** Resuming the executor with the reply to what it awaits.  The store is
    read and written when the store answers.  An exception leaves the async
    arrow function; nothing catches it and the promise's [resolve] is never
    called. *)
Definition resume_exec (st : store) (e : exec) (r : reply)
    : option (store * list event * exec) :=
  match e, r with
  | AwaitFetch, Devices resp =>
      let '(log, e') := outer_loop (map_to_list resp) in
      Some (st, log, e')
  | AwaitGetUserDevices k ed25519, Ok =>
      match check_pinned (getUserDevices st (f_userId k))
              (f_userId k) (f_deviceId k) (f_device k) ed25519 with
      | inl w =>
          let '(log, e') :=
            inner_loop (f_users k) (f_userId k) (f_validated k) (f_todo k) in
          Some (st, EvWarn w :: log, e')
      | inr signature => Some (st, [], AwaitVerify k ed25519 signature)
      end
  | AwaitVerify k ed25519 signature, Ok =>
      let '(validated, log1) :=
        check_verified (f_userId k) (f_deviceId k) (f_device k)
          ed25519 signature (f_validated k) in
      let '(log, e') := inner_loop (f_users k) (f_userId k) validated (f_todo k) in
      Some (st, log1 ++ log, e')
  | AwaitSetUserDevices users userId validated, Ok =>
      let '(log, e') := outer_loop users in
      Some (setUserDevices st userId validated,
            EvSetUserDevices userId validated :: log, e')
  | AwaitFetch, Threw
  | AwaitGetUserDevices _ _, Threw
  | AwaitVerify _ _ _, Threw
  | AwaitSetUserDevices _ _ _, Threw => Some (st, [], Crashed)
  | _, _ => None
  end.

(** ** The tracker as a machine of suspended calls *)

Inductive pstate := Pending | Fulfilled | Rejected.

(** A call of one of the two public methods, at its suspension point.
    A call of [updateUsersDeviceLists] is suspended at line 40 ([Waiting]) or
    at line 92 ([Updating]); in the latter case it owns the promise of line 43,
    whose state and executor it carries.  A call of [flagUsersOutdated] is
    suspended at line 21. *)
Inductive task :=
| Waiting (userIds : list string) (existingPromises : list nat)
| Updating (userIds : list string) (promise : pstate) (e : exec)
| Returned
| Aborted
| Flagging (userIds : list string) (resync : bool)
| Flagged
| FlagFailed.

(** Promises are named by the call that created them. *)
Record machine := mkMachine {
  deviceListUpdates : gmap string nat;
  cryptoStore : gmap string (list UserDevice);
  outdated : gset string;
  tasks : list task;
  events : list event;
}.

Definition promise_of (k : task) : option pstate :=
  match k with
  | Updating _ p _ => Some p
  | Returned => Some Fulfilled
  | _ => None
  end.

Definition promise_state (m : machine) (promise : nat) : option pstate :=
  match tasks m !! promise with
  | Some k => promise_of k
  | None => None
  end.

(** The outcome a caller of either method observes. *)
Definition outcome (k : task) : pstate :=
  match k with
  | Returned | Flagged => Fulfilled
  | Aborted | FlagFailed => Rejected
  | _ => Pending
  end.

Definition is_rejected (m : machine) (promise : nat) : bool :=
  match promise_state m promise with Some Rejected => true | _ => false end.

Definition is_fulfilled (m : machine) (promise : nat) : bool :=
  match promise_state m promise with Some Fulfilled => true | _ => false end.

(** [Promise.all]: rejected as soon as one member is, fulfilled once all
    are, pending otherwise. *)
Definition promise_all (m : machine) (promises : list nat) : pstate :=
  if existsb (is_rejected m) promises then Rejected
  else if forallb (is_fulfilled m) promises then Fulfilled
  else Pending.

(** Line 91: [userIds.forEach(u => this.deviceListUpdates[u] = promise)]. *)
Definition register (registry : gmap string nat) (userIds : list string)
    (promise : nat) : gmap string nat :=
  foldl (λ r u, <[u := promise]> r) registry userIds.

(** Lines 43-92 up to the suspension at line 92, for the call [t].
    [new Promise] runs its executor at once, and the executor runs up to its
    first [await]: the directory is called (line 44) before the constructor
    returns, and only then line 91 fills the registry. *)
Definition start_pass (m : machine) (t : nat) (userIds : list string) : machine :=
  {| deviceListUpdates := register (deviceListUpdates m) userIds t;
     cryptoStore := cryptoStore m;
     outdated := outdated m;
     tasks := <[t := Updating userIds Pending AwaitFetch]> (tasks m);
     events := events m ++ EvFetch t userIds :: map (λ u, EvRegister u t) userIds |}.

(** Line 38. *)
Definition existing_promises (m : machine) (userIds : list string) : list nat :=
  omap (λ u, deviceListUpdates m !! u) userIds.

(** A call of [updateUsersDeviceLists] up to its first suspension: at line 40
    when the registry knows one of the users, at line 92 otherwise. *)
Definition updateUsersDeviceLists (userIds : list string) (m : machine) : machine :=
  let t := length (tasks m) in
  let existingPromises := existing_promises m userIds in
  let m1 :=
    {| deviceListUpdates := deviceListUpdates m;
       cryptoStore := cryptoStore m;
       outdated := outdated m;
       tasks := tasks m ++ [Waiting userIds existingPromises];
       events := events m |} in
  if bool_decide (0 < length existingPromises) then m1
  else start_pass m1 t userIds.

(** A call of [flagUsersOutdated] up to its suspension at line 21. *)
Definition flagUsersOutdated (userIds : list string) (resync : bool) (m : machine)
    : machine :=
  {| deviceListUpdates := deviceListUpdates m;
     cryptoStore := cryptoStore m;
     outdated := outdated m;
     tasks := tasks m ++ [Flagging userIds resync];
     events := events m |}.

Definition set_task (t : nat) (k : task) (m : machine) : machine :=
  {| deviceListUpdates := deviceListUpdates m;
     cryptoStore := cryptoStore m;
     outdated := outdated m;
     tasks := <[t := k]> (tasks m);
     events := events m |}.

Definition is_resolved (e : exec) : bool :=
  match e with Resolved => true | _ => false end.

(** What the scheduler can do next: a client calls a method, or the
    operation a suspended call awaits settles and the call runs on to its
    next suspension. *)
Inductive action :=
| CallUpdate (userIds : list string)
| CallFlag (userIds : list string) (resync : bool)
| Resume (t : nat) (r : reply).

Definition resume (t : nat) (r : reply) (m : machine) : option machine :=
  match tasks m !! t with
  | Some (Waiting userIds existingPromises) =>
      match r, promise_all m existingPromises with
      | Ok, Fulfilled => Some (start_pass m t userIds)
      | Ok, Rejected => Some (set_task t Aborted m)
      | _, _ => None
      end
  | Some (Updating userIds p Resolved) =>
      match r, p with
      | Ok, Fulfilled => Some (set_task t Returned m)
      | _, _ => None
      end
  | Some (Updating userIds p e) =>
      match resume_exec (cryptoStore m) e r with
      | Some (st, log, e') =>
          Some {| deviceListUpdates := deviceListUpdates m;
                  cryptoStore := st;
                  outdated := outdated m;
                  tasks := <[t := Updating userIds
                                    (if is_resolved e' then Fulfilled else p) e']>
                             (tasks m);
                  events := events m ++ log
                            ++ (if is_resolved e' then [EvResolve t] else []) |}
      | None => None
      end
  | Some (Flagging userIds resync) =>
      match r with
      | Ok =>
          let m1 :=
            {| deviceListUpdates := deviceListUpdates m;
               cryptoStore := cryptoStore m;
               outdated := outdated m ∪ list_to_set userIds;
               tasks := <[t := Flagged]> (tasks m);
               events := events m ++ [EvFlagUsersOutdated userIds] |} in
          Some (if resync then updateUsersDeviceLists userIds m1 else m1)
      | Threw => Some (set_task t FlagFailed m)
      | Devices _ => None
      end
  | _ => None
  end.

Definition step (a : action) (m : machine) : option machine :=
  match a with
  | CallUpdate userIds => Some (updateUsersDeviceLists userIds m)
  | CallFlag userIds resync => Some (flagUsersOutdated userIds resync m)
  | Resume t r => resume t r m
  end.

Fixpoint run (acts : list action) (m : machine) : option machine :=
  match acts with
  | [] => Some m
  | a :: acts =>
      match step a m with
      | Some m' => run acts m'
      | None => None
      end
  end.

(** A tracker fresh from its constructor, over a store. *)
Definition new_tracker (st : store) : machine :=
  {| deviceListUpdates := ∅; cryptoStore := st; outdated := ∅;
     tasks := []; events := [] |}.

(** ** Sample data *)

(** A verifier for which every signature is valid. *)
Definition always_valid : UserDevice → string → string → bool := λ _ _ _, true.

Definition alice : string := "@alice:example.org".
Definition bob : string := "@bob:example.org".

(** A device with both keys and a signature of its own. *)
Definition sample_device (userId deviceId ed25519 curve25519 signature : string)
    : UserDevice :=
  {| user_id := userId;
     device_id := deviceId;
     keys := {[ key_label Ed25119 deviceId := ed25519;
                key_label Curve25519 deviceId := curve25519 ]};
     signatures := Some {[ userId := {[ key_label Ed25119 deviceId := signature ]} ]} |}.

Definition phone_E1 : UserDevice := sample_device alice "PHONE" "E1" "X1" "S1".
Definition phone_E2 : UserDevice := sample_device alice "PHONE" "E2" "X1" "S2".
Definition laptop : UserDevice := sample_device alice "LAPTOP" "E3" "X3" "S3".
Definition bobs_phone : UserDevice := sample_device bob "PHONE" "E4" "X4" "S4".

(** A device without its Curve25519 key. *)
Definition keyless_phone : UserDevice :=
  {| user_id := alice;
     device_id := "PHONE";
     keys := {[ key_label Ed25119 "PHONE" := "E1" ]};
     signatures := Some {[ alice := {[ key_label Ed25119 "PHONE" := "S1" ]} ]} |}.

(** Answers of the directory: Alice's phone with its first key, the same
    phone with another key, her laptop alone, Bob's phone listed as hers,
    her phone short of a key. *)
Definition answer_E1 : response := {[ alice := {[ "PHONE" := phone_E1 ]} ]}.
Definition answer_E2 : response := {[ alice := {[ "PHONE" := phone_E2 ]} ]}.
Definition answer_laptop : response := {[ alice := {[ "LAPTOP" := laptop ]} ]}.
Definition answer_lying : response := {[ alice := {[ "PHONE" := bobs_phone ]} ]}.
Definition answer_keyless : response := {[ alice := {[ "PHONE" := keyless_phone ]} ]}.

(** A store that trusts Alice's phone with its first key, and Bob's. *)
Definition trusting_store : store :=
  {[ alice := [phone_E1]; bob := [bobs_phone] ]}.

(** A verifier for which no signature is valid. *)
Definition never_valid : UserDevice → string → string → bool := λ _ _ _, false.

(** Alice's phone with both keys and no signature. *)
Definition unsigned_phone : UserDevice :=
  {| user_id := alice;
     device_id := "PHONE";
     keys := {[ key_label Ed25119 "PHONE" := "E1";
                key_label Curve25519 "PHONE" := "X1" ]};
     signatures := None |}.

(** Further answers of the directory: Alice's phone unsigned; both users at
    once, Alice with her phone under another key and her laptop, Bob with
    his phone. *)
Definition answer_unsigned : response := {[ alice := {[ "PHONE" := unsigned_phone ]} ]}.
Definition answer_both : response :=
  {[ alice := {[ "PHONE" := phone_E2; "LAPTOP" := laptop ]};
     bob := {[ "PHONE" := bobs_phone ]} ]}.

(** ** Two sentences of the specification, as they are worded *)

(** The Ed25519 key under which a device is stored, if it is stored. *)
Definition stored_key (st : store) (userId deviceId : string) : option string :=
  match existing_device (getUserDevices st userId) deviceId with
  | Some existingDevice => keys existingDevice !! key_label Ed25119 deviceId
  | None => None
  end.

(** Key pinning for good: a key once committed for a device is the only
    one the tracker ever has in the store for it afterwards. *)
Definition pinned_for_good : Prop :=
  ∀ st acts m acts' m' userId deviceId K K',
    run acts (new_tracker st) = Some m →
    run acts' m = Some m' →
    stored_key (cryptoStore m) userId deviceId = Some K →
    stored_key (cryptoStore m') userId deviceId = Some K' →
    K' = K.

(** Registration before the fetch: whenever the directory is called for a
    pass, the registry was given the pass's promise under every requested
    user earlier on. *)
Definition registered_before_fetch (evs : list event) : Prop :=
  ∀ i t userIds u,
    evs !! i = Some (EvFetch t userIds) → u ∈ userIds →
    ∃ j, j < i ∧ evs !! j = Some (EvRegister u t).

(** The pass of call [t] completes in [m']: the directory answers the
    call's fetch with [resp], then this call alone is resumed, by
    collaborators that resolve, until its promise is fulfilled. *)
Definition completes_alone (m : machine) (t : nat) (resp : response)
    (m' : machine) : Prop :=
  ∃ n, run (Resume t (Devices resp) :: replicate n (Resume t Ok)) m = Some m' ∧
       promise_state m' t = Some Fulfilled.

(** A device that passes the checks of lines 49-60 under its own ids. *)
Definition well_identified (userId : string) (d : UserDevice) : Prop :=
  ∃ ed25519, check_claim userId (device_id d) d = inr ed25519.

(** An executor that has pushed, and is about to push, such devices only. *)
Definition exec_filtered (e : exec) : Prop :=
  match e with
  | AwaitGetUserDevices k ed25519 | AwaitVerify k ed25519 _ =>
      Forall (well_identified (f_userId k)) (f_validated k) ∧
      check_claim (f_userId k) (f_deviceId k) (f_device k) = inr ed25519
  | AwaitSetUserDevices _ userId validated =>
      Forall (well_identified userId) validated
  | _ => True
  end.

Definition task_filtered (k : task) : Prop :=
  match k with
  | Updating _ _ e => exec_filtered e
  | _ => True
  end.

(** A trace whose commits hold such devices only. *)
Definition commits_filtered (evs : list event) : Prop :=
  ∀ userId devices,
    EvSetUserDevices userId devices ∈ evs →
    Forall (well_identified userId) devices.

(** No promise of the machine is rejected. *)
Definition never_rejected (m : machine) : Prop :=
  Forall (λ k, promise_of k ≠ Some Rejected) (tasks m).

(** The states a tracker gets into. *)
Definition reachable (m : machine) : Prop :=
  ∃ st acts, run acts (new_tracker st) = Some m.

(** The executor resumed [n] times by collaborators that resolve. *)
Fixpoint resume_oks (n : nat) (st : store) (e : exec)
    : option (store * list event * exec) :=
  match n with
  | 0 => Some (st, [], e)
  | S n =>
      match resume_exec st e Ok with
      | Some (st', log, e') =>
          match resume_oks n st' e' with
          | Some (st'', log', e'') => Some (st'', log ++ log', e'')
          | None => None
          end
      | None => None
      end
  end.

(** ** One claim, one verdict *)

(** The warning the loop body logs for a claim before it skips it with
    [continue], if it does: lines 50, 58, 68, 75 and 81 in the order of the
    checks. *)
Definition claim_warning (currentDevices : list UserDevice)
    (userId deviceId : string) (device : UserDevice) : option string :=
  match check_claim userId deviceId device with
  | inl w => Some w
  | inr ed25519 =>
      match check_pinned currentDevices userId deviceId device ed25519 with
      | inl w => Some w
      | inr signature =>
          if verifySignature device ed25519 signature then None
          else Some (invalid_signature_warning userId deviceId)
      end
  end.

(** Counting in a trace: the warnings, the commits, the devices committed. *)
Fixpoint warnings (evs : list event) : nat :=
  match evs with
  | [] => 0
  | EvWarn _ :: evs => S (warnings evs)
  | _ :: evs => warnings evs
  end.

Fixpoint commits (evs : list event) : nat :=
  match evs with
  | [] => 0
  | EvSetUserDevices _ _ :: evs => S (commits evs)
  | _ :: evs => commits evs
  end.

Fixpoint committed (evs : list event) : nat :=
  match evs with
  | [] => 0
  | EvSetUserDevices _ devices :: evs => length devices + committed evs
  | _ :: evs => committed evs
  end.

(** The claims of a response, all users together. *)
Definition claims_in (resp : response) : nat :=
  sum_list ((λ p, size p.2) <$> map_to_list resp).

(** An executor suspended at one of its [await]s. *)
Definition awaiting (e : exec) : bool :=
  match e with
  | Resolved | Crashed => false
  | _ => true
  end.

(** ** What the store holds, whatever the schedule *)

(** A device that passes, under its own ids, the checks of the loop body
    that do not look at the store: ids, keys, and a signature of its own
    that the verifier accepts. *)
Definition self_signed (userId : string) (d : UserDevice) : Prop :=
  ∃ ed25519 signature,
    check_claim userId (device_id d) d = inr ed25519 ∧
    self_signature userId (device_id d) d = Some signature ∧
    signature ≠ EmptyString ∧
    verifySignature d ed25519 signature = true.

(** An executor that has pushed such devices only, and that holds of the
    claim at hand what the checks passed so far have established. *)
Definition exec_signed (e : exec) : Prop :=
  match e with
  | AwaitGetUserDevices k ed25519 =>
      Forall (self_signed (f_userId k)) (f_validated k) ∧
      check_claim (f_userId k) (f_deviceId k) (f_device k) = inr ed25519
  | AwaitVerify k ed25519 signature =>
      Forall (self_signed (f_userId k)) (f_validated k) ∧
      check_claim (f_userId k) (f_deviceId k) (f_device k) = inr ed25519 ∧
      self_signature (f_userId k) (f_deviceId k) (f_device k) = Some signature ∧
      signature ≠ EmptyString
  | AwaitSetUserDevices _ userId validated =>
      Forall (self_signed userId) validated
  | _ => True
  end.

Definition task_signed (k : task) : Prop :=
  match k with
  | Updating _ _ e => exec_signed e
  | _ => True
  end.

Definition store_signed (st : store) : Prop :=
  ∀ userId devices,
    st !! userId = Some devices → Forall (self_signed userId) devices.

Definition commits_signed (evs : list event) : Prop :=
  ∀ userId devices,
    EvSetUserDevices userId devices ∈ evs → Forall (self_signed userId) devices.

(** ** A call and its own pass *)

(** What the trace holds of the call [t] once it is at [k]: a call past
    line 43 has called the directory, and a call whose promise is fulfilled
    has been through its [resolve()]. *)
Definition task_ran (evs : list event) (t : nat) (k : task) : Prop :=
  match k with
  | Updating userIds p _ =>
      EvFetch t userIds ∈ evs ∧ (p = Fulfilled → EvResolve t ∈ evs)
  | Returned => (∃ userIds, EvFetch t userIds ∈ evs) ∧ EvResolve t ∈ evs
  | _ => True
  end.

Definition all_ran (ts : list task) (evs : list event) : Prop :=
  ∀ t k, ts !! t = Some k → task_ran evs t k.

(** ** The claim a pass has at hand *)

(** A suspended turn of the inner loop: the claim at hand carries its own
    device id, and the ids of the claims at hand and to come are distinct
    and are not those of the devices pushed so far. *)
Definition frame_distinct (k : frame) : Prop :=
  device_id (f_device k) = f_deviceId k ∧
  NoDup (f_deviceId k :: (f_todo k).*1) ∧
  ∀ d, d ∈ f_validated k → device_id d ∉ f_deviceId k :: (f_todo k).*1.

Definition exec_distinct (e : exec) : Prop :=
  match e with
  | AwaitGetUserDevices k _ | AwaitVerify k _ _ => frame_distinct k
  | _ => True
  end.

Definition task_distinct (k : task) : Prop :=
  match k with
  | Updating _ _ e => exec_distinct e
  | _ => True
  end.

(** An executor that has left the claim [deviceId] behind in the turn of
    the outer loop for [userId], the turn with [users] still to visit: it
    is in that turn with no device of that id pushed, at hand or to come,
    or it is in a later turn, or it has ended. *)
Definition exec_skips (users : list (string * claims)) (userId deviceId : string)
    (e : exec) : Prop :=
  match e with
  | AwaitFetch => False
  | AwaitGetUserDevices k _ | AwaitVerify k _ _ =>
      (length (f_users k) < length users)%nat ∨
      (f_users k = users ∧ f_userId k = userId ∧
       device_id (f_device k) = f_deviceId k ∧
       f_deviceId k ≠ deviceId ∧
       (deviceId ∉ (f_todo k).*1) ∧
       ∀ d, d ∈ f_validated k → device_id d ≠ deviceId)
  | AwaitSetUserDevices users' userId' validated =>
      (length users' < length users)%nat ∨
      (users' = users ∧ userId' = userId ∧
       ∀ d, d ∈ validated → device_id d ≠ deviceId)
  | Resolved | Crashed => True
  end.

Definition task_skips (users : list (string * claims)) (userId deviceId : string)
    (k : task) : Prop :=
  match k with
  | Updating _ _ e => exec_skips users userId deviceId e
  | Waiting _ _ => False
  | _ => True
  end.

(** * Properties *)

(** ** The checks *)

Lemma falsy_false (s : string) : falsy s = false ↔ s ≠ EmptyString.
Proof. unfold falsy. by rewrite bool_decide_eq_false. Qed.

Lemma check_claim_inr userId deviceId device ed25519 :
  check_claim userId deviceId device = inr ed25519 ↔
  user_id device = userId ∧ device_id device = deviceId ∧
  keys device !! key_label Ed25119 deviceId = Some ed25519 ∧
  ed25519 ≠ EmptyString ∧
  ∃ curve25519,
    keys device !! key_label Curve25519 deviceId = Some curve25519 ∧
    curve25519 ≠ EmptyString.
Proof.
  unfold check_claim. split.
  - destruct (bool_decide (user_id device ≠ userId)) eqn:Hu; [done|].
    destruct (bool_decide (device_id device ≠ deviceId)) eqn:Hd; [done|].
    apply bool_decide_eq_false in Hu, Hd.
    apply dec_stable in Hu, Hd. simpl.
    destruct (keys device !! key_label Ed25119 deviceId) as [e|]; [|done].
    destruct (keys device !! key_label Curve25519 deviceId) as [c|]; [|done].
    destruct (falsy e) eqn:He; [done|].
    destruct (falsy c) eqn:Hc; [done|]. simpl.
    intros [= <-]. apply falsy_false in He, Hc.
    split_and!; [done..|]. by exists c.
  - intros (Hu & Hd & He & Hne & c & Hc & Hcne).
    rewrite !bool_decide_eq_false_2 by (intros ?; done). simpl.
    rewrite He, Hc.
    apply falsy_false in Hne, Hcne. by rewrite Hne, Hcne.
Qed.

Lemma check_claim_lying userId deviceId device :
  user_id device ≠ userId ∨ device_id device ≠ deviceId →
  check_claim userId deviceId device = inl (lying_warning userId deviceId device).
Proof.
  intros H. unfold check_claim.
  destruct H as [H|H].
  - by rewrite (bool_decide_eq_true_2 _ H).
  - rewrite (bool_decide_eq_true_2 (device_id device ≠ deviceId) H).
    by rewrite orb_true_r.
Qed.

Lemma check_claim_missing_key userId deviceId device :
  keys device !! key_label Ed25119 deviceId = None ∨
  keys device !! key_label Curve25519 deviceId = None →
  ∃ w, check_claim userId deviceId device = inl w ∧
       (w = lying_warning userId deviceId device ∨
        w = missing_key_warning userId deviceId).
Proof.
  intros H. destruct (check_claim userId deviceId device) as [w|e] eqn:Hc.
  - exists w. split; [done|]. unfold check_claim in Hc.
    destruct (_ || _); [left; congruence|].
    right. repeat case_match; congruence.
  - apply check_claim_inr in Hc as (_ & _ & He & _ & c & Hc & _).
    destruct H; congruence.
Qed.

Lemma check_pinned_inr currentDevices userId deviceId device ed25519 signature :
  check_pinned currentDevices userId deviceId device ed25519 = inr signature ↔
  (∀ existingDevice,
     existing_device currentDevices deviceId = Some existingDevice →
     keys existingDevice !! key_label Ed25119 deviceId = Some ed25519) ∧
  self_signature userId deviceId device = Some signature ∧
  signature ≠ EmptyString.
Proof.
  unfold check_pinned. split.
  - destruct (existing_device currentDevices deviceId) as [old|].
    + destruct (bool_decide _) eqn:Hk; [done|].
      apply bool_decide_eq_false in Hk. apply dec_stable in Hk.
      destruct (self_signature userId deviceId device) as [sg|]; [|done].
      destruct (falsy sg) eqn:Hs; [done|]. intros [= <-].
      apply falsy_false in Hs. split; [|done]. by intros ? [= <-].
    + destruct (self_signature userId deviceId device) as [sg|]; [|done].
      destruct (falsy sg) eqn:Hs; [done|]. intros [= <-].
      apply falsy_false in Hs. done.
  - intros (Hpin & -> & Hne). apply falsy_false in Hne. rewrite Hne.
    destruct (existing_device currentDevices deviceId) as [old|]; [|done].
    rewrite bool_decide_eq_false_2; [done|].
    rewrite (Hpin old eq_refl). by intros H.
Qed.

(** What it takes to pass every check of the loop body. *)
Lemma accepts_spec currentDevices userId deviceId device :
  accepts currentDevices userId deviceId device = true ↔
  user_id device = userId ∧ device_id device = deviceId ∧
  ∃ ed25519 curve25519 signature,
    keys device !! key_label Ed25119 deviceId = Some ed25519 ∧
    ed25519 ≠ EmptyString ∧
    keys device !! key_label Curve25519 deviceId = Some curve25519 ∧
    curve25519 ≠ EmptyString ∧
    (∀ existingDevice,
       existing_device currentDevices deviceId = Some existingDevice →
       keys existingDevice !! key_label Ed25119 deviceId = Some ed25519) ∧
    self_signature userId deviceId device = Some signature ∧
    signature ≠ EmptyString ∧
    verifySignature device ed25519 signature = true.
Proof.
  unfold accepts. split.
  - destruct (check_claim userId deviceId device) as [w|e] eqn:Hc; [done|].
    destruct (check_pinned currentDevices userId deviceId device e)
      as [w|sg] eqn:Hp; [done|].
    intros Hv.
    apply check_claim_inr in Hc as (Hu & Hd & He & Hne & c & Hc & Hcne).
    apply check_pinned_inr in Hp as (Hpin & Hs & Hsne).
    split; [done|]. split; [done|]. exists e, c, sg. done.
  - intros (Hu & Hd & e & c & sg & He & Hne & Hc & Hcne & Hpin & Hs & Hsne & Hv).
    assert (check_claim userId deviceId device = inr e) as ->.
    { apply check_claim_inr. repeat split; try done. by exists c. }
    assert (check_pinned currentDevices userId deviceId device e = inr sg) as ->.
    { by apply check_pinned_inr. }
    done.
Qed.

(** ** The loops of one pass *)

Lemma validate_claims_ext st st' userId todo validated :
  getUserDevices st userId = getUserDevices st' userId →
  validate_claims st userId todo validated
  = validate_claims st' userId todo validated.
Proof.
  intros H. revert validated.
  induction todo as [|[deviceId device] todo IH]; intros validated; simpl; [done|].
  rewrite H.
  destruct (check_claim userId deviceId device); [by rewrite IH|].
  destruct (check_pinned _ _ _ _ _); [by rewrite IH|].
  destruct (check_verified _ _ _ _ _ _). by rewrite IH.
Qed.

Lemma validate_claims_cons st userId deviceId device todo validated :
  (validate_claims st userId ((deviceId, device) :: todo) validated).1
  = (validate_claims st userId todo
       (if accepts (getUserDevices st userId) userId deviceId device
        then validated ++ [device] else validated)).1.
Proof.
  simpl. unfold accepts, check_verified.
  destruct (check_claim userId deviceId device).
  { by destruct (validate_claims st userId todo validated). }
  destruct (check_pinned _ _ _ _ _).
  { by destruct (validate_claims st userId todo validated). }
  destruct (verifySignature _ _ _).
  - by destruct (validate_claims st userId todo (validated ++ [device])).
  - by destruct (validate_claims st userId todo validated).
Qed.

(** [validated] ends up holding what it held plus the accepted claims. *)
Lemma validate_claims_elem st userId todo validated d :
  d ∈ (validate_claims st userId todo validated).1 ↔
  d ∈ validated ∨
  ∃ deviceId, (deviceId, d) ∈ todo ∧
    accepts (getUserDevices st userId) userId deviceId d = true.
Proof.
  revert validated.
  induction todo as [|[deviceId device] todo IH]; intros validated.
  - simpl. split; [by left|]. intros [?|(? & H & _)]; [done|].
    by apply elem_of_nil in H.
  - rewrite validate_claims_cons, IH.
    destruct (accepts (getUserDevices st userId) userId deviceId device) eqn:Ha.
    + rewrite elem_of_app, list_elem_of_singleton. split.
      * intros [[?| ->]|(D & Hin & HD)]; [by left| |].
        -- right. exists deviceId. split; [left|done].
        -- right. exists D. split; [by right|done].
      * intros [?|(D & Hin & HD)]; [by left; left|].
        apply elem_of_cons in Hin as [[= -> ->]|Hin]; [by left; right|].
        right. by exists D.
    + split.
      * intros [?|(D & Hin & HD)]; [by left|].
        right. exists D. split; [by right|done].
      * intros [?|(D & Hin & HD)]; [by left|].
        apply elem_of_cons in Hin as [[= -> ->]|Hin]; [congruence|].
        right. by exists D.
Qed.

(** A warning of the checks that do not look at the store reaches the log. *)
Lemma validate_claims_warns st userId todo validated deviceId device w :
  (deviceId, device) ∈ todo →
  check_claim userId deviceId device = inl w →
  EvWarn w ∈ (validate_claims st userId todo validated).2.
Proof.
  intros Hin Hw. revert validated.
  induction todo as [|[D d] todo IH]; intros validated.
  { by apply elem_of_nil in Hin. }
  apply elem_of_cons in Hin as [[= <- <-]|Hin]; simpl.
  - rewrite Hw. destruct (validate_claims st userId todo validated).
    simpl. left.
  - specialize (IH Hin).
    destruct (check_claim userId D d).
    { specialize (IH validated).
      destruct (validate_claims st userId todo validated). simpl in *. by right. }
    destruct (check_pinned _ _ _ _ _).
    { specialize (IH validated).
      destruct (validate_claims st userId todo validated). simpl in *. by right. }
    destruct (check_verified _ _ _ _ _ _) as [v' log1].
    specialize (IH v').
    destruct (validate_claims st userId todo v'). simpl in *.
    apply elem_of_app. by right.
Qed.

Lemma update_user_store st userId cl :
  (update_user st userId cl).1
  = <[userId := (validate_claims st userId (map_to_list cl) []).1]> st.
Proof.
  unfold update_user, setUserDevices.
  by destruct (validate_claims st userId (map_to_list cl) []).
Qed.

Lemma update_users_cons st userId cl todo :
  (update_users st ((userId, cl) :: todo)).1
  = (update_users (update_user st userId cl).1 todo).1.
Proof.
  simpl. destruct (update_user st userId cl) as [st' log1]. simpl.
  by destruct (update_users st' todo).
Qed.

(** The outer loop writes the store only under the users it visits. *)
Lemma update_users_frame st todo userId :
  userId ∉ todo.*1 → (update_users st todo).1 !! userId = st !! userId.
Proof.
  revert st. induction todo as [|[u cl] todo IH]; intros st Hnot; [done|].
  rewrite fmap_cons, not_elem_of_cons in Hnot. destruct Hnot as [Hne Hnot].
  rewrite update_users_cons, IH by done.
  rewrite update_user_store. by rewrite lookup_insert_ne.
Qed.

(** Under a user it visits, the outer loop leaves what the inner loop
    validated against the devices stored before the pass. *)
Lemma update_users_commit st todo userId cl :
  NoDup todo.*1 → (userId, cl) ∈ todo →
  (update_users st todo).1 !! userId
  = Some (validate_claims st userId (map_to_list cl) []).1.
Proof.
  revert st. induction todo as [|[u c] todo IH]; intros st Hnd Hin.
  { by apply elem_of_nil in Hin. }
  rewrite fmap_cons in Hnd. apply NoDup_cons in Hnd as [Hfresh Hnd].
  rewrite update_users_cons.
  apply elem_of_cons in Hin as [[= <- <-]|Hin].
  - rewrite update_users_frame by done.
    rewrite update_user_store. by rewrite lookup_insert_eq.
  - assert (u ≠ userId) as Hne.
    { intros ->. apply Hfresh. simpl.
      by apply (list_elem_of_fmap_2 fst _ (userId, cl)). }
    rewrite IH by done. f_equal. f_equal.
    apply validate_claims_ext. unfold getUserDevices.
    rewrite update_user_store. by rewrite lookup_insert_ne.
Qed.

Lemma update_users_warns st todo userId cl deviceId device w :
  (userId, cl) ∈ todo → cl !! deviceId = Some device →
  check_claim userId deviceId device = inl w →
  EvWarn w ∈ (update_users st todo).2.
Proof.
  intros Hin Hd Hw. revert st.
  induction todo as [|[u c] todo IH]; intros st.
  { by apply elem_of_nil in Hin. }
  simpl. destruct (update_user st u c) as [st' log1] eqn:Hu.
  apply elem_of_cons in Hin as [[= <- <-]|Hin].
  - destruct (update_users st' todo). simpl. apply elem_of_app. left.
    unfold update_user in Hu.
    destruct (validate_claims st userId (map_to_list cl) []) as [v log] eqn:Hv.
    injection Hu as <- <-. apply elem_of_app. left.
    change log with (v, log).2. rewrite <- Hv.
    eapply validate_claims_warns; [|done]. by apply elem_of_map_to_list.
  - specialize (IH Hin st'). destruct (update_users st' todo). simpl in *.
    apply elem_of_app. by right.
Qed.

Lemma validate_claims_writes_nothing st userId todo validated u devices :
  EvSetUserDevices u devices ∉ (validate_claims st userId todo validated).2.
Proof.
  revert validated.
  induction todo as [|[D d] todo IH]; intros validated; simpl.
  { apply not_elem_of_nil. }
  destruct (check_claim userId D d).
  { specialize (IH validated).
    destruct (validate_claims st userId todo validated). simpl in *.
    rewrite not_elem_of_cons. done. }
  destruct (check_pinned _ _ _ _ _).
  { specialize (IH validated).
    destruct (validate_claims st userId todo validated). simpl in *.
    rewrite not_elem_of_cons. done. }
  unfold check_verified.
  destruct (verifySignature _ _ _).
  - specialize (IH (validated ++ [d])).
    by destruct (validate_claims st userId todo (validated ++ [d])).
  - specialize (IH validated).
    destruct (validate_claims st userId todo validated). simpl in *.
    rewrite not_elem_of_cons. done.
Qed.

Lemma update_users_writes st todo u devices :
  EvSetUserDevices u devices ∈ (update_users st todo).2 → u ∈ todo.*1.
Proof.
  revert st. induction todo as [|[userId cl] todo IH]; intros st; simpl.
  { intros H. by apply elem_of_nil in H. }
  destruct (update_user st userId cl) as [st' log1] eqn:Hu.
  specialize (IH st'). destruct (update_users st' todo) as [st'' log2].
  simpl in *. rewrite elem_of_app. intros [H|H]; [|right; by apply IH].
  unfold update_user in Hu.
  destruct (validate_claims st userId (map_to_list cl) []) as [v log] eqn:Hv.
  injection Hu as <- <-.
  apply elem_of_app in H as [H|H].
  - exfalso. eapply validate_claims_writes_nothing. by erewrite Hv.
  - apply list_elem_of_singleton in H as [= -> ->]. left.
Qed.

Lemma elem_of_fst_map_to_list {A} (m : gmap string A) (k : string) :
  k ∈ (map_to_list m).*1 ↔ is_Some (m !! k).
Proof.
  rewrite list_elem_of_fmap. split.
  - intros ([k' x] & -> & Hin). apply elem_of_map_to_list in Hin. by exists x.
  - intros [x Hx]. exists (k, x). split; [done|]. by apply elem_of_map_to_list.
Qed.

(** What a pass leaves under a user of the response. *)
Lemma run_pass_commit st resp userId cl :
  resp !! userId = Some cl →
  (run_pass st resp).1 !! userId
  = Some (validate_claims st userId (map_to_list cl) []).1.
Proof.
  intros H. apply update_users_commit.
  - apply NoDup_fst_map_to_list.
  - by apply elem_of_map_to_list.
Qed.

Lemma run_pass_elem st resp userId cl d :
  resp !! userId = Some cl →
  d ∈ getUserDevices (run_pass st resp).1 userId ↔
  ∃ deviceId, cl !! deviceId = Some d ∧
    accepts (getUserDevices st userId) userId deviceId d = true.
Proof.
  intros H. unfold getUserDevices at 1.
  rewrite (run_pass_commit _ _ _ _ H). simpl.
  rewrite validate_claims_elem. split.
  - intros [Hnil|(D & Hin & Ha)]; [by apply elem_of_nil in Hnil|].
    exists D. by apply elem_of_map_to_list in Hin.
  - intros (D & Hin & Ha). right. exists D.
    by apply elem_of_map_to_list in Hin.
Qed.

(** A committed device is listed in the response under its own ids. *)
Lemma run_pass_listed st resp userId cl d :
  resp !! userId = Some cl →
  d ∈ getUserDevices (run_pass st resp).1 userId →
  user_id d = userId ∧ cl !! device_id d = Some d ∧
  accepts (getUserDevices st userId) userId (device_id d) d = true.
Proof.
  intros H Hd. apply (run_pass_elem _ _ _ _ _ H) in Hd as (D & Hcl & Ha).
  pose proof Ha as Hspec. apply accepts_spec in Hspec as (Hu & HD & _).
  by rewrite HD.
Qed.

(** A claim the loop body rejects leaves no device under its id. *)
Lemma run_pass_rejected st resp userId cl deviceId :
  resp !! userId = Some cl →
  (∀ device, cl !! deviceId = Some device →
     accepts (getUserDevices st userId) userId deviceId device = false) →
  ∀ d, d ∈ getUserDevices (run_pass st resp).1 userId → device_id d ≠ deviceId.
Proof.
  intros H Hrej d Hd Hid.
  apply (run_pass_listed _ _ _ _ _ H) in Hd as (_ & Hcl & Ha).
  rewrite Hid in Hcl, Ha. by rewrite (Hrej _ Hcl) in Ha.
Qed.

(** ** The executor await by await against the loops run to completion *)

Lemma resume_oks_app n1 n2 st e st1 log1 e1 st2 log2 e2 :
  resume_oks n1 st e = Some (st1, log1, e1) →
  resume_oks n2 st1 e1 = Some (st2, log2, e2) →
  resume_oks (n1 + n2) st e = Some (st2, log1 ++ log2, e2).
Proof.
  revert st e log1. induction n1 as [|n1 IH]; intros st e log1; simpl.
  - intros [= <- <- <-]. done.
  - destruct (resume_exec st e Ok) as [[[st' log] e']|]; [|done].
    destruct (resume_oks n1 st' e') as [[[st'' log'] e'']|] eqn:H1; [|done].
    intros [= <- <- <-] H2. rewrite (IH _ _ _ H1 H2). by rewrite app_assoc.
Qed.

Lemma inner_loop_complete st users userId todo validated log0 e0 :
  inner_loop users userId validated todo = (log0, e0) →
  ∃ n log1,
    resume_oks n st e0
    = Some (st, log1,
            AwaitSetUserDevices users userId
              (validate_claims st userId todo validated).1) ∧
    (validate_claims st userId todo validated).2 = log0 ++ log1.
Proof.
  revert validated log0 e0.
  induction todo as [|[deviceId device] todo IH]; intros validated log0 e0; simpl.
  { intros [= <- <-]. by exists 0, []. }
  destruct (check_claim userId deviceId device) as [w|ed].
  - destruct (inner_loop users userId validated todo) as [log e] eqn:Hi.
    intros [= <- <-]. destruct (IH _ _ _ Hi) as (n & log1 & Hn & Hlog).
    exists n, log1.
    destruct (validate_claims st userId todo validated) as [v logv].
    simpl in *. by rewrite Hlog.
  - intros [= <- <-].
    destruct (check_pinned (getUserDevices st userId) userId deviceId device ed)
      as [w|sg] eqn:Hp.
    + destruct (inner_loop users userId validated todo) as [log e] eqn:Hi.
      destruct (IH _ _ _ Hi) as (n & log1 & Hn & Hlog).
      exists (S n), (EvWarn w :: log ++ log1). simpl. rewrite Hp, Hi, Hn.
      destruct (validate_claims st userId todo validated) as [v logv].
      simpl in *. by rewrite Hlog.
    + destruct (check_verified userId deviceId device ed sg validated)
        as [validated' logv1] eqn:Hv.
      destruct (inner_loop users userId validated' todo) as [log e] eqn:Hi.
      destruct (IH _ _ _ Hi) as (n & log1 & Hn & Hlog).
      exists (S (S n)), (logv1 ++ log ++ log1). simpl.
      rewrite Hp. simpl. rewrite Hv, Hi, Hn.
      destruct (validate_claims st userId todo validated') as [v logv].
      simpl in *. rewrite Hlog. by rewrite <- !app_assoc.
Qed.

Lemma outer_loop_complete st users log0 e0 :
  outer_loop users = (log0, e0) →
  ∃ n log1,
    resume_oks n st e0 = Some ((update_users st users).1, log1, Resolved) ∧
    (update_users st users).2 = log0 ++ log1.
Proof.
  revert st log0 e0.
  induction users as [|[userId cl] users IH]; intros st log0 e0; simpl.
  { intros [= <- <-]. by exists 0, []. }
  intros Hi.
  destruct (inner_loop_complete st _ _ _ _ _ _ Hi) as (n1 & log1 & Hn1 & Hlog1).
  unfold update_user.
  destruct (validate_claims st userId (map_to_list cl) []) as [v logv].
  simpl in *.
  destruct (outer_loop users) as [log e] eqn:Ho.
  destruct (IH (setUserDevices st userId v) _ _ eq_refl)
    as (n2 & log2 & Hn2 & Hlog2).
  destruct (update_users (setUserDevices st userId v) users) as [st'' logu].
  simpl in *.
  exists (n1 + S n2), (log1 ++ EvSetUserDevices userId v :: log ++ log2).
  split.
  - eapply resume_oks_app; [done|]. simpl. by rewrite Ho, Hn2.
  - rewrite Hlog1, Hlog2. rewrite <- !app_assoc. done.
Qed.

(** Resuming a call whose executor has not resolved resumes the executor. *)
Lemma resume_updating m t userIds p e r :
  tasks m !! t = Some (Updating userIds p e) →
  is_resolved e = false →
  resume t r m
  = match resume_exec (cryptoStore m) e r with
    | Some (st, log, e') =>
        Some {| deviceListUpdates := deviceListUpdates m;
                cryptoStore := st;
                outdated := outdated m;
                tasks := <[t := Updating userIds
                                  (if is_resolved e' then Fulfilled else p) e']>
                           (tasks m);
                events := events m ++ log
                          ++ (if is_resolved e' then [EvResolve t] else []) |}
    | None => None
    end.
Proof. intros Ht He. unfold resume. rewrite Ht. by destruct e. Qed.

(** The machine follows the executor while one call alone is resumed. *)
Lemma run_resume_oks n m t userIds p e st' log e' :
  tasks m !! t = Some (Updating userIds p e) →
  is_resolved e = false →
  resume_oks n (cryptoStore m) e = Some (st', log, e') →
  run (replicate n (Resume t Ok)) m
  = Some {| deviceListUpdates := deviceListUpdates m;
            cryptoStore := st';
            outdated := outdated m;
            tasks := <[t := Updating userIds
                              (if is_resolved e' then Fulfilled else p) e']>
                       (tasks m);
            events := events m ++ log
                      ++ (if is_resolved e' then [EvResolve t] else []) |}.
Proof.
  revert m e log. induction n as [|n IH]; intros m e log Ht He; simpl.
  - intros [= <- <- <-]. rewrite He. rewrite list_insert_id by done.
    rewrite !app_nil_r. by destruct m.
  - destruct (resume_exec (cryptoStore m) e Ok) as [[[st1 log1] e1]|] eqn:H1;
      [|done].
    destruct (resume_oks n st1 e1) as [[[st2 log2] e2]|] eqn:H2; [|done].
    intros [= <- <- <-].
    rewrite (resume_updating _ _ _ _ _ _ Ht He), H1.
    destruct (is_resolved e1) eqn:He1.
    + destruct e1; try done. destruct n; [|done]. simpl in H2.
      injection H2 as <- <- <-. simpl. by rewrite !app_nil_r.
    + erewrite (IH _ e1 log2); simpl; [|by apply list_lookup_insert_eq,
                                           (lookup_lt_Some _ _ _ Ht)|done|done].
      rewrite list_insert_insert_eq, app_nil_r. by rewrite <- !app_assoc.
Qed.

(** A call resumed alone from the directory's answer, with collaborators
    that resolve, does what [run_pass] does and resolves its promise. *)
Lemma pass_alone m t userIds p resp :
  tasks m !! t = Some (Updating userIds p AwaitFetch) →
  ∃ n,
    run (Resume t (Devices resp) :: replicate n (Resume t Ok)) m
    = Some {| deviceListUpdates := deviceListUpdates m;
              cryptoStore := (run_pass (cryptoStore m) resp).1;
              outdated := outdated m;
              tasks := <[t := Updating userIds Fulfilled Resolved]> (tasks m);
              events := events m ++ (run_pass (cryptoStore m) resp).2
                        ++ [EvResolve t] |}.
Proof.
  intros Ht. unfold run_pass.
  destruct (outer_loop (map_to_list resp)) as [log0 e0] eqn:Ho.
  destruct (outer_loop_complete (cryptoStore m) _ _ _ Ho)
    as (n & log1 & Hn & Hlog).
  exists n. simpl. rewrite (resume_updating _ _ _ _ _ _ Ht eq_refl). simpl.
  rewrite Ho.
  destruct (is_resolved e0) eqn:He0.
  - destruct e0; try done. destruct n; [|done]. simpl in *.
    injection Hn as Hst <-. rewrite <- Hst, Hlog. by rewrite app_nil_r.
  - erewrite run_resume_oks; [| |done|done].
    2: { simpl. apply list_lookup_insert_eq. by eapply lookup_lt_Some. }
    simpl. rewrite list_insert_insert_eq, Hlog, app_nil_r.
    by rewrite <- !app_assoc.
Qed.

(** ** The machine, step by step *)

Lemma register_lookup registry userIds promise u :
  register registry userIds promise !! u
  = if bool_decide (u ∈ userIds) then Some promise else registry !! u.
Proof.
  unfold register. revert registry.
  induction userIds as [|u0 us IH]; intros registry.
  { case_bool_decide as H; [by apply elem_of_nil in H|done]. }
  simpl. rewrite IH.
  case_bool_decide as Hin; case_bool_decide as Hin'; try done.
  - exfalso. apply Hin'. by right.
  - apply elem_of_cons in Hin' as [->|?]; [|done]. by rewrite lookup_insert_eq.
  - rewrite lookup_insert_ne; [done|]. intros ->. apply Hin'. left.
Qed.

Lemma updateUsersDeviceLists_waiting userIds m :
  existing_promises m userIds ≠ [] →
  updateUsersDeviceLists userIds m
  = {| deviceListUpdates := deviceListUpdates m;
       cryptoStore := cryptoStore m;
       outdated := outdated m;
       tasks := tasks m ++ [Waiting userIds (existing_promises m userIds)];
       events := events m |}.
Proof.
  intros H. unfold updateUsersDeviceLists.
  rewrite bool_decide_eq_true_2; [done|].
  destruct (existing_promises m userIds); [done|simpl; lia].
Qed.

Lemma updateUsersDeviceLists_starting userIds m :
  existing_promises m userIds = [] →
  updateUsersDeviceLists userIds m
  = {| deviceListUpdates :=
         register (deviceListUpdates m) userIds (length (tasks m));
       cryptoStore := cryptoStore m;
       outdated := outdated m;
       tasks := tasks m ++ [Updating userIds Pending AwaitFetch];
       events := events m ++ EvFetch (length (tasks m)) userIds
                 :: map (λ u, EvRegister u (length (tasks m))) userIds |}.
Proof.
  intros H. unfold updateUsersDeviceLists. rewrite H. simpl.
  unfold start_pass. simpl.
  f_equal. rewrite insert_app_r_alt by lia. by rewrite Nat.sub_diag.
Qed.

(** A call of [updateUsersDeviceLists] adds one suspended call. *)
Lemma updateUsersDeviceLists_tasks userIds m :
  ∃ k, tasks (updateUsersDeviceLists userIds m) = tasks m ++ [k] ∧
       outdated (updateUsersDeviceLists userIds m) = outdated m ∧
       (k = Waiting userIds (existing_promises m userIds) ∨
        k = Updating userIds Pending AwaitFetch).
Proof.
  destruct (existing_promises m userIds) as [|h hs] eqn:He.
  - rewrite updateUsersDeviceLists_starting by done. eexists. eauto.
  - rewrite updateUsersDeviceLists_waiting by congruence.
    eexists. rewrite He. eauto.
Qed.

(** The ways a suspended call is resumed. *)
Lemma resume_inv t r m m' :
  resume t r m = Some m' →
  (∃ userIds hs, tasks m !! t = Some (Waiting userIds hs) ∧ r = Ok ∧
     promise_all m hs = Fulfilled ∧ m' = start_pass m t userIds) ∨
  (∃ userIds hs, tasks m !! t = Some (Waiting userIds hs) ∧ r = Ok ∧
     promise_all m hs = Rejected ∧ m' = set_task t Aborted m) ∨
  (∃ userIds, tasks m !! t = Some (Updating userIds Fulfilled Resolved) ∧
     r = Ok ∧ m' = set_task t Returned m) ∨
  (∃ userIds p e st log e',
     tasks m !! t = Some (Updating userIds p e) ∧ is_resolved e = false ∧
     resume_exec (cryptoStore m) e r = Some (st, log, e') ∧
     m' = {| deviceListUpdates := deviceListUpdates m;
             cryptoStore := st;
             outdated := outdated m;
             tasks := <[t := Updating userIds
                               (if is_resolved e' then Fulfilled else p) e']>
                        (tasks m);
             events := events m ++ log
                       ++ (if is_resolved e' then [EvResolve t] else []) |}) ∨
  (∃ userIds resync m1,
     tasks m !! t = Some (Flagging userIds resync) ∧ r = Ok ∧
     m1 = {| deviceListUpdates := deviceListUpdates m;
             cryptoStore := cryptoStore m;
             outdated := outdated m ∪ list_to_set userIds;
             tasks := <[t := Flagged]> (tasks m);
             events := events m ++ [EvFlagUsersOutdated userIds] |} ∧
     m' = (if resync then updateUsersDeviceLists userIds m1 else m1)) ∨
  (∃ userIds resync, tasks m !! t = Some (Flagging userIds resync) ∧
     r = Threw ∧ m' = set_task t FlagFailed m).
Proof.
  unfold resume. destruct (tasks m !! t) as [k|] eqn:Ht; [|done].
  destruct k as [us hs|us p e| | |us b| |]; try done.
  - destruct r; try done.
    destruct (promise_all m hs) eqn:Hall; try done; intros [= <-].
    + left. by exists us, hs.
    + right; left. by exists us, hs.
  - destruct (is_resolved e) eqn:He.
    + destruct e; try done. destruct r; try done. destruct p; try done.
      intros [= <-]. right; right; left. by exists us.
    + intros H. right; right; right; left.
      destruct (resume_exec (cryptoStore m) e r) as [[[st log] e']|] eqn:Hx.
      * exists us, p, e, st, log, e'. split_and!; try done.
        destruct e; try done; by injection H as <-.
      * by destruct e.
  - destruct r; try done; intros [= <-].
    + right; right; right; right; left. by eexists us, b, _.
    + right; right; right; right; right. by exists us, b.
Qed.

(** A step leaves every call it does not resume where it is. *)
Lemma step_other a m m' t k :
  step a m = Some m' → tasks m !! t = Some k →
  (∀ r, a ≠ Resume t r) → tasks m' !! t = Some k.
Proof.
  intros Hs Ht Hne. destruct a as [us|us b|t' r]; simpl in Hs.
  - injection Hs as <-.
    destruct (updateUsersDeviceLists_tasks us m) as (k' & -> & _).
    by apply lookup_app_l_Some.
  - injection Hs as <-. simpl. by apply lookup_app_l_Some.
  - assert (t' ≠ t) as Htt by (intros ->; by eapply Hne).
    apply resume_inv in Hs
      as [(us & hs & _ & _ & _ & ->)|[(us & hs & _ & _ & _ & ->)|
          [(us & _ & _ & ->)|[(us & p & e & st & log & e' & _ & _ & _ & ->)|
          [(us & b & m1 & _ & _ & -> & ->)|(us & b & _ & _ & ->)]]]]];
      simpl; try by rewrite list_lookup_insert_ne.
    destruct b; simpl; [|by rewrite list_lookup_insert_ne].
    match goal with |- tasks (updateUsersDeviceLists us ?m1) !! _ = _ =>
      destruct (updateUsersDeviceLists_tasks us m1) as (k' & -> & _) end.
    simpl. apply lookup_app_l_Some. by rewrite list_lookup_insert_ne.
Qed.

(** Calls that are never resumed: a crashed executor, a finished call. *)
Lemma resume_crashed m t userIds p r :
  tasks m !! t = Some (Updating userIds p Crashed) → resume t r m = None.
Proof. intros H. unfold resume. rewrite H. by destruct r. Qed.


Lemma resume_returned m t r : tasks m !! t = Some Returned → resume t r m = None.
Proof. intros H. unfold resume. by rewrite H. Qed.

Lemma resume_waiting_pending m t userIds hs r :
  tasks m !! t = Some (Waiting userIds hs) → promise_all m hs = Pending →
  resume t r m = None.
Proof. intros H Hp. unfold resume. rewrite H, Hp. by destruct r. Qed.

(** ** No promise of the tracker is ever rejected *)

Lemma updateUsersDeviceLists_never_rejected userIds m :
  never_rejected m → never_rejected (updateUsersDeviceLists userIds m).
Proof.
  unfold never_rejected. intros H.
  destruct (updateUsersDeviceLists_tasks userIds m) as (k & -> & _ & Hk).
  apply Forall_app. split; [done|].
  apply Forall_singleton. by destruct Hk as [-> | ->].
Qed.

Lemma step_never_rejected a m m' :
  step a m = Some m' → never_rejected m → never_rejected m'.
Proof.
  intros Hs H. destruct a as [us|us b|t r]; simpl in Hs.
  - injection Hs as <-. by apply updateUsersDeviceLists_never_rejected.
  - injection Hs as <-. unfold never_rejected. simpl.
    apply Forall_app. split; [done|]. by apply Forall_singleton.
  - apply resume_inv in Hs
      as [(us & hs & _ & _ & _ & ->)|[(us & hs & _ & _ & _ & ->)|
          [(us & _ & _ & ->)|[(us & p & e & st & log & e' & Ht & _ & _ & ->)|
          [(us & b & m1 & _ & _ & -> & ->)|(us & b & _ & _ & ->)]]]]];
      unfold never_rejected in *; simpl; try by apply Forall_insert.
    + apply Forall_insert; [done|]. simpl.
      destruct (is_resolved e'); [done|].
      apply (Forall_lookup_1 _ _ _ _ H Ht).
    + destruct b; [|by apply Forall_insert].
      apply updateUsersDeviceLists_never_rejected.
      unfold never_rejected. simpl. by apply Forall_insert.
Qed.

Lemma run_never_rejected acts m m' :
  run acts m = Some m' → never_rejected m → never_rejected m'.
Proof.
  revert m. induction acts as [|a acts IH]; intros m; simpl.
  { by intros [= <-]. }
  destruct (step a m) as [m1|] eqn:Hs; [|done].
  intros Hr H. apply (IH m1 Hr). by eapply step_never_rejected.
Qed.

Lemma reachable_never_rejected m : reachable m → never_rejected m.
Proof.
  intros (st & acts & H). eapply run_never_rejected; [done|].
  unfold never_rejected. simpl. constructor.
Qed.

Lemma never_rejected_is_rejected m h : never_rejected m → is_rejected m h = false.
Proof.
  intros H. unfold is_rejected, promise_state.
  destruct (tasks m !! h) as [k|] eqn:Hk; [|done].
  pose proof (Forall_lookup_1 _ _ _ _ H Hk) as Hp. simpl in Hp.
  by destruct (promise_of k) as [[]|].
Qed.

Lemma promise_all_never_rejected m hs :
  never_rejected m → promise_all m hs ≠ Rejected.
Proof.
  intros H. unfold promise_all.
  assert (existsb (is_rejected m) hs = false) as ->.
  { induction hs as [|h hs IH]; simpl; [done|].
    by rewrite never_rejected_is_rejected. }
  by destruct (forallb _ _).
Qed.

Lemma promise_all_pending m hs h :
  never_rejected m → h ∈ hs → promise_state m h = Some Pending →
  promise_all m hs = Pending.
Proof.
  intros H Hin Hp. pose proof (promise_all_never_rejected m hs H) as Hnr.
  unfold promise_all in *.
  destruct (existsb (is_rejected m) hs); [done|].
  destruct (forallb (is_fulfilled m) hs) eqn:Hf; [|done].
  rewrite forallb_forall in Hf. specialize (Hf h).
  rewrite <- list_elem_of_In in Hf. specialize (Hf Hin).
  unfold is_fulfilled in Hf. by rewrite Hp in Hf.
Qed.

(** A waiting call is never aborted: [Promise.all] has nothing rejected to
    meet. *)
Lemma step_never_aborts a m m' t :
  never_rejected m → step a m = Some m' →
  tasks m' !! t = Some Aborted → tasks m !! t = Some Aborted.
Proof.
  intros H Hs Ht. destruct a as [us|us b|t' r]; simpl in Hs.
  - injection Hs as <-.
    destruct (updateUsersDeviceLists_tasks us m) as (k & Hk & _ & Hk').
    rewrite Hk in Ht. apply lookup_snoc_Some in Ht as [[_ Ht]|[_ Ht]]; [done|].
    destruct Hk'; congruence.
  - injection Hs as <-. simpl in Ht.
    by apply lookup_snoc_Some in Ht as [[_ Ht]|[_ Ht]].
  - apply resume_inv in Hs
      as [(us & hs & _ & _ & _ & ->)|[(us & hs & _ & _ & Hall & ->)|
          [(us & _ & _ & ->)|[(us & p & e & st & log & e' & _ & _ & _ & ->)|
          [(us & b & m1 & _ & _ & -> & ->)|(us & b & _ & _ & ->)]]]]];
      simpl in Ht.
    1,3,4,6: apply list_lookup_insert_Some in Ht as [(_ & ? & _)|[_ Ht]];
             [done|done].
    + by apply promise_all_never_rejected in Hall.
    + destruct b; simpl in Ht.
      * match type of Ht with tasks (updateUsersDeviceLists us ?m1) !! _ = _ =>
          destruct (updateUsersDeviceLists_tasks us m1) as (k & Hk & _ & Hk') end.
        rewrite Hk in Ht. simpl in Ht.
        apply lookup_snoc_Some in Ht as [[_ Ht]|[_ Ht]].
        -- by apply list_lookup_insert_Some in Ht as [(_ & ? & _)|[_ Ht]].
        -- destruct Hk'; congruence.
      * by apply list_lookup_insert_Some in Ht as [(_ & ? & _)|[_ Ht]].
Qed.

(** ** Calls that are stuck for good *)

Lemma crashed_forever acts m m' t userIds p :
  tasks m !! t = Some (Updating userIds p Crashed) →
  run acts m = Some m' →
  tasks m' !! t = Some (Updating userIds p Crashed).
Proof.
  revert m. induction acts as [|a acts IH]; intros m Ht; simpl.
  { by intros [= <-]. }
  destruct (step a m) as [m1|] eqn:Hs; [|done].
  intros Hr. apply (IH m1); [|done].
  eapply step_other; [done..|]. intros r ->. simpl in Hs.
  by rewrite (resume_crashed _ _ _ _ _ Ht) in Hs.
Qed.


Lemma blocked_forever acts m m' t userIds hs h userIds' :
  never_rejected m →
  tasks m !! t = Some (Waiting userIds hs) → h ∈ hs →
  tasks m !! h = Some (Updating userIds' Pending Crashed) →
  run acts m = Some m' →
  tasks m' !! t = Some (Waiting userIds hs).
Proof.
  intros Hnr Ht Hin Hh. revert m Hnr Ht Hh.
  induction acts as [|a acts IH]; intros m Hnr Ht Hh; simpl.
  { by intros [= <-]. }
  destruct (step a m) as [m1|] eqn:Hs; [|done].
  intros Hr. apply (IH m1); [by eapply step_never_rejected| | |done].
  - eapply step_other; [done..|]. intros r ->. simpl in Hs.
    rewrite (resume_waiting_pending _ _ _ _ _ Ht) in Hs; [done|].
    apply (promise_all_pending _ _ h); [done..|].
    unfold promise_state. by rewrite Hh.
  - eapply step_other; [done..|]. intros r ->. simpl in Hs.
    by rewrite (resume_crashed _ _ _ _ _ Hh) in Hs.
Qed.

(** ** What one pass commits *)

(** The pin is the device stored when the pass runs.  While a device is stored for [(userId, deviceId)], a pass commits
    for that pair no device with another Ed25519 key: a claim with another
    key is rejected whatever the verifier says of its signature, no device is
    left under that id, and whatever is committed under the id carries the
    stored key. *)
Lemma run_pass_pins st resp userId cl deviceId existingDevice :
  resp !! userId = Some cl →
  existing_device (getUserDevices st userId) deviceId = Some existingDevice →
  (∀ device,
     cl !! deviceId = Some device →
     keys device !! key_label Ed25119 deviceId
       ≠ keys existingDevice !! key_label Ed25119 deviceId →
     accepts (getUserDevices st userId) userId deviceId device = false ∧
     ∀ d, d ∈ getUserDevices (run_pass st resp).1 userId →
          device_id d ≠ deviceId) ∧
  (∀ d, d ∈ getUserDevices (run_pass st resp).1 userId →
        device_id d = deviceId →
        keys d !! key_label Ed25119 deviceId
        = keys existingDevice !! key_label Ed25119 deviceId).
Proof.
  intros Hresp Hold.
  assert (Hkey : ∀ device,
    accepts (getUserDevices st userId) userId deviceId device = true →
    keys device !! key_label Ed25119 deviceId
    = keys existingDevice !! key_label Ed25119 deviceId).
  { intros device Ha.
    apply accepts_spec in Ha
      as (_ & _ & ed & c & sg & He & _ & _ & _ & Hpin & _).
    by rewrite He, (Hpin _ Hold). }
  split.
  - intros device Hcl Hne.
    assert (accepts (getUserDevices st userId) userId deviceId device = false)
      as Hrej.
    { destruct (accepts _ _ _ _) eqn:Ha; [|done]. by apply Hkey in Ha. }
    split; [done|].
    apply (run_pass_rejected _ _ _ _ _ Hresp).
    intros device' Hcl'. congruence.
  - intros d Hd Hid.
    apply (run_pass_listed _ _ _ _ _ Hresp) in Hd as (_ & _ & Ha).
    rewrite Hid in Ha. by apply Hkey.
Qed.

(** The commit replaces.  Under every user of the response, a pass
    leaves exactly the claims of this response that passed every check
    against the devices stored before; an id that the response does not list
    for the user, or lists with a rejected claim, is stored no more. *)
Lemma run_pass_replaces st resp userId cl :
  resp !! userId = Some cl →
  (run_pass st resp).1 !! userId
    = Some (validate_claims st userId (map_to_list cl) []).1 ∧
  (∀ d, d ∈ getUserDevices (run_pass st resp).1 userId ↔
        ∃ deviceId, cl !! deviceId = Some d ∧
          accepts (getUserDevices st userId) userId deviceId d = true) ∧
  (∀ deviceId,
     (∀ device, cl !! deviceId = Some device →
        accepts (getUserDevices st userId) userId deviceId device = false) →
     ∀ d, d ∈ getUserDevices (run_pass st resp).1 userId →
          device_id d ≠ deviceId).
Proof.
  intros Hresp. split_and!.
  - by apply run_pass_commit.
  - intros d. by apply run_pass_elem.
  - intros deviceId. by apply run_pass_rejected.
Qed.

(** A claim whose own user id or device id is not the key it is listed
    under is rejected, whatever its keys and signature are; the warning of
    line 50 is logged, no device is committed under that key, and every
    committed device is listed under its own ids. *)
Lemma run_pass_identity st resp userId cl deviceId device :
  resp !! userId = Some cl → cl !! deviceId = Some device →
  user_id device ≠ userId ∨ device_id device ≠ deviceId →
  accepts (getUserDevices st userId) userId deviceId device = false ∧
  EvWarn (lying_warning userId deviceId device) ∈ (run_pass st resp).2 ∧
  (∀ d, d ∈ getUserDevices (run_pass st resp).1 userId →
        device_id d ≠ deviceId) ∧
  (∀ d, d ∈ getUserDevices (run_pass st resp).1 userId →
        user_id d = userId ∧ cl !! device_id d = Some d).
Proof.
  intros Hresp Hcl Hne.
  pose proof (check_claim_lying _ _ _ Hne) as Hc.
  assert (accepts (getUserDevices st userId) userId deviceId device = false)
    as Hrej.
  { unfold accepts. by rewrite Hc. }
  split_and!; [done| | |].
  - eapply update_users_warns; [|done..]. by apply elem_of_map_to_list.
  - apply (run_pass_rejected _ _ _ _ _ Hresp). intros device' Hcl'. congruence.
  - intros d Hd.
    by apply (run_pass_listed _ _ _ _ _ Hresp) in Hd as (? & ? & _).
Qed.

(** A claim without the Ed25519 key or without the Curve25519 key under
    the label of its device id is rejected with a warning, and no device is
    committed under that id. *)
Lemma run_pass_keys st resp userId cl deviceId device :
  resp !! userId = Some cl → cl !! deviceId = Some device →
  keys device !! key_label Ed25119 deviceId = None ∨
  keys device !! key_label Curve25519 deviceId = None →
  accepts (getUserDevices st userId) userId deviceId device = false ∧
  (∃ w, EvWarn w ∈ (run_pass st resp).2 ∧
        (w = lying_warning userId deviceId device ∨
         w = missing_key_warning userId deviceId)) ∧
  (∀ d, d ∈ getUserDevices (run_pass st resp).1 userId →
        device_id d ≠ deviceId).
Proof.
  intros Hresp Hcl Hmiss.
  destruct (check_claim_missing_key userId _ _ Hmiss) as (w & Hc & Hw).
  assert (accepts (getUserDevices st userId) userId deviceId device = false)
    as Hrej.
  { unfold accepts. by rewrite Hc. }
  split_and!; [done| |].
  - exists w. split; [|done].
    eapply update_users_warns; [|done..]. by apply elem_of_map_to_list.
  - apply (run_pass_rejected _ _ _ _ _ Hresp). intros device' Hcl'. congruence.
Qed.

(** Trust on first use.  With no device stored for
    [(userId, deviceId)], a claim listed under its own ids, with both keys
    and a signature of its own that the verifier accepts, is committed,
    whatever its Ed25519 key is. *)
Lemma run_pass_first_use st resp userId cl deviceId device
    ed25519 curve25519 signature :
  resp !! userId = Some cl → cl !! deviceId = Some device →
  existing_device (getUserDevices st userId) deviceId = None →
  user_id device = userId → device_id device = deviceId →
  keys device !! key_label Ed25119 deviceId = Some ed25519 →
  ed25519 ≠ EmptyString →
  keys device !! key_label Curve25519 deviceId = Some curve25519 →
  curve25519 ≠ EmptyString →
  self_signature userId deviceId device = Some signature →
  signature ≠ EmptyString →
  verifySignature device ed25519 signature = true →
  accepts (getUserDevices st userId) userId deviceId device = true ∧
  device ∈ getUserDevices (run_pass st resp).1 userId.
Proof.
  intros Hresp Hcl Hnone Hu Hd He Hne Hc Hcne Hs Hsne Hv.
  assert (accepts (getUserDevices st userId) userId deviceId device = true)
    as Ha.
  { apply accepts_spec. split_and!; [done..|].
    exists ed25519, curve25519, signature. split_and!; try done.
    intros old Hold. congruence. }
  split; [done|].
  apply (run_pass_elem _ _ _ _ _ Hresp). by exists deviceId.
Qed.

(** The frame.  A pass writes the store only under users that are
    keys of the response; whatever is stored for any other user, requested
    or not, stays as it is. *)
Lemma run_pass_frame st resp userId :
  resp !! userId = None →
  (run_pass st resp).1 !! userId = st !! userId ∧
  getUserDevices (run_pass st resp).1 userId = getUserDevices st userId ∧
  ∀ devices, EvSetUserDevices userId devices ∉ (run_pass st resp).2.
Proof.
  intros Hnone.
  assert (userId ∉ (map_to_list resp).*1) as Hnot.
  { rewrite elem_of_fst_map_to_list, Hnone. by intros [? ?]. }
  assert ((run_pass st resp).1 !! userId = st !! userId) as Hst.
  { by apply update_users_frame. }
  split_and!; [done| |].
  - unfold getUserDevices. by rewrite Hst.
  - intros devices Hin. by apply update_users_writes in Hin.
Qed.

(** ** Whatever the schedule: what is committed has passed the first checks *)

Lemma check_claim_device_id userId deviceId device ed25519 :
  check_claim userId deviceId device = inr ed25519 →
  well_identified userId device.
Proof.
  intros H. exists ed25519.
  pose proof H as H'. apply check_claim_inr in H' as (_ & -> & _). done.
Qed.

Lemma inner_loop_warns users userId validated todo ev :
  ev ∈ (inner_loop users userId validated todo).1 → ∃ w, ev = EvWarn w.
Proof.
  induction todo as [|[deviceId device] todo IH]; simpl.
  { intros H. by apply elem_of_nil in H. }
  destruct (check_claim userId deviceId device) as [w|ed].
  - destruct (inner_loop users userId validated todo). simpl in *.
    intros [->|?]%elem_of_cons; eauto.
  - intros H. by apply elem_of_nil in H.
Qed.

Lemma outer_loop_warns users ev :
  ev ∈ (outer_loop users).1 → ∃ w, ev = EvWarn w.
Proof.
  destruct users as [|[userId cl] users]; simpl.
  - intros H. by apply elem_of_nil in H.
  - apply inner_loop_warns.
Qed.

Lemma inner_loop_filtered users userId validated todo :
  Forall (well_identified userId) validated →
  exec_filtered (inner_loop users userId validated todo).2.
Proof.
  intros Hv. induction todo as [|[deviceId device] todo IH]; simpl; [done|].
  destruct (check_claim userId deviceId device) as [w|ed] eqn:Hc.
  - by destruct (inner_loop users userId validated todo).
  - done.
Qed.

Lemma outer_loop_filtered users : exec_filtered (outer_loop users).2.
Proof.
  destruct users as [|[userId cl] users]; simpl; [done|].
  by apply inner_loop_filtered.
Qed.

(** A resumed executor stays filtered, and what it commits is. *)
Lemma resume_exec_filtered st e r st' log e' :
  exec_filtered e → resume_exec st e r = Some (st', log, e') →
  exec_filtered e' ∧ commits_filtered log.
Proof.
  intros He.
  destruct e as [|k ed|k ed sg|users u v| |], r as [| |resp]; simpl; try done;
    try (intros [= <- <- <-]; split; [done|];
         intros ? ? H; by apply elem_of_nil in H).
  - pose proof (outer_loop_filtered (map_to_list resp)) as Hf.
    pose proof (outer_loop_warns (map_to_list resp)) as Hw.
    destruct (outer_loop (map_to_list resp)) as [lg ex]. intros [= <- <- <-].
    split; [done|]. intros u ds Hin. by apply Hw in Hin as [w ?].
  - destruct He as [Hv Hc].
    destruct (check_pinned _ _ _ _ _) as [w|sg].
    + pose proof (inner_loop_filtered (f_users k) _ _ (f_todo k) Hv) as Hf.
      pose proof (inner_loop_warns (f_users k) (f_userId k) (f_validated k)
                    (f_todo k)) as Hw.
      destruct (inner_loop _ _ _ _) as [lg ex]. intros [= <- <- <-].
      split; [done|]. intros u ds [?|Hin]%elem_of_cons; [done|].
      by apply Hw in Hin as [w' ?].
    + intros [= <- <- <-]. split; [done|].
      intros ? ? H. by apply elem_of_nil in H.
  - destruct He as [Hv Hc]. unfold check_verified.
    destruct (verifySignature _ _ _).
    + assert (Forall (well_identified (f_userId k)) (f_validated k ++ [f_device k]))
        as Hv'.
      { apply Forall_app. split; [done|]. apply Forall_singleton.
        by eapply check_claim_device_id. }
      pose proof (inner_loop_filtered (f_users k) _ _ (f_todo k) Hv') as Hf.
      pose proof (inner_loop_warns (f_users k) (f_userId k)
                    (f_validated k ++ [f_device k]) (f_todo k)) as Hw.
      destruct (inner_loop _ _ _ _) as [lg ex]. intros [= <- <- <-].
      split; [done|]. intros u ds Hin. simpl in Hin.
      by apply Hw in Hin as [w' ?].
    + pose proof (inner_loop_filtered (f_users k) _ _ (f_todo k) Hv) as Hf.
      pose proof (inner_loop_warns (f_users k) (f_userId k) (f_validated k)
                    (f_todo k)) as Hw.
      destruct (inner_loop _ _ _ _) as [lg ex]. intros [= <- <- <-].
      split; [done|]. intros u ds [?|Hin]%elem_of_cons; [done|].
      by apply Hw in Hin as [w' ?].
  - pose proof (outer_loop_filtered users) as Hf.
    pose proof (outer_loop_warns users) as Hw.
    destruct (outer_loop users) as [lg ex]. intros [= <- <- <-].
    split; [done|]. intros u' ds [[= <- <-]|Hin]%elem_of_cons; [done|].
    by apply Hw in Hin as [w' ?].
Qed.

Lemma commits_filtered_app evs1 evs2 :
  commits_filtered evs1 → commits_filtered evs2 → commits_filtered (evs1 ++ evs2).
Proof. intros H1 H2 u ds [?|?]%elem_of_app; eauto. Qed.

Lemma updateUsersDeviceLists_filtered userIds m :
  Forall task_filtered (tasks m) → commits_filtered (events m) →
  Forall task_filtered (tasks (updateUsersDeviceLists userIds m)) ∧
  commits_filtered (events (updateUsersDeviceLists userIds m)).
Proof.
  intros Ht He. destruct (existing_promises m userIds) as [|h hs] eqn:Hx.
  - rewrite updateUsersDeviceLists_starting by done. simpl. split.
    + apply Forall_app. split; [done|]. by apply Forall_singleton.
    + apply commits_filtered_app; [done|].
      intros u ds [?|Hin]%elem_of_cons; [done|].
      by apply list_elem_of_fmap in Hin as (? & ? & _).
  - rewrite updateUsersDeviceLists_waiting by congruence. simpl. split; [|done].
    apply Forall_app. split; [done|]. by apply Forall_singleton.
Qed.

Lemma step_filtered a m m' :
  step a m = Some m' →
  Forall task_filtered (tasks m) → commits_filtered (events m) →
  Forall task_filtered (tasks m') ∧ commits_filtered (events m').
Proof.
  intros Hs Ht He. destruct a as [us|us b|t r]; simpl in Hs.
  - injection Hs as <-. by apply updateUsersDeviceLists_filtered.
  - injection Hs as <-. simpl. split; [|done].
    apply Forall_app. split; [done|]. by apply Forall_singleton.
  - apply resume_inv in Hs
      as [(us & hs & _ & _ & _ & ->)|[(us & hs & _ & _ & _ & ->)|
          [(us & _ & _ & ->)|[(us & p & e & st & log & e' & Hk & _ & Hx & ->)|
          [(us & b & m1 & _ & _ & -> & ->)|(us & b & _ & _ & ->)]]]]];
      simpl.
    + split; [by apply Forall_insert|].
      apply commits_filtered_app; [done|].
      intros u ds [?|Hin]%elem_of_cons; [done|].
      by apply list_elem_of_fmap in Hin as (? & ? & _).
    + split; [by apply Forall_insert|done].
    + split; [by apply Forall_insert|done].
    + pose proof (Forall_lookup_1 _ _ _ _ Ht Hk) as Hf. simpl in Hf.
      destruct (resume_exec_filtered _ _ _ _ _ _ Hf Hx) as [Hf' Hlog].
      split; [by apply Forall_insert|].
      apply commits_filtered_app; [done|].
      apply commits_filtered_app; [done|].
      intros u ds Hin. destruct (is_resolved e').
      * by apply list_elem_of_singleton in Hin.
      * by apply elem_of_nil in Hin.
    + destruct b.
      * apply updateUsersDeviceLists_filtered; simpl.
        -- by apply Forall_insert.
        -- apply commits_filtered_app; [done|].
           intros u ds Hin. by apply list_elem_of_singleton in Hin.
      * simpl. split; [by apply Forall_insert|].
        apply commits_filtered_app; [done|].
        intros u ds Hin. by apply list_elem_of_singleton in Hin.
    + split; [by apply Forall_insert|done].
Qed.

(** Whatever calls are made and in whatever order they are resumed, with
    collaborators that resolve or throw: every device the tracker ever
    commits for a user carries that user's id and both keys under the label
    of its own device id. *)
Lemma every_commit_is_filtered st acts m userId devices d :
  run acts (new_tracker st) = Some m →
  EvSetUserDevices userId devices ∈ events m → d ∈ devices →
  user_id d = userId ∧
  ∃ ed25519 curve25519,
    keys d !! key_label Ed25119 (device_id d) = Some ed25519 ∧
    ed25519 ≠ EmptyString ∧
    keys d !! key_label Curve25519 (device_id d) = Some curve25519 ∧
    curve25519 ≠ EmptyString.
Proof.
  intros Hrun Hin Hd.
  assert (Forall task_filtered (tasks m) ∧ commits_filtered (events m))
    as [_ Hc].
  { revert Hrun.
    assert (Forall task_filtered (tasks (new_tracker st)) ∧
            commits_filtered (events (new_tracker st))) as H0.
    { split; [constructor|]. intros ? ? H. by apply elem_of_nil in H. }
    revert H0. generalize (new_tracker st). clear Hin.
    induction acts as [|a acts IH]; intros m0 [Ht He]; simpl.
    { by intros [= <-]. }
    destruct (step a m0) as [m1|] eqn:Hs; [|done].
    apply IH. by eapply step_filtered. }
  pose proof (Hc _ _ Hin) as Hall.
  rewrite Forall_forall in Hall. destruct (Hall d Hd) as [ed Hed].
  apply check_claim_inr in Hed as (Hu & _ & He & Hne & c & Hcv & Hcne).
  split; [done|]. by exists ed, c.
Qed.

(** Whatever the schedule, the answer of the store to line 87 replaces the
    list stored for the user by the validated one. *)
Lemma commit_step_replaces m t userIds p users userId validated :
  tasks m !! t
    = Some (Updating userIds p (AwaitSetUserDevices users userId validated)) →
  ∃ m', step (Resume t Ok) m = Some m' ∧
        cryptoStore m' = <[userId := validated]> (cryptoStore m) ∧
        getUserDevices (cryptoStore m') userId = validated.
Proof.
  intros Ht. simpl. rewrite (resume_updating _ _ _ _ _ _ Ht eq_refl). simpl.
  destruct (outer_loop users) as [log e']. eexists. split; [done|]. simpl.
  split; [done|]. unfold getUserDevices, setUserDevices.
  by rewrite lookup_insert_eq.
Qed.

(** * The claims *)

(** ** Calls and promises *)

Lemma inner_loop_not_await_fetch users userId validated todo :
  (inner_loop users userId validated todo).2 ≠ AwaitFetch.
Proof.
  induction todo as [|[deviceId device] todo IH]; simpl; [done|].
  destruct (check_claim userId deviceId device); [|done].
  by destruct (inner_loop users userId validated todo).
Qed.

Lemma outer_loop_not_await_fetch users : (outer_loop users).2 ≠ AwaitFetch.
Proof.
  destruct users as [|[userId cl] users]; simpl; [done|].
  apply inner_loop_not_await_fetch.
Qed.

(** The executor awaits the directory once, at its start. *)
Lemma resume_exec_not_await_fetch st e r st' log e' :
  resume_exec st e r = Some (st', log, e') → e' ≠ AwaitFetch.
Proof.
  destruct e as [|k ed|k ed sg|users u v| |], r as [| |resp]; simpl; try done;
    try by intros [= <- <- <-].
  - pose proof (outer_loop_not_await_fetch (map_to_list resp)) as H.
    destruct (outer_loop (map_to_list resp)). by intros [= <- <- <-].
  - destruct (check_pinned _ _ _ _ _); [|by intros [= <- <- <-]].
    pose proof (inner_loop_not_await_fetch (f_users k) (f_userId k)
                  (f_validated k) (f_todo k)) as H.
    destruct (inner_loop _ _ _ _). by intros [= <- <- <-].
  - destruct (check_verified _ _ _ _ _ _) as [v' log1].
    pose proof (inner_loop_not_await_fetch (f_users k) (f_userId k)
                  v' (f_todo k)) as H.
    destruct (inner_loop _ _ _ _). by intros [= <- <- <-].
  - pose proof (outer_loop_not_await_fetch users) as H.
    destruct (outer_loop users). by intros [= <- <- <-].
Qed.

Lemma updateUsersDeviceLists_started userIds0 m t userIds :
  tasks (updateUsersDeviceLists userIds0 m) !! t
    = Some (Updating userIds Pending AwaitFetch) →
  tasks m !! t ≠ Some (Updating userIds Pending AwaitFetch) →
  t = length (tasks m) ∧ userIds = userIds0 ∧ existing_promises m userIds0 = [].
Proof.
  destruct (existing_promises m userIds0) as [|h hs] eqn:He.
  - rewrite updateUsersDeviceLists_starting by done. simpl. intros Ht Hn.
    apply lookup_snoc_Some in Ht as [[_ Ht]|[Hlen Ht]]; [done|].
    by injection Ht as ->.
  - rewrite updateUsersDeviceLists_waiting by congruence. simpl. intros Ht Hn.
    by apply lookup_snoc_Some in Ht as [[_ Ht]|[_ Ht]].
Qed.

(** Once the registry holds a pass's promise under its users, a later call
    that names one of them suspends at line 40 on that promise. *)
Lemma registered_pass_is_awaited m t userIds registry :
  deviceListUpdates m = register registry userIds t →
  (∀ u, u ∈ userIds → deviceListUpdates m !! u = Some t) ∧
  (∀ userIds' u, u ∈ userIds → u ∈ userIds' →
     t ∈ existing_promises m userIds' ∧
     updateUsersDeviceLists userIds' m
     = {| deviceListUpdates := deviceListUpdates m;
          cryptoStore := cryptoStore m;
          outdated := outdated m;
          tasks := tasks m ++ [Waiting userIds' (existing_promises m userIds')];
          events := events m |}).
Proof.
  intros Hreg.
  assert (∀ u, u ∈ userIds → deviceListUpdates m !! u = Some t) as Hlook.
  { intros u Hu. rewrite Hreg, register_lookup. by rewrite bool_decide_eq_true_2. }
  split; [done|]. intros userIds' u Hu Hu'.
  assert (t ∈ existing_promises m userIds') as Hin.
  { unfold existing_promises. apply list_elem_of_omap. exists u. eauto. }
  split; [done|]. apply updateUsersDeviceLists_waiting.
  intros Hnil. rewrite Hnil in Hin. by apply elem_of_nil in Hin.
Qed.

(** C5, as the code has it: the promise's executor runs inside
    [new Promise], so line 44 calls the directory first and line 91 fills the
    registry right after, in the same turn.  Whenever a step starts the pass
    of call [t], what it adds to the trace ends with the fetch followed at
    once by the registration under every requested user; at the end of the
    step the registry holds the pending promise under each of them, and a
    call arriving then for any of these users suspends on this promise
    without fetching. *)
Theorem fetch_then_registration a m m' t userIds :
  step a m = Some m' →
  tasks m' !! t = Some (Updating userIds Pending AwaitFetch) →
  tasks m !! t ≠ Some (Updating userIds Pending AwaitFetch) →
  (∃ pre, events m' = events m ++ pre
            ++ EvFetch t userIds :: map (λ u, EvRegister u t) userIds ∧
          (pre = [] ∨ ∃ flagged, pre = [EvFlagUsersOutdated flagged])) ∧
  promise_state m' t = Some Pending ∧
  (∀ u, u ∈ userIds → deviceListUpdates m' !! u = Some t) ∧
  (∀ userIds' u, u ∈ userIds → u ∈ userIds' →
     t ∈ existing_promises m' userIds' ∧
     updateUsersDeviceLists userIds' m'
     = {| deviceListUpdates := deviceListUpdates m';
          cryptoStore := cryptoStore m';
          outdated := outdated m';
          tasks := tasks m' ++ [Waiting userIds' (existing_promises m' userIds')];
          events := events m' |}).
Proof.
  intros Hs Ht Hnot.
  assert (promise_state m' t = Some Pending) as Hp.
  { unfold promise_state. by rewrite Ht. }
  cut ((∃ pre, events m' = events m ++ pre
            ++ EvFetch t userIds :: map (λ u, EvRegister u t) userIds ∧
          (pre = [] ∨ ∃ flagged, pre = [EvFlagUsersOutdated flagged])) ∧
       ∃ registry, deviceListUpdates m' = register registry userIds t).
  { intros [Hev [registry Hreg]].
    destruct (registered_pass_is_awaited _ _ _ _ Hreg) as [H1 H2]. done. }
  destruct a as [us|us b|t' r]; simpl in Hs.
  - injection Hs as <-.
    destruct (updateUsersDeviceLists_started _ _ _ _ Ht Hnot) as (-> & -> & He).
    rewrite updateUsersDeviceLists_starting by done. simpl.
    split; [exists []; eauto|eauto].
  - injection Hs as <-. simpl in Ht.
    by apply lookup_snoc_Some in Ht as [[_ Ht]|[_ Ht]].
  - apply resume_inv in Hs
      as [(us & hs & Hw & _ & _ & ->)|[(us & hs & _ & _ & _ & ->)|
          [(us & _ & _ & ->)|[(us & p & e & st & log & e' & _ & _ & Hx & ->)|
          [(us & b & m1 & Hf & _ & -> & ->)|(us & b & _ & _ & ->)]]]]];
      simpl in Ht.
    + apply list_lookup_insert_Some in Ht as [(<- & [= <-] & _)|[_ Ht]]; [|done].
      simpl. split; [exists []; eauto|eauto].
    + by apply list_lookup_insert_Some in Ht as [(_ & ? & _)|[_ Ht]].
    + by apply list_lookup_insert_Some in Ht as [(_ & ? & _)|[_ Ht]].
    + apply list_lookup_insert_Some in Ht as [(_ & Heq & _)|[_ Ht]]; [|done].
      apply resume_exec_not_await_fetch in Hx. congruence.
    + destruct b; simpl in Ht.
      * match type of Ht with tasks (updateUsersDeviceLists us ?m1) !! _ = _ =>
          destruct (updateUsersDeviceLists_started us m1 _ _ Ht)
            as (-> & -> & He) end.
        { simpl. intros Hl.
          apply list_lookup_insert_Some in Hl as [(_ & ? & _)|[_ Hl]]; done. }
        rewrite updateUsersDeviceLists_starting by done. simpl.
        split; [|eauto].
        exists [EvFlagUsersOutdated us]. rewrite <- app_assoc. eauto.
      * by apply list_lookup_insert_Some in Ht as [(_ & ? & _)|[_ Ht]].
    + by apply list_lookup_insert_Some in Ht as [(_ & ? & _)|[_ Ht]].
Qed.

(** ** Who calls the directory *)

Lemma inner_loop_no_fetch users userId validated todo t us :
  EvFetch t us ∉ (inner_loop users userId validated todo).1.
Proof.
  induction todo as [|[deviceId device] todo IH]; simpl.
  { apply not_elem_of_nil. }
  destruct (check_claim userId deviceId device); [|apply not_elem_of_nil].
  destruct (inner_loop users userId validated todo). simpl in *.
  by rewrite not_elem_of_cons.
Qed.

Lemma outer_loop_no_fetch users t us : EvFetch t us ∉ (outer_loop users).1.
Proof.
  destruct users as [|[userId cl] users]; simpl.
  - apply not_elem_of_nil.
  - apply inner_loop_no_fetch.
Qed.

Lemma resume_exec_no_fetch st e r st' log e' t us :
  resume_exec st e r = Some (st', log, e') → EvFetch t us ∉ log.
Proof.
  destruct e as [|k ed|k ed sg|users u v| |], r as [| |resp]; simpl; try done;
    try (intros [= <- <- <-]; apply not_elem_of_nil).
  - pose proof (outer_loop_no_fetch (map_to_list resp) t us) as H.
    destruct (outer_loop (map_to_list resp)). by intros [= <- <- <-].
  - destruct (check_pinned _ _ _ _ _);
      [|intros [= <- <- <-]; apply not_elem_of_nil].
    pose proof (inner_loop_no_fetch (f_users k) (f_userId k)
                  (f_validated k) (f_todo k) t us) as H.
    destruct (inner_loop _ _ _ _). intros [= <- <- <-].
    by rewrite not_elem_of_cons.
  - unfold check_verified.
    destruct (verifySignature _ _ _).
    + pose proof (inner_loop_no_fetch (f_users k) (f_userId k)
                    (f_validated k ++ [f_device k]) (f_todo k) t us) as H.
      destruct (inner_loop _ _ _ _). by intros [= <- <- <-].
    + pose proof (inner_loop_no_fetch (f_users k) (f_userId k)
                    (f_validated k) (f_todo k) t us) as H.
      destruct (inner_loop _ _ _ _). intros [= <- <- <-]. simpl.
      by rewrite not_elem_of_cons.
  - pose proof (outer_loop_no_fetch users t us) as H.
    destruct (outer_loop users). intros [= <- <- <-].
    by rewrite not_elem_of_cons.
Qed.

Lemma updateUsersDeviceLists_fetch userIds0 m t us :
  EvFetch t us ∈ events (updateUsersDeviceLists userIds0 m) →
  EvFetch t us ∈ events m ∨
  tasks (updateUsersDeviceLists userIds0 m) !! t
    = Some (Updating us Pending AwaitFetch).
Proof.
  destruct (existing_promises m userIds0) as [|h hs] eqn:He.
  - rewrite updateUsersDeviceLists_starting by done. simpl.
    rewrite elem_of_app, elem_of_cons.
    intros [?|[[= -> ->]|Hin]]; [by left| |].
    + right. by apply list_lookup_middle.
    + by apply list_elem_of_fmap in Hin as (? & ? & _).
  - rewrite updateUsersDeviceLists_waiting by congruence. simpl. by left.
Qed.

(** A fetch in the trace was there before the step, or the step has just
    started the pass of that call. *)
Lemma step_fetch a m m' t us :
  step a m = Some m' → EvFetch t us ∈ events m' →
  EvFetch t us ∈ events m ∨
  tasks m' !! t = Some (Updating us Pending AwaitFetch).
Proof.
  intros Hs Hin. destruct a as [us0|us0 b|t' r]; simpl in Hs.
  - injection Hs as <-. by apply updateUsersDeviceLists_fetch.
  - injection Hs as <-. by left.
  - apply resume_inv in Hs
      as [(us0 & hs & Hw & _ & _ & ->)|[(us0 & hs & _ & _ & _ & ->)|
          [(us0 & _ & _ & ->)|[(us0 & p & e & st & log & e' & _ & _ & Hx & ->)|
          [(us0 & b & m1 & Hf & _ & -> & ->)|(us0 & b & _ & _ & ->)]]]]];
      simpl in Hin; try by left.
    + apply elem_of_app in Hin as [?|Hin]; [by left|].
      apply elem_of_cons in Hin as [[= -> ->]|Hin].
      * right. simpl. apply list_lookup_insert_eq. by eapply lookup_lt_Some.
      * by apply list_elem_of_fmap in Hin as (? & ? & _).
    + apply elem_of_app in Hin as [?|Hin]; [by left|].
      apply elem_of_app in Hin as [Hin|Hin].
      * by apply (resume_exec_no_fetch _ _ _ _ _ _ t us) in Hx.
      * destruct (is_resolved e'); [|by apply elem_of_nil in Hin].
        by apply list_elem_of_singleton in Hin.
    + destruct b.
      * apply updateUsersDeviceLists_fetch in Hin as [Hin|?]; [|by right].
        simpl in Hin. apply elem_of_app in Hin as [?|Hin]; [by left|].
        by apply list_elem_of_singleton in Hin.
      * simpl in Hin. apply elem_of_app in Hin as [?|Hin]; [by left|].
        by apply list_elem_of_singleton in Hin.
Qed.

Lemma blocked_never_fetches acts m m' t userIds hs h userIds' us :
  never_rejected m →
  tasks m !! t = Some (Waiting userIds hs) → h ∈ hs →
  tasks m !! h = Some (Updating userIds' Pending Crashed) →
  run acts m = Some m' →
  EvFetch t us ∈ events m' → EvFetch t us ∈ events m.
Proof.
  intros Hnr Ht Hin Hh. revert m Hnr Ht Hh.
  induction acts as [|a acts IH]; intros m Hnr Ht Hh; simpl.
  { by intros [= <-]. }
  destruct (step a m) as [m1|] eqn:Hs; [|done].
  intros Hr Hev.
  assert (run [a] m = Some m1) as Hone by (simpl; by rewrite Hs).
  pose proof (blocked_forever _ _ _ _ _ _ _ _ Hnr Ht Hin Hh Hone) as Ht1.
  pose proof (crashed_forever _ _ _ _ _ _ Hh Hone) as Hh1.
  pose proof (step_never_rejected _ _ _ Hs Hnr) as Hnr1.
  pose proof (IH m1 Hnr1 Ht1 Hh1 Hr Hev) as Hev1.
  destruct (step_fetch _ _ _ _ _ Hs Hev1) as [?|Hst]; [done|]. congruence.
Qed.

(** ** The wait of line 40 *)

Lemma promise_all_fulfilled m hs :
  (∀ h, h ∈ hs → promise_state m h = Some Fulfilled) →
  promise_all m hs = Fulfilled.
Proof.
  intros Hall. unfold promise_all.
  assert (existsb (is_rejected m) hs = false ∧
          forallb (is_fulfilled m) hs = true) as [-> ->]; [|done].
  induction hs as [|h hs IH]; simpl; [done|].
  unfold is_rejected at 1, is_fulfilled at 1. rewrite (Hall h) by left. simpl.
  apply IH. intros h' Hh'. apply Hall. by right.
Qed.

(** Once every promise it waits on is fulfilled, a call is resumed into
    its own pass: it calls the directory and registers. *)
Lemma fulfilled_wait_proceeds m t userIds hs :
  tasks m !! t = Some (Waiting userIds hs) →
  (∀ h, h ∈ hs → promise_state m h = Some Fulfilled) →
  step (Resume t Ok) m = Some (start_pass m t userIds).
Proof.
  intros Ht Hall. simpl. unfold resume.
  by rewrite Ht, (promise_all_fulfilled _ _ Hall).
Qed.

(** No call of a tracker is ever aborted at line 40. *)
Lemma reachable_never_aborted m t : reachable m → tasks m !! t ≠ Some Aborted.
Proof.
  intros (st & acts & Hrun).
  assert (never_rejected (new_tracker st)) as Hnr by constructor.
  assert (tasks (new_tracker st) !! t ≠ Some Aborted) as Hna by done.
  revert Hrun Hnr Hna. generalize (new_tracker st).
  induction acts as [|a acts IH]; intros m0; simpl.
  { intros [= <-] _ Hna. exact Hna. }
  destruct (step a m0) as [m1|] eqn:Hs; [|done].
  intros Hrun Hnr Hna. apply (IH m1 Hrun).
  - by eapply step_never_rejected.
  - intros Hab. apply Hna. by eapply step_never_aborts.
Qed.

(** ** Failure of the directory *)

(** C2, what the code does when the directory throws: the exception
    leaves the async executor of line 43, [resolve] is never called and
    nothing rejects the promise.  The store is as before, but the promise
    stays pending whatever happens next: the failure reaches neither the
    caller, suspended at line 92 for good, nor the calls waiting on the
    promise at line 40. *)
Theorem fetch_failure_never_settles m t userIds acts m' :
  reachable m →
  tasks m !! t = Some (Updating userIds Pending AwaitFetch) →
  run (Resume t Threw :: acts) m = Some m' →
  (∃ m1, step (Resume t Threw) m = Some m1 ∧
         cryptoStore m1 = cryptoStore m ∧ events m1 = events m) ∧
  promise_state m' t = Some Pending ∧
  tasks m' !! t = Some (Updating userIds Pending Crashed) ∧
  (∀ r, step (Resume t r) m' = None) ∧
  (∀ w userIds' hs,
     tasks m !! w = Some (Waiting userIds' hs) → t ∈ hs →
     tasks m' !! w = Some (Waiting userIds' hs)).
Proof.
  intros Hreach Ht Hrun. apply reachable_never_rejected in Hreach.
  simpl in Hrun.
  rewrite (resume_updating _ _ _ _ _ _ Ht eq_refl) in Hrun. simpl in Hrun.
  split.
  { eexists. split.
    - simpl. by rewrite (resume_updating _ _ _ _ _ _ Ht eq_refl).
    - simpl. by rewrite !app_nil_r. }
  match type of Hrun with run acts ?x = _ => set (m1 := x) in * end.
  assert (tasks m1 !! t = Some (Updating userIds Pending Crashed)) as Ht1.
  { simpl. apply list_lookup_insert_eq. by eapply lookup_lt_Some. }
  assert (never_rejected m1) as Hnr1.
  { unfold never_rejected. simpl. by apply Forall_insert. }
  pose proof (crashed_forever _ _ _ _ _ _ Ht1 Hrun) as Ht'.
  split_and!; [|done| |].
  - unfold promise_state. by rewrite Ht'.
  - intros r. simpl. by eapply resume_crashed.
  - intros w us' hs Hw Hin.
    eapply (blocked_forever _ m1); [done| |done|done|done].
    simpl. rewrite list_lookup_insert_ne; [done|]. intros ->. congruence.
Qed.

(** C4, what the code does after a failed pass: a call suspended at
    line 40 on the promise of a pass whose executor died stays there
    whatever happens next.  It is not aborted, but it is never resumed
    either: it registers no promise of its own and never calls the
    directory. *)
Theorem failed_pass_blocks_later_calls m t userIds hs h userIds' acts m' :
  reachable m →
  tasks m !! t = Some (Waiting userIds hs) → h ∈ hs →
  tasks m !! h = Some (Updating userIds' Pending Crashed) →
  run acts m = Some m' →
  tasks m' !! t = Some (Waiting userIds hs) ∧
  (∀ r, step (Resume t r) m' = None) ∧
  (∀ us, EvFetch t us ∈ events m' → EvFetch t us ∈ events m).
Proof.
  intros Hreach Ht Hin Hh Hrun.
  apply reachable_never_rejected in Hreach.
  pose proof (blocked_forever _ _ _ _ _ _ _ _ Hreach Ht Hin Hh Hrun) as Ht'.
  pose proof (crashed_forever _ _ _ _ _ _ Hh Hrun) as Hh'.
  pose proof (run_never_rejected _ _ _ Hrun Hreach) as Hnr'.
  split_and!; [done| |].
  - intros r. simpl. eapply resume_waiting_pending; [done|].
    apply (promise_all_pending _ _ h); [done..|].
    unfold promise_state. by rewrite Hh'.
  - intros us. by eapply blocked_never_fetches.
Qed.

(** ** Flagging *)


(** ** A pass from the directory's answer to its end *)

Lemma run_app acts1 acts2 m :
  run (acts1 ++ acts2) m
  = match run acts1 m with Some m1 => run acts2 m1 | None => None end.
Proof.
  revert m. induction acts1 as [|a acts1 IH]; intros m; simpl; [done|].
  by destruct (step a m).
Qed.

(** Past its end a call can only return, which leaves the rest as it is. *)
Lemma run_after_end j m t userIds m' :
  tasks m !! t = Some (Updating userIds Fulfilled Resolved) →
  run (replicate j (Resume t Ok)) m = Some m' →
  cryptoStore m' = cryptoStore m ∧ events m' = events m ∧
  deviceListUpdates m' = deviceListUpdates m ∧ outdated m' = outdated m.
Proof.
  intros Ht. destruct j as [|[|j]]; simpl.
  - by intros [= <-].
  - unfold resume. rewrite Ht. by intros [= <-].
  - unfold resume at 1. rewrite Ht.
    rewrite resume_returned; [done|].
    simpl. apply list_lookup_insert_eq. by eapply lookup_lt_Some.
Qed.

(** Resumed alone, a call whose executor needs [n] more answers has its
    promise fulfilled only once the executor has got them all. *)
Lemma run_to_end n n' m t userIds e st' log m' :
  tasks m !! t = Some (Updating userIds Pending e) →
  is_resolved e = false →
  resume_oks n (cryptoStore m) e = Some (st', log, Resolved) →
  run (replicate n' (Resume t Ok)) m = Some m' →
  promise_state m' t = Some Fulfilled →
  cryptoStore m' = st' ∧ events m' = events m ++ log ++ [EvResolve t] ∧
  deviceListUpdates m' = deviceListUpdates m ∧ outdated m' = outdated m.
Proof.
  revert n' m e log.
  induction n as [|n IH]; intros n' m e log Ht He; simpl.
  { intros [= <- <- ->]. done. }
  destruct (resume_exec (cryptoStore m) e Ok) as [[[st1 log1] e1]|] eqn:H1;
    [|done].
  destruct (resume_oks n st1 e1) as [[[st2 log2] e2]|] eqn:H2; [|done].
  intros [= <- <- ->].
  destruct n' as [|n']; simpl.
  { intros [= <-]. unfold promise_state. by rewrite Ht. }
  rewrite (resume_updating _ _ _ _ _ _ Ht He), H1.
  assert (Hlt : t < length (tasks m)) by by eapply lookup_lt_Some.
  destruct (is_resolved e1) eqn:He1.
  - destruct e1; try done. destruct n; [|done]. simpl in H2.
    injection H2 as <- <-. intros Hrun _.
    apply run_after_end with (userIds := userIds) in Hrun
      as (-> & -> & -> & ->); [by rewrite app_nil_r|].
    simpl. by apply list_lookup_insert_eq.
  - intros Hrun Hp.
    eapply IH in Hrun as (-> & -> & -> & ->); [| |done|done|done].
    + simpl. by rewrite app_nil_r, <- !app_assoc.
    + simpl. by apply list_lookup_insert_eq.
Qed.

(** A pass resumed alone gets to its end, and every way to its end leaves
    what [run_pass] computes. *)
Lemma completes_alone_spec m t userIds resp :
  tasks m !! t = Some (Updating userIds Pending AwaitFetch) →
  (∃ m', completes_alone m t resp m') ∧
  ∀ m', completes_alone m t resp m' →
    cryptoStore m' = (run_pass (cryptoStore m) resp).1 ∧
    events m' = events m ++ (run_pass (cryptoStore m) resp).2 ++ [EvResolve t] ∧
    deviceListUpdates m' = deviceListUpdates m ∧
    outdated m' = outdated m.
Proof.
  intros Ht.
  assert (Hlt : t < length (tasks m)) by by eapply lookup_lt_Some.
  split.
  { destruct (pass_alone m t userIds Pending resp Ht) as [n Hn].
    eexists. exists n. split; [done|].
    unfold promise_state. simpl. by rewrite list_lookup_insert_eq. }
  intros m' (n' & Hn' & Hp'). simpl in Hn'.
  rewrite (resume_updating _ _ _ _ _ _ Ht eq_refl) in Hn'. simpl in Hn'.
  unfold run_pass.
  destruct (outer_loop (map_to_list resp)) as [log0 e0] eqn:Ho.
  destruct (outer_loop_complete (cryptoStore m) _ _ _ Ho)
    as (n & log1 & Hn & Hlog).
  rewrite Hlog.
  destruct (is_resolved e0) eqn:He0.
  - destruct e0; try done. destruct n; [|done]. simpl in Hn.
    injection Hn as Hst <-.
    apply run_after_end with (userIds := userIds) in Hn'
      as (-> & -> & -> & ->); [by rewrite <- Hst, app_nil_r|].
    simpl. by apply list_lookup_insert_eq.
  - eapply run_to_end in Hn' as (-> & -> & -> & ->); [| |done|done|done].
    + simpl. by rewrite app_nil_r, <- !app_assoc.
    + simpl. by apply list_lookup_insert_eq.
Qed.

(** ** What a completed pass leaves *)

(** ** The pin, whatever the schedule *)

Lemma check_pinned_changed currentDevices userId deviceId device ed25519
    existingDevice :
  existing_device currentDevices deviceId = Some existingDevice →
  keys existingDevice !! key_label Ed25119 deviceId ≠ Some ed25519 →
  check_pinned currentDevices userId deviceId device ed25519
  = inl (compromised_warning userId deviceId).
Proof.
  intros Hold Hne. unfold check_pinned. rewrite Hold.
  by rewrite bool_decide_eq_true_2.
Qed.

Lemma inner_loop_distinct users userId validated todo :
  NoDup todo.*1 →
  (∀ d, d ∈ validated → device_id d ∉ todo.*1) →
  exec_distinct (inner_loop users userId validated todo).2.
Proof.
  induction todo as [|[deviceId device] todo IH]; [done|].
  rewrite fmap_cons. cbn [fst]. intros Hnd Hv. cbn [inner_loop].
  destruct (check_claim userId deviceId device) as [w|ed] eqn:Hc.
  - apply NoDup_cons in Hnd as [_ Hnd].
    assert (exec_distinct (inner_loop users userId validated todo).2) as H.
    { apply IH; [done|]. intros d Hd Hin. apply (Hv d Hd). by right. }
    by destruct (inner_loop users userId validated todo).
  - apply check_claim_inr in Hc as (_ & Hid & _). by split_and!.
Qed.

Lemma outer_loop_distinct users : exec_distinct (outer_loop users).2.
Proof.
  destruct users as [|[userId cl] users]; simpl; [done|].
  apply inner_loop_distinct; [apply NoDup_fst_map_to_list|].
  intros d Hd. by apply elem_of_nil in Hd.
Qed.

Lemma resume_exec_distinct st e r st' log e' :
  exec_distinct e → resume_exec st e r = Some (st', log, e') →
  exec_distinct e'.
Proof.
  intros He.
  destruct e as [|k ed|k ed sg|users u v| |], r as [| |resp]; simpl; try done;
    try (by intros [= <- <- <-]).
  - pose proof (outer_loop_distinct (map_to_list resp)) as Hf.
    destruct (outer_loop (map_to_list resp)) as [lg ex]. by intros [= <- <- <-].
  - destruct He as (Hid & Hnd & Hv). apply NoDup_cons in Hnd as [Hnot Hnd].
    destruct (check_pinned _ _ _ _ _) as [w|sg].
    + assert (exec_distinct (inner_loop (f_users k) (f_userId k) (f_validated k)
                               (f_todo k)).2) as Hf.
      { apply inner_loop_distinct; [done|].
        intros d Hd Hin. apply (Hv d Hd). by right. }
      destruct (inner_loop _ _ _ _) as [lg ex]. by intros [= <- <- <-].
    + intros [= <- <- <-]. split_and!; [done| |done]. by apply NoDup_cons.
  - destruct He as (Hid & Hnd & Hv). apply NoDup_cons in Hnd as [Hnot Hnd].
    unfold check_verified.
    assert (∀ v, (∀ d, d ∈ v → device_id d ∉ (f_todo k).*1) →
              exec_distinct (inner_loop (f_users k) (f_userId k) v (f_todo k)).2)
      as Hgo by (intros v Hv'; by apply inner_loop_distinct).
    destruct (verifySignature _ _ _).
    + specialize (Hgo (f_validated k ++ [f_device k])).
      destruct (inner_loop _ _ _ _) as [lg ex]. intros [= <- <- <-].
      apply Hgo. intros d [Hd|Hd]%elem_of_app.
      * intros Hin. apply (Hv d Hd). by right.
      * apply list_elem_of_singleton in Hd as ->. by rewrite Hid.
    + specialize (Hgo (f_validated k)).
      destruct (inner_loop _ _ _ _) as [lg ex]. intros [= <- <- <-].
      apply Hgo. intros d Hd Hin. apply (Hv d Hd). by right.
  - pose proof (outer_loop_distinct users) as Hf.
    destruct (outer_loop users) as [lg ex]. by intros [= <- <- <-].
Qed.

Lemma step_distinct a m m' :
  step a m = Some m' →
  Forall task_distinct (tasks m) → Forall task_distinct (tasks m').
Proof.
  assert (∀ us m0, Forall task_distinct (tasks m0) →
            Forall task_distinct (tasks (updateUsersDeviceLists us m0)))
    as Hcall.
  { intros us m0 H. destruct (updateUsersDeviceLists_tasks us m0)
      as (k & -> & _ & [->| ->]);
      (apply Forall_app; split; [done|]; by apply Forall_singleton). }
  intros Hs Ht. destruct a as [us|us b|t r]; simpl in Hs.
  - injection Hs as <-. by apply Hcall.
  - injection Hs as <-. simpl.
    apply Forall_app. split; [done|]. by apply Forall_singleton.
  - apply resume_inv in Hs
      as [(us & hs & _ & _ & _ & ->)|[(us & hs & _ & _ & _ & ->)|
          [(us & _ & _ & ->)|[(us & p & e & st & log & e' & Hk & _ & Hx & ->)|
          [(us & b & m1 & _ & _ & -> & ->)|(us & b & _ & _ & ->)]]]]];
      simpl; try by apply Forall_insert.
    + pose proof (Forall_lookup_1 _ _ _ _ Ht Hk) as Hf. simpl in Hf.
      apply Forall_insert; [done|]. simpl. by eapply resume_exec_distinct.
    + destruct b; [apply Hcall; simpl|]; by apply Forall_insert.
Qed.

Lemma reachable_distinct m : reachable m → Forall task_distinct (tasks m).
Proof.
  intros (st & acts & Hrun). revert Hrun.
  assert (Forall task_distinct (tasks (new_tracker st))) as H0 by constructor.
  revert H0. generalize (new_tracker st).
  induction acts as [|a acts IH]; intros m0 H0; simpl.
  { by intros [= <-]. }
  destruct (step a m0) as [m1|] eqn:Hs; [|done].
  apply IH. by eapply step_distinct.
Qed.

Lemma reachable_filtered m : reachable m → Forall task_filtered (tasks m).
Proof.
  intros (st & acts & Hrun).
  assert (Forall task_filtered (tasks m) ∧ commits_filtered (events m))
    as [H _]; [|done].
  revert Hrun.
  assert (Forall task_filtered (tasks (new_tracker st)) ∧
          commits_filtered (events (new_tracker st))) as H0.
  { split; [constructor|]. intros ? ? H. by apply elem_of_nil in H. }
  revert H0. generalize (new_tracker st).
  induction acts as [|a acts IH]; intros m0 [Ht He]; simpl.
  { by intros [= <-]. }
  destruct (step a m0) as [m1|] eqn:Hs; [|done].
  apply IH. by eapply step_filtered.
Qed.

Lemma inner_loop_shorter users0 userId0 deviceId0 users userId validated todo :
  (length users < length users0)%nat →
  exec_skips users0 userId0 deviceId0 (inner_loop users userId validated todo).2.
Proof.
  intros Hlt. induction todo as [|[deviceId device] todo IH]; simpl; [by left|].
  destruct (check_claim userId deviceId device) as [w|ed].
  - by destruct (inner_loop users userId validated todo).
  - by left.
Qed.

Lemma outer_loop_shorter users0 userId0 deviceId0 users :
  (length users ≤ length users0)%nat →
  exec_skips users0 userId0 deviceId0 (outer_loop users).2.
Proof.
  destruct users as [|[userId cl] users]; simpl; [done|].
  intros Hle. apply inner_loop_shorter. lia.
Qed.

Lemma inner_loop_skips users userId deviceId0 validated todo :
  deviceId0 ∉ todo.*1 →
  (∀ d, d ∈ validated → device_id d ≠ deviceId0) →
  exec_skips users userId deviceId0 (inner_loop users userId validated todo).2.
Proof.
  induction todo as [|[deviceId device] todo IH].
  { intros _ Hv. simpl. right. done. }
  rewrite fmap_cons. cbn [fst]. intros Hnot Hv. cbn [inner_loop].
  apply not_elem_of_cons in Hnot as [Hne Hnot].
  destruct (check_claim userId deviceId device) as [w|ed] eqn:Hc.
  - specialize (IH Hnot Hv).
    by destruct (inner_loop users userId validated todo).
  - apply check_claim_inr in Hc as (_ & Hid & _).
    right. split_and!; done.
Qed.

(** A resumed executor does not come back to the claim it has left. *)
Lemma resume_exec_skips users userId deviceId st e r st' log e' :
  exec_skips users userId deviceId e →
  resume_exec st e r = Some (st', log, e') →
  exec_skips users userId deviceId e'.
Proof.
  intros He.
  destruct e as [|k ed|k ed sg|users' u v| |], r as [| |resp]; simpl; try done;
    try (by intros [= <- <- <-]).
  - assert (∀ v, (∀ d, d ∈ v → d ∈ f_validated k) →
              exec_skips users userId deviceId
                (inner_loop (f_users k) (f_userId k) v (f_todo k)).2) as Hgo.
    { intros v Hsub. destruct He as [Hlt|(<- & <- & _ & _ & Hnot & Hv)].
      - by apply inner_loop_shorter.
      - apply inner_loop_skips; [done|]. intros d Hd. by apply Hv, Hsub. }
    destruct (check_pinned _ _ _ _ _) as [w|sg].
    + specialize (Hgo (f_validated k) (λ _ H, H)).
      destruct (inner_loop _ _ _ _) as [lg ex]. by intros [= <- <- <-].
    + by intros [= <- <- <-].
  - unfold check_verified.
    assert (∀ v, (∀ d, d ∈ v → d ∈ f_validated k ∨ d = f_device k) →
              exec_skips users userId deviceId
                (inner_loop (f_users k) (f_userId k) v (f_todo k)).2) as Hgo.
    { intros v Hsub. destruct He as [Hlt|(<- & <- & Hid & Hne & Hnot & Hv)].
      - by apply inner_loop_shorter.
      - apply inner_loop_skips; [done|].
        intros d Hd. destruct (Hsub d Hd) as [Hin| ->]; [by apply Hv|].
        by rewrite Hid. }
    destruct (verifySignature _ _ _).
    + specialize (Hgo (f_validated k ++ [f_device k])).
      destruct (inner_loop _ _ _ _) as [lg ex]. intros [= <- <- <-].
      apply Hgo. intros d [Hd|Hd]%elem_of_app; [by left|].
      apply list_elem_of_singleton in Hd. by right.
    + specialize (Hgo (f_validated k)).
      destruct (inner_loop _ _ _ _) as [lg ex]. intros [= <- <- <-].
      apply Hgo. intros d Hd. by left.
  - assert (exec_skips users userId deviceId (outer_loop users').2) as Hf.
    { apply outer_loop_shorter. destruct He as [Hlt|(-> & _)]; lia. }
    destruct (outer_loop users') as [lg ex]. by intros [= <- <- <-].
Qed.

Lemma step_skips users userId deviceId a m m' t k :
  step a m = Some m' → tasks m !! t = Some k →
  task_skips users userId deviceId k →
  ∃ k', tasks m' !! t = Some k' ∧ task_skips users userId deviceId k'.
Proof.
  intros Hs Ht Hk.
  assert (t < length (tasks m)) as Hlt by by eapply lookup_lt_Some.
  assert ((∃ r, a = Resume t r) ∨ ∀ r, a ≠ Resume t r) as [[r ->]|Hother].
  { destruct a as [us|us b|t0 r]; [by right..|].
    destruct (decide (t0 = t)) as [->|Hne]; [left; by exists r|].
    right. by intros r' [= ?]. }
  - simpl in Hs. apply resume_inv in Hs
      as [(us & hs & Hl & _)|[(us & hs & Hl & _)|
          [(us & Hl & _ & ->)|[(us & p & e & st & log & e' & Hl & _ & Hx & ->)|
          [(us & b & m1 & Hl & _ & -> & ->)|(us & b & Hl & _ & ->)]]]]];
      rewrite Ht in Hl; injection Hl as ->; try done.
    + exists Returned. split; [|done]. simpl. by apply list_lookup_insert_eq.
    + eexists. split; [simpl; by apply list_lookup_insert_eq|].
      simpl. by eapply resume_exec_skips.
    + exists Flagged. split; [|done].
      destruct b; [|simpl; by apply list_lookup_insert_eq].
      match goal with
      | |- tasks (updateUsersDeviceLists us ?m1) !! t = _ =>
          destruct (updateUsersDeviceLists_tasks us m1) as (k0 & -> & _)
      end.
      simpl. rewrite lookup_app_l by by rewrite length_insert.
      by apply list_lookup_insert_eq.
    + exists FlagFailed. split; [|done]. simpl. by apply list_lookup_insert_eq.
  - exists k. split; [|done]. by eapply step_other.
Qed.

Lemma run_skips users userId deviceId acts m m' t k :
  run acts m = Some m' → tasks m !! t = Some k →
  task_skips users userId deviceId k →
  ∃ k', tasks m' !! t = Some k' ∧ task_skips users userId deviceId k'.
Proof.
  revert m k. induction acts as [|a acts IH]; intros m k; simpl.
  { intros [= <-] Ht Hk. by exists k. }
  destruct (step a m) as [m1|] eqn:Hs; [|done].
  intros Hrun Ht Hk.
  destruct (step_skips _ _ _ _ _ _ _ _ Hs Ht Hk) as (k1 & Ht1 & Hk1).
  by apply (IH m1 k1).
Qed.

(** C1, as the code has it, whatever calls are made and in whatever order
    they are resumed: the pin is the device the store returns at line 62.
    A claim that has passed lines 49-60 with an Ed25519 key other than that
    of the device the store then holds under its id is skipped with the
    warning of line 68, whatever its signatures are and whatever the
    verifier would say of them, and the store is left as it is; and the
    list this pass goes on to commit for the user, whatever happens before
    it does, holds no device of that id. *)
Theorem key_pinned_at_the_read m t userIds p k ed25519 existingDevice acts m' :
  reachable m →
  tasks m !! t = Some (Updating userIds p (AwaitGetUserDevices k ed25519)) →
  existing_device (getUserDevices (cryptoStore m) (f_userId k)) (f_deviceId k)
    = Some existingDevice →
  keys existingDevice !! key_label Ed25119 (f_deviceId k) ≠ Some ed25519 →
  run (Resume t Ok :: acts) m = Some m' →
  check_claim (f_userId k) (f_deviceId k) (f_device k) = inr ed25519 ∧
  (∃ m1 log,
     step (Resume t Ok) m = Some m1 ∧ run acts m1 = Some m' ∧
     cryptoStore m1 = cryptoStore m ∧
     events m1
     = events m
       ++ EvWarn (compromised_warning (f_userId k) (f_deviceId k)) :: log) ∧
  (∀ userIds' p' userId validated,
     tasks m' !! t
       = Some (Updating userIds' p'
                 (AwaitSetUserDevices (f_users k) userId validated)) →
     userId = f_userId k ∧
     (∀ d, d ∈ validated → device_id d ≠ f_deviceId k) ∧
     ∃ m'', step (Resume t Ok) m' = Some m'' ∧
            cryptoStore m'' = <[f_userId k := validated]> (cryptoStore m') ∧
            getUserDevices (cryptoStore m'') (f_userId k) = validated).
Proof.
  intros Hr Ht Hold Hne Hrun.
  pose proof (Forall_lookup_1 _ _ _ _ (reachable_filtered m Hr) Ht) as [_ Hc].
  pose proof (Forall_lookup_1 _ _ _ _ (reachable_distinct m Hr) Ht)
    as (Hid & Hnd & Hv).
  simpl in Hc, Hid, Hnd, Hv. apply NoDup_cons in Hnd as [Hnot Hnd].
  assert (t < length (tasks m)) as Hlt by by eapply lookup_lt_Some.
  pose proof (inner_loop_skips (f_users k) (f_userId k) (f_deviceId k)
                (f_validated k) (f_todo k) Hnot) as Hskip.
  simpl in Hrun. rewrite (resume_updating _ _ _ _ _ _ Ht eq_refl) in Hrun.
  simpl in Hrun. rewrite (check_pinned_changed _ _ _ _ _ _ Hold Hne) in Hrun.
  destruct (inner_loop (f_users k) (f_userId k) (f_validated k) (f_todo k))
    as [log e'] eqn:Hi.
  simpl in Hskip.
  match type of Hrun with
  | run acts ?m1 = _ =>
      destruct (run_skips (f_users k) (f_userId k) (f_deviceId k) acts m1 m' t
                  (Updating userIds (if is_resolved e' then Fulfilled else p) e')
                  Hrun) as (k' & Ht' & Hk')
  end.
  { simpl. by apply list_lookup_insert_eq. }
  { simpl. apply Hskip. intros d Hd Heq. apply (Hv d Hd). rewrite Heq. left. }
  split; [done|]. split.
  - eexists _, (log ++ (if is_resolved e' then [EvResolve t] else [])).
    simpl. rewrite (resume_updating _ _ _ _ _ _ Ht eq_refl). simpl.
    rewrite (check_pinned_changed _ _ _ _ _ _ Hold Hne), Hi.
    split_and!; [done|exact Hrun|done|done].
  - intros us' p' u' v Hset. rewrite Ht' in Hset. injection Hset as ->.
    simpl in Hk'. destruct Hk' as [Hlen|(_ & -> & Hno)]; [lia|].
    split_and!; [done..|].
    by apply (commit_step_replaces _ _ _ _ _ _ _ Ht').
Qed.

(** C3: the commit replaces.  When a pass has completed, the store holds
    under every user of the response exactly the claims of this response that
    passed every check against the devices stored before; an id that the
    response does not list for the user, or lists with a rejected claim, is
    stored no more. *)
Theorem commit_is_full_replacement m t userIds resp m' userId cl :
  tasks m !! t = Some (Updating userIds Pending AwaitFetch) →
  completes_alone m t resp m' →
  resp !! userId = Some cl →
  cryptoStore m' !! userId
    = Some (validate_claims (cryptoStore m) userId (map_to_list cl) []).1 ∧
  (∀ d, d ∈ getUserDevices (cryptoStore m') userId ↔
        ∃ deviceId, cl !! deviceId = Some d ∧
          accepts (getUserDevices (cryptoStore m) userId) userId deviceId d
          = true) ∧
  (∀ deviceId,
     (∀ device, cl !! deviceId = Some device →
        accepts (getUserDevices (cryptoStore m) userId) userId deviceId device
        = false) →
     ∀ d, d ∈ getUserDevices (cryptoStore m') userId → device_id d ≠ deviceId).
Proof.
  intros Ht Hdone Hresp.
  destruct (completes_alone_spec m t userIds resp Ht) as [_ Hspec].
  destruct (Hspec m' Hdone) as (-> & _).
  by apply run_pass_replaces.
Qed.

(** C6: a claim whose own user id or device id is not the key it is listed
    under is rejected, whatever its keys and signature are; the warning of
    line 50 is logged, no device is committed under that key, and every
    committed device is listed under its own ids. *)
Theorem mismatched_identity_excluded m t userIds resp m' userId cl deviceId
    device :
  tasks m !! t = Some (Updating userIds Pending AwaitFetch) →
  completes_alone m t resp m' →
  resp !! userId = Some cl → cl !! deviceId = Some device →
  user_id device ≠ userId ∨ device_id device ≠ deviceId →
  accepts (getUserDevices (cryptoStore m) userId) userId deviceId device = false ∧
  (∃ log, events m' = events m ++ log ∧
          EvWarn (lying_warning userId deviceId device) ∈ log) ∧
  (∀ d, d ∈ getUserDevices (cryptoStore m') userId → device_id d ≠ deviceId) ∧
  (∀ d, d ∈ getUserDevices (cryptoStore m') userId →
        user_id d = userId ∧ cl !! device_id d = Some d).
Proof.
  intros Ht Hdone Hresp Hcl Hne.
  destruct (completes_alone_spec m t userIds resp Ht) as [_ Hspec].
  destruct (Hspec m' Hdone) as (-> & -> & _).
  destruct (run_pass_identity (cryptoStore m) _ _ _ _ _ Hresp Hcl Hne)
    as (H1 & H2 & H3 & H4).
  split_and!; [done| |done|done].
  eexists. split; [done|]. rewrite elem_of_app. by left.
Qed.

(** C7: a claim without the Ed25519 key or without the Curve25519 key under
    the label of its device id is rejected with a warning, and no device is
    committed under that id. *)
Theorem incomplete_keys_excluded m t userIds resp m' userId cl deviceId device :
  tasks m !! t = Some (Updating userIds Pending AwaitFetch) →
  completes_alone m t resp m' →
  resp !! userId = Some cl → cl !! deviceId = Some device →
  keys device !! key_label Ed25119 deviceId = None ∨
  keys device !! key_label Curve25519 deviceId = None →
  accepts (getUserDevices (cryptoStore m) userId) userId deviceId device = false ∧
  (∃ log w, events m' = events m ++ log ∧ EvWarn w ∈ log ∧
            (w = lying_warning userId deviceId device ∨
             w = missing_key_warning userId deviceId)) ∧
  (∀ d, d ∈ getUserDevices (cryptoStore m') userId → device_id d ≠ deviceId).
Proof.
  intros Ht Hdone Hresp Hcl Hmiss.
  destruct (completes_alone_spec m t userIds resp Ht) as [_ Hspec].
  destruct (Hspec m' Hdone) as (-> & -> & _).
  destruct (run_pass_keys (cryptoStore m) _ _ _ _ _ Hresp Hcl Hmiss)
    as (H1 & (w & Hw & Hw') & H3).
  split_and!; [done| |done].
  eexists _, w. split; [done|]. split; [|done]. rewrite elem_of_app. by left.
Qed.

(** C8: trust on first use.  With no device stored for
    [(userId, deviceId)], a claim listed under its own ids, with both keys
    and a signature of its own that the verifier accepts, passes every check
    whatever its Ed25519 key is; the pass gets to its end and has then
    committed the claim. *)
Theorem trust_on_first_use m t userIds resp userId cl deviceId device
    ed25519 curve25519 signature :
  tasks m !! t = Some (Updating userIds Pending AwaitFetch) →
  resp !! userId = Some cl → cl !! deviceId = Some device →
  existing_device (getUserDevices (cryptoStore m) userId) deviceId = None →
  user_id device = userId → device_id device = deviceId →
  keys device !! key_label Ed25119 deviceId = Some ed25519 →
  ed25519 ≠ EmptyString →
  keys device !! key_label Curve25519 deviceId = Some curve25519 →
  curve25519 ≠ EmptyString →
  self_signature userId deviceId device = Some signature →
  signature ≠ EmptyString →
  verifySignature device ed25519 signature = true →
  accepts (getUserDevices (cryptoStore m) userId) userId deviceId device = true ∧
  (∃ m', completes_alone m t resp m') ∧
  (∀ m', completes_alone m t resp m' →
         device ∈ getUserDevices (cryptoStore m') userId).
Proof.
  intros Ht Hresp Hcl Hnone Hu Hd He Hne Hc Hcne Hs Hsne Hv.
  destruct (completes_alone_spec m t userIds resp Ht) as [Hex Hspec].
  destruct (run_pass_first_use (cryptoStore m) _ _ _ _ _ _ _ _
              Hresp Hcl Hnone Hu Hd He Hne Hc Hcne Hs Hsne Hv) as [H1 H2].
  split_and!; [done..|].
  intros m' Hdone. by destruct (Hspec m' Hdone) as (-> & _).
Qed.

(** C10: the frame.  A completed pass has written the store only under
    users that are keys of the response; whatever is stored for any other
    user, requested or not, is as it was. *)
Theorem absent_user_untouched m t userIds resp m' userId :
  tasks m !! t = Some (Updating userIds Pending AwaitFetch) →
  completes_alone m t resp m' →
  resp !! userId = None →
  cryptoStore m' !! userId = cryptoStore m !! userId ∧
  getUserDevices (cryptoStore m') userId = getUserDevices (cryptoStore m) userId ∧
  ∀ devices, EvSetUserDevices userId devices ∈ events m' →
             EvSetUserDevices userId devices ∈ events m.
Proof.
  intros Ht Hdone Hresp.
  destruct (completes_alone_spec m t userIds resp Ht) as [_ Hspec].
  destruct (Hspec m' Hdone) as (-> & -> & _).
  destruct (run_pass_frame (cryptoStore m) _ _ Hresp) as (H1 & H2 & H3).
  split_and!; [done..|].
  intros devices. rewrite !elem_of_app.
  intros [?|[Hin|Hin]]; [done|by apply H3 in Hin|].
  by apply list_elem_of_singleton in Hin.
Qed.

(** * Further properties of the code *)

(** ** The verdict on a claim and the log of a pass *)

Lemma accepts_claim_warning currentDevices userId deviceId device :
  accepts currentDevices userId deviceId device = true ↔
  claim_warning currentDevices userId deviceId device = None.
Proof.
  unfold accepts, claim_warning.
  destruct (check_claim userId deviceId device); [done|].
  destruct (check_pinned _ _ _ _ _); [done|].
  by destruct (verifySignature _ _ _).
Qed.

(** The inner loop logs the warnings of the claims it skips, in order. *)
Lemma validate_claims_log st userId todo validated :
  (validate_claims st userId todo validated).2
  = EvWarn <$> omap (λ p, claim_warning (getUserDevices st userId) userId p.1 p.2)
                 todo.
Proof.
  revert validated.
  induction todo as [|[deviceId device] todo IH]; intros validated; simpl; [done|].
  unfold claim_warning, check_verified.
  destruct (check_claim userId deviceId device).
  { specialize (IH validated).
    destruct (validate_claims st userId todo validated). simpl in *.
    by rewrite IH. }
  destruct (check_pinned _ _ _ _ _).
  { specialize (IH validated).
    destruct (validate_claims st userId todo validated). simpl in *.
    by rewrite IH. }
  destruct (verifySignature _ _ _).
  - specialize (IH (validated ++ [device])).
    by destruct (validate_claims st userId todo (validated ++ [device])).
  - specialize (IH validated).
    destruct (validate_claims st userId todo validated). simpl in *.
    by rewrite IH.
Qed.

Lemma update_user_log st userId cl :
  (update_user st userId cl).2
  = (EvWarn <$> omap (λ p, claim_warning (getUserDevices st userId) userId p.1 p.2)
                  (map_to_list cl))
    ++ [EvSetUserDevices userId (validate_claims st userId (map_to_list cl) []).1].
Proof.
  unfold update_user.
  rewrite <- (validate_claims_log st userId (map_to_list cl) []).
  by destruct (validate_claims st userId (map_to_list cl) []).
Qed.

Lemma update_user_log_ext st st' userId cl :
  getUserDevices st userId = getUserDevices st' userId →
  (update_user st userId cl).2 = (update_user st' userId cl).2.
Proof.
  intros H. rewrite !update_user_log.
  by rewrite (validate_claims_ext _ _ _ _ _ H), H.
Qed.

(** The log of the outer loop: user by user, what the inner loop logs
    against the devices stored before the pass, then the commit. *)
Lemma update_users_log st st0 todo :
  NoDup todo.*1 →
  (∀ u, u ∈ todo.*1 → getUserDevices st u = getUserDevices st0 u) →
  (update_users st todo).2 = todo ≫= (λ p, (update_user st0 p.1 p.2).2).
Proof.
  revert st. induction todo as [|[u cl] todo IH]; intros st Hnd Hsame; [done|].
  rewrite fmap_cons in Hnd. apply NoDup_cons in Hnd as [Hfresh Hnd].
  simpl. destruct (update_user st u cl) as [st' log1] eqn:Hu.
  specialize (IH st' Hnd).
  destruct (update_users st' todo) as [st'' log2]. simpl in *.
  rewrite IH.
  - f_equal. change log1 with (st', log1).2. rewrite <- Hu.
    apply update_user_log_ext, Hsame. left.
  - intros u' Hu'. rewrite <- Hsame by by right.
    change st' with (st', log1).1. rewrite <- Hu, update_user_store.
    unfold getUserDevices. rewrite lookup_insert_ne; [done|].
    intros ->. done.
Qed.

(** The warning of a skipped claim is in the log of the pass. *)
Lemma run_pass_logs_warning st resp userId cl deviceId device w :
  resp !! userId = Some cl → cl !! deviceId = Some device →
  claim_warning (getUserDevices st userId) userId deviceId device = Some w →
  EvWarn w ∈ (run_pass st resp).2.
Proof.
  intros Hresp Hcl Hw. unfold run_pass.
  rewrite (update_users_log st st) by (done || apply NoDup_fst_map_to_list).
  apply list_elem_of_bind. exists (userId, cl).
  split; [|by apply elem_of_map_to_list].
  simpl. rewrite update_user_log, elem_of_app. left.
  apply list_elem_of_fmap_2, list_elem_of_omap. exists (deviceId, device).
  split; [by apply elem_of_map_to_list|done].
Qed.

(** A claim with a warning leaves no device under its id. *)
Lemma run_pass_warned_out st resp userId cl deviceId device w :
  resp !! userId = Some cl → cl !! deviceId = Some device →
  claim_warning (getUserDevices st userId) userId deviceId device = Some w →
  ∀ d, d ∈ getUserDevices (run_pass st resp).1 userId → device_id d ≠ deviceId.
Proof.
  intros Hresp Hcl Hw. apply (run_pass_rejected _ _ _ _ _ Hresp).
  intros device' Hcl'. assert (device' = device) as -> by congruence.
  destruct (accepts _ _ _ _) eqn:Ha; [|done].
  apply accepts_claim_warning in Ha. congruence.
Qed.

(** The common end of the three theorems that follow. *)
Lemma completed_pass_warns m t userIds resp m' userId cl deviceId device w :
  tasks m !! t = Some (Updating userIds Pending AwaitFetch) →
  completes_alone m t resp m' →
  resp !! userId = Some cl → cl !! deviceId = Some device →
  claim_warning (getUserDevices (cryptoStore m) userId) userId deviceId device
    = Some w →
  accepts (getUserDevices (cryptoStore m) userId) userId deviceId device = false ∧
  (∃ log, events m' = events m ++ log ∧ EvWarn w ∈ log) ∧
  (∀ d, d ∈ getUserDevices (cryptoStore m') userId → device_id d ≠ deviceId).
Proof.
  intros Ht Hdone Hresp Hcl Hw.
  destruct (completes_alone_spec m t userIds resp Ht) as [_ Hspec].
  destruct (Hspec m' Hdone) as (-> & -> & _).
  split_and!.
  - destruct (accepts _ _ _ _) eqn:Ha; [|done].
    apply accepts_claim_warning in Ha. congruence.
  - eexists. split; [done|]. rewrite elem_of_app. left.
    by eapply run_pass_logs_warning.
  - by eapply run_pass_warned_out.
Qed.

(** X1.  A claim that passes the checks of lines 49-60 but presents another
    Ed25519 key than the device stored under its id is skipped with the
    warning of line 68, whatever its signatures are and whatever the verifier
    says of them. *)
Theorem changed_key_is_reported m t userIds resp m' userId cl deviceId device
    ed25519 existingDevice :
  tasks m !! t = Some (Updating userIds Pending AwaitFetch) →
  completes_alone m t resp m' →
  resp !! userId = Some cl → cl !! deviceId = Some device →
  check_claim userId deviceId device = inr ed25519 →
  existing_device (getUserDevices (cryptoStore m) userId) deviceId
    = Some existingDevice →
  keys existingDevice !! key_label Ed25119 deviceId ≠ Some ed25519 →
  claim_warning (getUserDevices (cryptoStore m) userId) userId deviceId device
    = Some (compromised_warning userId deviceId) ∧
  (∃ log, events m' = events m ++ log ∧
          EvWarn (compromised_warning userId deviceId) ∈ log) ∧
  (∀ d, d ∈ getUserDevices (cryptoStore m') userId → device_id d ≠ deviceId).
Proof.
  intros Ht Hdone Hresp Hcl Hc Hold Hne.
  assert (claim_warning (getUserDevices (cryptoStore m) userId) userId deviceId
            device = Some (compromised_warning userId deviceId)) as Hw.
  { unfold claim_warning, check_pinned. rewrite Hc, Hold.
    by rewrite bool_decide_eq_true_2. }
  split; [done|].
  by destruct (completed_pass_warns _ _ _ _ _ _ _ _ _ _ Ht Hdone Hresp Hcl Hw)
    as (_ & ? & ?).
Qed.

(** X2.  A claim that passes the checks of lines 49-70 but has no signature of
    its own user under its own Ed25519 label (no [signatures] at all, none for
    the user, none under the label, or the empty string) is skipped with the
    warning of line 75; signatures of others do not count. *)
Theorem missing_signature_excluded m t userIds resp m' userId cl deviceId device
    ed25519 :
  tasks m !! t = Some (Updating userIds Pending AwaitFetch) →
  completes_alone m t resp m' →
  resp !! userId = Some cl → cl !! deviceId = Some device →
  check_claim userId deviceId device = inr ed25519 →
  (∀ existingDevice,
     existing_device (getUserDevices (cryptoStore m) userId) deviceId
       = Some existingDevice →
     keys existingDevice !! key_label Ed25119 deviceId = Some ed25519) →
  self_signature userId deviceId device = None ∨
  self_signature userId deviceId device = Some EmptyString →
  accepts (getUserDevices (cryptoStore m) userId) userId deviceId device = false ∧
  (∃ log, events m' = events m ++ log ∧
          EvWarn (missing_signature_warning userId deviceId) ∈ log) ∧
  (∀ d, d ∈ getUserDevices (cryptoStore m') userId → device_id d ≠ deviceId).
Proof.
  intros Ht Hdone Hresp Hcl Hc Hpin Hsig.
  eapply completed_pass_warns; [done..|].
  unfold claim_warning, check_pinned. rewrite Hc.
  destruct (existing_device _ _) as [old|] eqn:Hold.
  - rewrite bool_decide_eq_false_2 by (rewrite (Hpin old eq_refl); by intros ?).
    by destruct Hsig as [-> | ->].
  - by destruct Hsig as [-> | ->].
Qed.

(** X3.  A claim that passes the checks of lines 49-77 and whose signature the
    verifier refuses is skipped with the warning of line 81. *)
Theorem invalid_signature_excluded m t userIds resp m' userId cl deviceId device
    ed25519 signature :
  tasks m !! t = Some (Updating userIds Pending AwaitFetch) →
  completes_alone m t resp m' →
  resp !! userId = Some cl → cl !! deviceId = Some device →
  check_claim userId deviceId device = inr ed25519 →
  check_pinned (getUserDevices (cryptoStore m) userId) userId deviceId device
    ed25519 = inr signature →
  verifySignature device ed25519 signature = false →
  accepts (getUserDevices (cryptoStore m) userId) userId deviceId device = false ∧
  (∃ log, events m' = events m ++ log ∧
          EvWarn (invalid_signature_warning userId deviceId) ∈ log) ∧
  (∀ d, d ∈ getUserDevices (cryptoStore m') userId → device_id d ≠ deviceId).
Proof.
  intros Ht Hdone Hresp Hcl Hc Hp Hv.
  eapply completed_pass_warns; [done..|].
  unfold claim_warning. by rewrite Hc, Hp, Hv.
Qed.

(** ** Every claim is accounted for *)

Lemma warnings_app l1 l2 : warnings (l1 ++ l2) = warnings l1 + warnings l2.
Proof. induction l1 as [|[] l1 IH]; simpl; lia. Qed.

Lemma commits_app l1 l2 : commits (l1 ++ l2) = commits l1 + commits l2.
Proof. induction l1 as [|[] l1 IH]; simpl; lia. Qed.

Lemma committed_app l1 l2 : committed (l1 ++ l2) = committed l1 + committed l2.
Proof. induction l1 as [|[] l1 IH]; simpl; lia. Qed.

Lemma count_warnings (l : list string) :
  warnings (EvWarn <$> l) = length l ∧
  commits (EvWarn <$> l) = 0 ∧ committed (EvWarn <$> l) = 0.
Proof.
  induction l as [|w l IH]; [done|].
  rewrite fmap_cons. cbn [warnings commits committed length]. lia.
Qed.

(** The inner loop pushes or warns, once for each claim. *)
Lemma validate_claims_count st userId todo validated :
  length (validate_claims st userId todo validated).1
  + length (omap (λ p, claim_warning (getUserDevices st userId) userId p.1 p.2)
              todo)
  = length validated + length todo.
Proof.
  revert validated.
  induction todo as [|[deviceId device] todo IH]; intros validated.
  { simpl. lia. }
  rewrite validate_claims_cons.
  change (omap ?f ((deviceId, device) :: todo))
    with (match f (deviceId, device) with
          | Some w => w :: omap f todo
          | None => omap f todo
          end).
  cbn [fst snd].
  destruct (accepts (getUserDevices st userId) userId deviceId device) eqn:Ha.
  - apply accepts_claim_warning in Ha. rewrite Ha, IH, length_app. simpl. lia.
  - destruct (claim_warning _ _ _ _) eqn:Hw.
    + cbn [length]. specialize (IH validated). lia.
    + apply accepts_claim_warning in Hw. congruence.
Qed.

Lemma update_user_count st userId cl :
  warnings (update_user st userId cl).2 + committed (update_user st userId cl).2
    = size cl ∧
  commits (update_user st userId cl).2 = 1.
Proof.
  rewrite update_user_log, warnings_app, committed_app, commits_app.
  destruct (count_warnings
    (omap (λ p, claim_warning (getUserDevices st userId) userId p.1 p.2)
       (map_to_list cl))) as (-> & -> & ->).
  pose proof (validate_claims_count st userId (map_to_list cl) []) as H.
  rewrite length_map_to_list in H.
  cbn [warnings commits committed length] in *. lia.
Qed.

Lemma update_users_count st todo :
  warnings (update_users st todo).2 + committed (update_users st todo).2
    = sum_list ((λ p, size p.2) <$> todo) ∧
  commits (update_users st todo).2 = length todo.
Proof.
  revert st. induction todo as [|[u cl] todo IH]; intros st; [done|].
  rewrite fmap_cons. change (sum_list (?x :: ?l)) with (x + sum_list l).
  cbn [update_users length fst snd].
  pose proof (update_user_count st u cl) as [H1 H2].
  destruct (update_user st u cl) as [st' log1].
  specialize (IH st'). destruct (update_users st' todo) as [st'' log2].
  cbn [fst snd] in *. rewrite warnings_app, committed_app, commits_app.
  lia.
Qed.

(** X4.  A completed pass has added to the trace one commit for each user of the
    response, and as many warnings as there are claims in the response that
    it has not committed: every claim is either committed or warned about,
    once. *)
Theorem every_claim_is_accounted_for m t userIds resp m' :
  tasks m !! t = Some (Updating userIds Pending AwaitFetch) →
  completes_alone m t resp m' →
  ∃ log, events m' = events m ++ log ++ [EvResolve t] ∧
         warnings log + committed log = claims_in resp ∧
         commits log = size resp.
Proof.
  intros Ht Hdone.
  destruct (completes_alone_spec m t userIds resp Ht) as [_ Hspec].
  destruct (Hspec m' Hdone) as (_ & -> & _).
  eexists. split; [done|]. unfold run_pass, claims_in.
  destruct (update_users_count (cryptoStore m) (map_to_list resp)) as [H1 H2].
  by rewrite H1, H2, length_map_to_list.
Qed.

(** ** A user whose claims are all rejected *)

(** X5.  When the response lists a user without any claim that passes the
    checks, and so when it lists the user with no device at all, the
    completed pass has left the user with the empty list: whatever was
    stored for the user is gone. *)
Theorem all_rejected_wipes m t userIds resp m' userId cl :
  tasks m !! t = Some (Updating userIds Pending AwaitFetch) →
  completes_alone m t resp m' →
  resp !! userId = Some cl →
  (∀ deviceId device,
     cl !! deviceId = Some device →
     accepts (getUserDevices (cryptoStore m) userId) userId deviceId device
     = false) →
  cryptoStore m' !! userId = Some [] ∧
  ∃ log, events m' = events m ++ log ∧ EvSetUserDevices userId [] ∈ log.
Proof.
  intros Ht Hdone Hresp Hrej.
  destruct (completes_alone_spec m t userIds resp Ht) as [_ Hspec].
  destruct (Hspec m' Hdone) as (-> & -> & _).
  assert ((validate_claims (cryptoStore m) userId (map_to_list cl) []).1 = [])
    as Hnil.
  { apply elem_of_nil_inv. intros d Hd.
    apply validate_claims_elem in Hd as [Hd|(D & Hin & Ha)].
    - by apply elem_of_nil in Hd.
    - apply elem_of_map_to_list in Hin. by rewrite (Hrej _ _ Hin) in Ha. }
  split.
  - by rewrite (run_pass_commit _ _ _ _ Hresp), Hnil.
  - eexists. split; [done|]. rewrite elem_of_app. left. unfold run_pass.
    rewrite (update_users_log _ (cryptoStore m))
      by (done || apply NoDup_fst_map_to_list).
    apply list_elem_of_bind. exists (userId, cl).
    split; [|by apply elem_of_map_to_list].
    simpl. rewrite update_user_log, Hnil, elem_of_app. right. left.
Qed.

(** ** The same answer twice *)

Lemma existing_device_spec currentDevices deviceId existingDevice :
  existing_device currentDevices deviceId = Some existingDevice →
  existingDevice ∈ currentDevices ∧ device_id existingDevice = deviceId.
Proof.
  unfold existing_device. intros H. apply find_some in H as [Hin Hid].
  split; [by apply list_elem_of_In|]. by apply bool_decide_eq_true in Hid.
Qed.

(** After a pass, a claim of the same response meets under its id nothing
    but itself: the pinning check has nothing to object. *)
Lemma accepts_after_pass st resp userId cl deviceId device :
  resp !! userId = Some cl → cl !! deviceId = Some device →
  accepts (getUserDevices (run_pass st resp).1 userId) userId deviceId device
  = accepts [] userId deviceId device.
Proof.
  intros Hresp Hcl.
  destruct (accepts [] userId deviceId device) eqn:Hb.
  - apply accepts_spec in Hb
      as (Hu & Hd & e & c & sg & He & Hne & Hc & Hcne & _ & Hs & Hsne & Hv).
    apply accepts_spec. split_and!; [done..|].
    exists e, c, sg. split_and!; try done.
    intros old Hold. apply existing_device_spec in Hold as [Hin Hid].
    apply (run_pass_listed _ _ _ _ _ Hresp) in Hin as (_ & Hlisted & _).
    rewrite Hid in Hlisted. assert (old = device) as -> by congruence. done.
  - destruct (accepts (getUserDevices _ _) _ _ _) eqn:Ha; [|done].
    apply accepts_spec in Ha
      as (Hu & Hd & e & c & sg & He & Hne & Hc & Hcne & _ & Hs & Hsne & Hv).
    assert (accepts [] userId deviceId device = true) as Hb'; [|congruence].
    apply accepts_spec. split_and!; [done..|].
    exists e, c, sg. split_and!; done.
Qed.

(** X6.  When a pass has completed and a later pass gets the same answer, with
    no commit in between, the stored list of a user of the answer holds
    exactly the claims that pass the checks against an empty store: what
    was stored before the first pass no longer counts, a key it pinned
    included. *)
Theorem same_answer_twice_forgets_the_past
    m t userIds resp m1 m1' t' userIds' m2 userId cl :
  tasks m !! t = Some (Updating userIds Pending AwaitFetch) →
  completes_alone m t resp m1 →
  cryptoStore m1' = cryptoStore m1 →
  tasks m1' !! t' = Some (Updating userIds' Pending AwaitFetch) →
  completes_alone m1' t' resp m2 →
  resp !! userId = Some cl →
  ∀ d, d ∈ getUserDevices (cryptoStore m2) userId ↔
       ∃ deviceId, cl !! deviceId = Some d ∧
                   accepts [] userId deviceId d = true.
Proof.
  intros Ht Hdone Hsame Ht' Hdone' Hresp d.
  destruct (completes_alone_spec m t userIds resp Ht) as [_ Hspec].
  destruct (Hspec m1 Hdone) as (Hst1 & _).
  destruct (completes_alone_spec m1' t' userIds' resp Ht') as [_ Hspec'].
  destruct (Hspec' m2 Hdone') as (-> & _).
  rewrite Hsame, Hst1, (run_pass_elem _ _ _ _ _ Hresp).
  split; intros (D & Hcl & Ha); exists D; (split; [done|]).
  - by rewrite (accepts_after_pass _ _ _ _ _ _ Hresp Hcl) in Ha.
  - by rewrite (accepts_after_pass _ _ _ _ _ _ Hresp Hcl).
Qed.

(** ** The order of the keys *)

Lemma validate_claims_validated st userId todo validated :
  (validate_claims st userId todo validated).1
  = validated
    ++ omap (λ p, if accepts (getUserDevices st userId) userId p.1 p.2
                  then Some p.2 else None) todo.
Proof.
  revert validated.
  induction todo as [|[deviceId device] todo IH]; intros validated.
  { simpl. by rewrite app_nil_r. }
  rewrite validate_claims_cons.
  change (omap ?f ((deviceId, device) :: todo))
    with (match f (deviceId, device) with
          | Some w => w :: omap f todo
          | None => omap f todo
          end).
  cbn [fst snd].
  destruct (accepts (getUserDevices st userId) userId deviceId device); [|done].
  by rewrite IH, <- app_assoc.
Qed.

(** X7.  The loops visit users and devices in the order [Object.keys] gives
    them.  The order of the users does not show in the store; the order of
    a user's devices shows in the order of the stored list only. *)
Theorem visiting_order_is_immaterial st todo todo' userId claimed claimed' :
  NoDup todo.*1 → todo ≡ₚ todo' → claimed ≡ₚ claimed' →
  (update_users st todo).1 = (update_users st todo').1 ∧
  (validate_claims st userId claimed []).1
    ≡ₚ (validate_claims st userId claimed' []).1.
Proof.
  intros Hnd Hperm Hperm'. split.
  - assert (NoDup todo'.*1) as Hnd' by by rewrite <- Hperm.
    apply map_eq. intros u.
    destruct (decide (u ∈ todo.*1)) as [Hin|Hnot].
    + pose proof Hin as Hin'.
      apply list_elem_of_fmap in Hin' as ([u' cl] & -> & Hmem). simpl.
      rewrite (update_users_commit _ _ _ _ Hnd Hmem).
      rewrite Hperm in Hmem.
      by rewrite (update_users_commit _ _ _ _ Hnd' Hmem).
    + rewrite (update_users_frame _ _ _ Hnot).
      rewrite Hperm in Hnot. by rewrite (update_users_frame _ _ _ Hnot).
  - rewrite !validate_claims_validated. simpl. by rewrite Hperm'.
Qed.
(** ** Whatever the schedule: what is stored is signed *)

Lemma inner_loop_signed users userId validated todo :
  Forall (self_signed userId) validated →
  exec_signed (inner_loop users userId validated todo).2.
Proof.
  intros Hv. induction todo as [|[deviceId device] todo IH]; simpl; [done|].
  destruct (check_claim userId deviceId device) as [w|ed] eqn:Hc.
  - by destruct (inner_loop users userId validated todo).
  - done.
Qed.

Lemma outer_loop_signed users : exec_signed (outer_loop users).2.
Proof.
  destruct users as [|[userId cl] users]; simpl; [done|].
  by apply inner_loop_signed.
Qed.

Lemma commits_signed_warns (log : list event) :
  (∀ ev, ev ∈ log → ∃ w, ev = EvWarn w) → commits_signed log.
Proof. intros Hw u ds Hin. by apply Hw in Hin as [w ?]. Qed.

Lemma commits_signed_app evs1 evs2 :
  commits_signed evs1 → commits_signed evs2 → commits_signed (evs1 ++ evs2).
Proof. intros H1 H2 u ds [?|?]%elem_of_app; eauto. Qed.

Lemma commits_signed_cons ev evs :
  (∀ u ds, ev = EvSetUserDevices u ds → Forall (self_signed u) ds) →
  commits_signed evs → commits_signed (ev :: evs).
Proof. intros H1 H2 u ds [Heq|?]%elem_of_cons; eauto. Qed.

(** A resumed executor keeps what it knows, and the store and the trace
    get signed devices only. *)
Lemma resume_exec_signed st e r st' log e' :
  exec_signed e → store_signed st →
  resume_exec st e r = Some (st', log, e') →
  exec_signed e' ∧ store_signed st' ∧ commits_signed log.
Proof.
  intros He Hst.
  destruct e as [|k ed|k ed sg|users u v| |], r as [| |resp]; simpl; try done;
    try (intros [= <- <- <-]; split_and!; [done..|];
         intros ? ? H; by apply elem_of_nil in H).
  - pose proof (outer_loop_signed (map_to_list resp)) as Hf.
    pose proof (outer_loop_warns (map_to_list resp)) as Hw.
    destruct (outer_loop (map_to_list resp)) as [lg ex]. intros [= <- <- <-].
    split_and!; [done..|]. by apply commits_signed_warns.
  - destruct He as [Hv Hc].
    destruct (check_pinned _ _ _ _ _) as [w|sg] eqn:Hp.
    + pose proof (inner_loop_signed (f_users k) _ _ (f_todo k) Hv) as Hf.
      pose proof (inner_loop_warns (f_users k) (f_userId k) (f_validated k)
                    (f_todo k)) as Hw.
      destruct (inner_loop _ _ _ _) as [lg ex]. intros [= <- <- <-].
      split_and!; [done..|]. apply commits_signed_cons; [done|].
      by apply commits_signed_warns.
    + apply check_pinned_inr in Hp as (_ & Hs & Hne).
      intros [= <- <- <-]. split_and!; [done..|].
      intros ? ? H. by apply elem_of_nil in H.
  - destruct He as (Hv & Hc & Hs & Hne). unfold check_verified.
    destruct (verifySignature _ _ _) eqn:Hok.
    + assert (Forall (self_signed (f_userId k)) (f_validated k ++ [f_device k]))
        as Hv'.
      { apply Forall_app. split; [done|]. apply Forall_singleton.
        pose proof Hc as Hid. apply check_claim_inr in Hid as (_ & Hid & _).
        exists ed, sg. by rewrite Hid. }
      pose proof (inner_loop_signed (f_users k) _ _ (f_todo k) Hv') as Hf.
      pose proof (inner_loop_warns (f_users k) (f_userId k)
                    (f_validated k ++ [f_device k]) (f_todo k)) as Hw.
      destruct (inner_loop _ _ _ _) as [lg ex]. intros [= <- <- <-].
      split_and!; [done..|]. by apply commits_signed_warns.
    + pose proof (inner_loop_signed (f_users k) _ _ (f_todo k) Hv) as Hf.
      pose proof (inner_loop_warns (f_users k) (f_userId k) (f_validated k)
                    (f_todo k)) as Hw.
      destruct (inner_loop _ _ _ _) as [lg ex]. intros [= <- <- <-].
      split_and!; [done..|]. apply commits_signed_cons; [done|].
      by apply commits_signed_warns.
  - pose proof (outer_loop_signed users) as Hf.
    pose proof (outer_loop_warns users) as Hw.
    destruct (outer_loop users) as [lg ex]. intros [= <- <- <-].
    split_and!; [done| |].
    + intros u' ds. unfold setUserDevices.
      destruct (decide (u' = u)) as [->|Hne].
      * rewrite lookup_insert_eq. by intros [= <-].
      * rewrite lookup_insert_ne by done. apply Hst.
    + apply commits_signed_cons; [by intros ? ? [= <- <-]|].
      by apply commits_signed_warns.
Qed.

Lemma updateUsersDeviceLists_signed userIds m :
  Forall task_signed (tasks m) → commits_signed (events m) →
  Forall task_signed (tasks (updateUsersDeviceLists userIds m)) ∧
  cryptoStore (updateUsersDeviceLists userIds m) = cryptoStore m ∧
  commits_signed (events (updateUsersDeviceLists userIds m)).
Proof.
  intros Ht He. destruct (existing_promises m userIds) as [|h hs] eqn:Hx.
  - rewrite updateUsersDeviceLists_starting by done. simpl. split_and!; [|done|].
    + apply Forall_app. split; [done|]. by apply Forall_singleton.
    + apply commits_signed_app; [done|].
      intros u ds [?|Hin]%elem_of_cons; [done|].
      by apply list_elem_of_fmap in Hin as (? & ? & _).
  - rewrite updateUsersDeviceLists_waiting by congruence. simpl.
    split_and!; [|done..].
    apply Forall_app. split; [done|]. by apply Forall_singleton.
Qed.

Lemma step_signed a m m' :
  step a m = Some m' →
  Forall task_signed (tasks m) ∧ store_signed (cryptoStore m) ∧
    commits_signed (events m) →
  Forall task_signed (tasks m') ∧ store_signed (cryptoStore m') ∧
    commits_signed (events m').
Proof.
  intros Hs (Ht & Hst & He). destruct a as [us|us b|t r]; simpl in Hs.
  - injection Hs as <-.
    destruct (updateUsersDeviceLists_signed us m Ht He) as (? & -> & ?). done.
  - injection Hs as <-. simpl. split_and!; [|done..].
    apply Forall_app. split; [done|]. by apply Forall_singleton.
  - apply resume_inv in Hs
      as [(us & hs & _ & _ & _ & ->)|[(us & hs & _ & _ & _ & ->)|
          [(us & _ & _ & ->)|[(us & p & e & st & log & e' & Hk & _ & Hx & ->)|
          [(us & b & m1 & _ & _ & -> & ->)|(us & b & _ & _ & ->)]]]]];
      simpl.
    + split_and!; [by apply Forall_insert|done|].
      apply commits_signed_app; [done|].
      intros u ds [?|Hin]%elem_of_cons; [done|].
      by apply list_elem_of_fmap in Hin as (? & ? & _).
    + split_and!; [by apply Forall_insert|done..].
    + split_and!; [by apply Forall_insert|done..].
    + pose proof (Forall_lookup_1 _ _ _ _ Ht Hk) as Hf. simpl in Hf.
      destruct (resume_exec_signed _ _ _ _ _ _ Hf Hst Hx) as (Hf' & Hst' & Hlog).
      split_and!; [by apply Forall_insert|done|].
      apply commits_signed_app; [done|].
      apply commits_signed_app; [done|].
      intros u ds Hin. destruct (is_resolved e').
      * by apply list_elem_of_singleton in Hin.
      * by apply elem_of_nil in Hin.
    + assert (commits_signed (events m ++ [EvFlagUsersOutdated us])) as He'.
      { apply commits_signed_app; [done|].
        intros u ds Hin. by apply list_elem_of_singleton in Hin. }
      destruct b; [|simpl; split_and!; [by apply Forall_insert|done..]].
      match goal with
      | |- context [updateUsersDeviceLists us ?m1] =>
          destruct (updateUsersDeviceLists_signed us m1) as (? & -> & ?)
      end; simpl; [by apply Forall_insert|done|done].
    + split_and!; [by apply Forall_insert|done..].
Qed.

Lemma run_signed acts m m' :
  run acts m = Some m' →
  Forall task_signed (tasks m) ∧ store_signed (cryptoStore m) ∧
    commits_signed (events m) →
  Forall task_signed (tasks m') ∧ store_signed (cryptoStore m') ∧
    commits_signed (events m').
Proof.
  revert m. induction acts as [|a acts IH]; intros m; simpl.
  { by intros [= <-]. }
  destruct (step a m) as [m1|] eqn:Hs; [|done].
  intros Hrun Hinv. apply (IH m1 Hrun). by eapply step_signed.
Qed.

(** X8.  Whatever calls are made and in whatever order they are resumed, with
    collaborators that resolve or throw: when the store began with devices
    that carry their user's id, both keys and a signature of their own that
    the verifier accepts, it holds such devices only ever after, and every
    commit is of such devices. *)
Theorem stored_devices_are_self_signed st acts m userId d :
  store_signed st →
  run acts (new_tracker st) = Some m →
  d ∈ getUserDevices (cryptoStore m) userId ∨
  (∃ devices, EvSetUserDevices userId devices ∈ events m ∧ d ∈ devices) →
  user_id d = userId ∧
  ∃ ed25519 curve25519 signature,
    keys d !! key_label Ed25119 (device_id d) = Some ed25519 ∧
    ed25519 ≠ EmptyString ∧
    keys d !! key_label Curve25519 (device_id d) = Some curve25519 ∧
    curve25519 ≠ EmptyString ∧
    self_signature userId (device_id d) d = Some signature ∧
    signature ≠ EmptyString ∧
    verifySignature d ed25519 signature = true.
Proof.
  intros Hst Hrun Hd.
  destruct (run_signed acts (new_tracker st) m Hrun) as (_ & Hst' & He').
  { split_and!; [constructor|done|]. intros ? ? H. by apply elem_of_nil in H. }
  assert (self_signed userId d) as (ed & sg & Hc & Hs & Hne & Hv).
  { destruct Hd as [Hd|(devices & Hin & Hd)].
    - unfold getUserDevices in Hd.
      destruct (cryptoStore m !! userId) as [l|] eqn:Hl; simpl in Hd.
      + pose proof (Hst' _ _ Hl) as Hall. rewrite Forall_forall in Hall. eauto.
      + by apply elem_of_nil in Hd.
    - pose proof (He' _ _ Hin) as Hall. rewrite Forall_forall in Hall. eauto. }
  apply check_claim_inr in Hc as (Hu & _ & He & Hene & c & Hcv & Hcne).
  split; [done|]. by exists ed, c, sg.
Qed.

(** ** A collaborator that throws *)

(** X9.  Nothing catches what the directory, the store or the verifier throws
    inside the promise's executor, at whichever [await] it is: the pass stops there
    with nothing undone, what it has committed for earlier users stays, the
    promise stays pending and the call is never resumed again. *)
Theorem collaborator_failure_never_settles m t userIds e acts m' :
  tasks m !! t = Some (Updating userIds Pending e) →
  awaiting e = true →
  run (Resume t Threw :: acts) m = Some m' →
  (∃ m1, step (Resume t Threw) m = Some m1 ∧ run acts m1 = Some m' ∧
         cryptoStore m1 = cryptoStore m ∧ events m1 = events m ∧
         deviceListUpdates m1 = deviceListUpdates m) ∧
  tasks m' !! t = Some (Updating userIds Pending Crashed) ∧
  promise_state m' t = Some Pending ∧
  (∀ r, step (Resume t r) m' = None).
Proof.
  intros Ht He Hrun.
  assert (is_resolved e = false) as Hnr by by destruct e.
  assert (resume_exec (cryptoStore m) e Threw = Some (cryptoStore m, [], Crashed))
    as Hx by by destruct e.
  simpl in Hrun. rewrite (resume_updating _ _ _ _ _ _ Ht Hnr), Hx in Hrun.
  simpl in Hrun.
  match type of Hrun with
  | run acts ?m1 = _ =>
      assert (tasks m1 !! t = Some (Updating userIds Pending Crashed)) as Ht1
  end.
  { simpl. apply list_lookup_insert_eq. by eapply lookup_lt_Some. }
  pose proof (crashed_forever _ _ _ _ _ _ Ht1 Hrun) as Ht'.
  split_and!.
  - eexists. simpl. rewrite (resume_updating _ _ _ _ _ _ Ht Hnr), Hx. simpl.
    split_and!; [done|exact Hrun|done| |done].
    simpl. by rewrite app_nil_r.
  - done.
  - unfold promise_state. by rewrite Ht'.
  - intros r. simpl. by eapply resume_crashed.
Qed.

Lemma resume_flag_failed m t r :
  tasks m !! t = Some FlagFailed → resume t r m = None.
Proof. intros H. unfold resume. by rewrite H. Qed.

Lemma flag_failed_forever acts m m' t :
  tasks m !! t = Some FlagFailed → run acts m = Some m' →
  tasks m' !! t = Some FlagFailed.
Proof.
  revert m. induction acts as [|a acts IH]; intros m Ht; simpl.
  { by intros [= <-]. }
  destruct (step a m) as [m1|] eqn:Hs; [|done].
  intros Hr. apply (IH m1); [|done].
  eapply step_other; [done..|]. intros r ->. simpl in Hs.
  by rewrite (resume_flag_failed _ _ _ Ht) in Hs.
Qed.

(** X10.  When the store throws at line 21, the call of [flagUsersOutdated]
    rejects for good, and line 22 is not reached: no user is flagged, no
    call of [updateUsersDeviceLists] is made, whatever [resync] says. *)
Theorem flag_store_failure_rejects m t userIds resync acts m' :
  tasks m !! t = Some (Flagging userIds resync) →
  run (Resume t Threw :: acts) m = Some m' →
  (∃ m1, step (Resume t Threw) m = Some m1 ∧ run acts m1 = Some m' ∧
         outdated m1 = outdated m ∧
         tasks m1 = <[t := FlagFailed]> (tasks m) ∧
         events m1 = events m ∧
         deviceListUpdates m1 = deviceListUpdates m) ∧
  ∃ k, tasks m' !! t = Some k ∧ outcome k = Rejected.
Proof.
  intros Ht Hrun. simpl in Hrun. unfold resume in Hrun. rewrite Ht in Hrun.
  split.
  - eexists. simpl. unfold resume. rewrite Ht. by split_and!.
  - exists FlagFailed. split; [|done].
    eapply flag_failed_forever; [|exact Hrun].
    simpl. apply list_lookup_insert_eq. by eapply lookup_lt_Some.
Qed.

(** X11.  A call of [updateUsersDeviceLists] never rejects, whatever its
    collaborators do: the only call of the tracker that ever rejects is a
    call of [flagUsersOutdated] whose store threw. *)
Theorem only_flagging_rejects m t k :
  reachable m → tasks m !! t = Some k → outcome k = Rejected →
  k = FlagFailed.
Proof.
  intros Hr Ht Ho. destruct k; try done.
  by apply (reachable_never_aborted m t) in Hr.
Qed.

(** ** The registry *)

Lemma step_registry a m m' u :
  step a m = Some m' →
  is_Some (deviceListUpdates m !! u) → is_Some (deviceListUpdates m' !! u).
Proof.
  assert (∀ m0 us, is_Some (deviceListUpdates m0 !! u) →
            is_Some (deviceListUpdates (updateUsersDeviceLists us m0) !! u))
    as Hcall.
  { intros m0 us H. destruct (existing_promises m0 us) as [|h hs] eqn:Hx.
    - rewrite updateUsersDeviceLists_starting by done. simpl.
      rewrite register_lookup. by case_bool_decide.
    - by rewrite updateUsersDeviceLists_waiting by congruence. }
  intros Hs Hu. destruct a as [us|us b|t r]; simpl in Hs.
  - injection Hs as <-. by apply Hcall.
  - by injection Hs as <-.
  - apply resume_inv in Hs
      as [(us & hs & _ & _ & _ & ->)|[(us & hs & _ & _ & _ & ->)|
          [(us & _ & _ & ->)|[(us & p & e & st & log & e' & _ & _ & _ & ->)|
          [(us & b & m1 & _ & _ & -> & ->)|(us & b & _ & _ & ->)]]]]];
      simpl; try done.
    + rewrite register_lookup. by case_bool_decide.
    + destruct b; [by apply Hcall|done].
Qed.

(** X12.  Nothing is ever taken out of the registry.  Once a user has an entry,
    however long ago the pass behind it ended, every later call that names
    the user suspends at line 40 before it calls the directory. *)
Theorem registry_never_forgets m acts m' u userIds :
  is_Some (deviceListUpdates m !! u) →
  run acts m = Some m' →
  u ∈ userIds →
  is_Some (deviceListUpdates m' !! u) ∧
  existing_promises m' userIds ≠ [] ∧
  updateUsersDeviceLists userIds m'
  = {| deviceListUpdates := deviceListUpdates m';
       cryptoStore := cryptoStore m';
       outdated := outdated m';
       tasks := tasks m' ++ [Waiting userIds (existing_promises m' userIds)];
       events := events m' |}.
Proof.
  intros Hu Hrun Hin.
  assert (is_Some (deviceListUpdates m' !! u)) as [h Hh].
  { revert m Hu Hrun. induction acts as [|a acts IH]; intros m Hu; simpl.
    { by intros [= <-]. }
    destruct (step a m) as [m1|] eqn:Hs; [|done].
    apply IH. by eapply step_registry. }
  assert (existing_promises m' userIds ≠ []) as Hne.
  { intros Hnil. assert (h ∈ existing_promises m' userIds) as Hmem.
    { apply list_elem_of_omap. by exists u. }
    rewrite Hnil in Hmem. by apply elem_of_nil in Hmem. }
  split_and!; [by exists h|done|]. by apply updateUsersDeviceLists_waiting.
Qed.

(** X13.  Two calls that waited at line 40 and find the promises they waited for
    fulfilled both go on to line 43, one after the other: the second does
    not look at the registry again, so both passes are under way at once
    and the registry is left with the second under the users they share. *)
Theorem waiting_calls_fetch_side_by_side m t1 userIds1 hs1 t2 userIds2 hs2 :
  tasks m !! t1 = Some (Waiting userIds1 hs1) →
  tasks m !! t2 = Some (Waiting userIds2 hs2) →
  t1 ≠ t2 →
  (∀ h, h ∈ hs1 ++ hs2 → promise_state m h = Some Fulfilled) →
  ∃ m', run [Resume t1 Ok; Resume t2 Ok] m = Some m' ∧
    tasks m' !! t1 = Some (Updating userIds1 Pending AwaitFetch) ∧
    tasks m' !! t2 = Some (Updating userIds2 Pending AwaitFetch) ∧
    events m' = events m
      ++ (EvFetch t1 userIds1 :: map (λ u, EvRegister u t1) userIds1)
      ++ (EvFetch t2 userIds2 :: map (λ u, EvRegister u t2) userIds2) ∧
    (∀ u, u ∈ userIds2 → deviceListUpdates m' !! u = Some t2) ∧
    (∀ u, u ∈ userIds1 → u ∉ userIds2 → deviceListUpdates m' !! u = Some t1).
Proof.
  intros Ht1 Ht2 Hne Hful.
  assert (t1 < length (tasks m)) as Hlt1 by by eapply lookup_lt_Some.
  assert (t2 < length (tasks m)) as Hlt2 by by eapply lookup_lt_Some.
  assert (step (Resume t1 Ok) m = Some (start_pass m t1 userIds1)) as Hs1.
  { apply (fulfilled_wait_proceeds _ _ _ hs1 Ht1).
    intros h Hh. apply Hful, elem_of_app. by left. }
  assert (tasks (start_pass m t1 userIds1) !! t2 = Some (Waiting userIds2 hs2))
    as Ht2'.
  { simpl. by rewrite list_lookup_insert_ne. }
  assert (step (Resume t2 Ok) (start_pass m t1 userIds1)
          = Some (start_pass (start_pass m t1 userIds1) t2 userIds2)) as Hs2.
  { apply (fulfilled_wait_proceeds _ _ _ hs2 Ht2').
    intros h Hh.
    assert (promise_state m h = Some Fulfilled) as Hp
      by (apply Hful, elem_of_app; by right).
    unfold promise_state in *. simpl.
    destruct (decide (h = t1)) as [->|Hh1].
    - by rewrite Ht1 in Hp.
    - by rewrite list_lookup_insert_ne. }
  eexists. split.
  { unfold run. rewrite Hs1, Hs2. done. }
  simpl. split_and!.
  - rewrite list_lookup_insert_ne by done. by apply list_lookup_insert_eq.
  - apply list_lookup_insert_eq. by rewrite length_insert.
  - by rewrite <- app_assoc.
  - intros u Hu. rewrite register_lookup. by rewrite bool_decide_eq_true_2.
  - intros u Hu Hnu. rewrite register_lookup, bool_decide_eq_false_2 by done.
    rewrite register_lookup. by rewrite bool_decide_eq_true_2.
Qed.

(** ** A call and its own pass *)

Lemma task_ran_mono evs l t k : task_ran evs t k → task_ran (evs ++ l) t k.
Proof.
  destruct k; simpl; try done.
  - intros [H1 H2]. split; [|intros Hp]; apply elem_of_app; left; auto.
  - intros [[us H1] H2]. split; [exists us|]; apply elem_of_app; by left.
Qed.

Lemma all_ran_insert ts evs l t k :
  all_ran ts evs → task_ran (evs ++ l) t k → all_ran (<[t := k]> ts) (evs ++ l).
Proof.
  intros Hall Hk t' k' Hl.
  destruct (decide (t' = t)) as [->|Hne].
  - apply list_lookup_insert_Some in Hl as [(_ & <- & _)|[? _]]; done.
  - rewrite list_lookup_insert_ne in Hl by done.
    by apply task_ran_mono, Hall.
Qed.

Lemma all_ran_same ts evs t k :
  all_ran ts evs → task_ran evs t k → all_ran (<[t := k]> ts) evs.
Proof.
  intros Hall Hk. rewrite <- (app_nil_r evs).
  apply all_ran_insert; [done|]. by rewrite app_nil_r.
Qed.

Lemma all_ran_snoc ts evs k :
  all_ran ts evs → task_ran evs (length ts) k → all_ran (ts ++ [k]) evs.
Proof.
  intros Hall Hk t' k' Hl.
  apply lookup_snoc_Some in Hl as [[_ Hl]|[Ht Hk']]; [by apply Hall|].
  by subst.
Qed.

Lemma all_ran_start m t userIds :
  all_ran (tasks m) (events m) →
  all_ran (tasks (start_pass m t userIds)) (events (start_pass m t userIds)).
Proof.
  intros Hall. simpl. apply all_ran_insert; [done|]. simpl.
  split; [|done]. apply elem_of_app. right. left.
Qed.

Lemma all_ran_call userIds m :
  all_ran (tasks m) (events m) →
  all_ran (tasks (updateUsersDeviceLists userIds m))
          (events (updateUsersDeviceLists userIds m)).
Proof.
  intros Hall. unfold updateUsersDeviceLists.
  case_bool_decide.
  - simpl. by apply all_ran_snoc.
  - apply all_ran_start. simpl. by apply all_ran_snoc.
Qed.

Lemma step_all_ran a m m' :
  step a m = Some m' →
  all_ran (tasks m) (events m) → all_ran (tasks m') (events m').
Proof.
  intros Hs Hall. destruct a as [us|us b|t r]; simpl in Hs.
  - injection Hs as <-. by apply all_ran_call.
  - injection Hs as <-. simpl. by apply all_ran_snoc.
  - apply resume_inv in Hs
      as [(us & hs & _ & _ & _ & ->)|[(us & hs & _ & _ & _ & ->)|
          [(us & Hk & _ & ->)|[(us & p & e & st & log & e' & Hk & _ & _ & ->)|
          [(us & b & m1 & _ & _ & -> & ->)|(us & b & _ & _ & ->)]]]]].
    + by apply all_ran_start.
    + simpl. by apply all_ran_same.
    + simpl. apply all_ran_same; [done|].
      destruct (Hall _ _ Hk) as [Hf Hr]. simpl. split; [by exists us|by apply Hr].
    + simpl. apply all_ran_insert; [done|].
      destruct (Hall _ _ Hk) as [Hf Hr]. simpl. split.
      * apply elem_of_app. by left.
      * destruct (is_resolved e').
        -- intros _. rewrite !elem_of_app. right. right. left.
        -- intros Hp. apply elem_of_app. left. by apply Hr.
    + assert (all_ran (<[t := Flagged]> (tasks m))
                (events m ++ [EvFlagUsersOutdated us])) as Hall'
        by by apply all_ran_insert.
      destruct b; [by apply all_ran_call|done].
    + simpl. by apply all_ran_same.
Qed.

Lemma reachable_all_ran m : reachable m → all_ran (tasks m) (events m).
Proof.
  intros (st & acts & Hrun). revert Hrun.
  assert (all_ran (tasks (new_tracker st)) (events (new_tracker st))) as H0
    by by intros ? ? ?.
  revert H0. generalize (new_tracker st).
  induction acts as [|a acts IH]; intros m0 H0; simpl.
  { by intros [= <-]. }
  destruct (step a m0) as [m1|] eqn:Hs; [|done].
  apply IH. by eapply step_all_ran.
Qed.

(** X14.  A call of [updateUsersDeviceLists] that has returned has called the
    directory itself and has run its own pass to [resolve()]: waiting for
    another call's promise at line 40 never stands in for it. *)
Theorem returned_call_ran_its_own_pass m t :
  reachable m → tasks m !! t = Some Returned →
  (∃ userIds, EvFetch t userIds ∈ events m) ∧ EvResolve t ∈ events m.
Proof. intros Hr Ht. exact (reachable_all_ran m Hr _ _ Ht). Qed.

Lemma promise_all_fulfilled_inv m hs h :
  promise_all m hs = Fulfilled → h ∈ hs → promise_state m h = Some Fulfilled.
Proof.
  unfold promise_all. destruct (existsb _ _); [done|].
  destruct (forallb (is_fulfilled m) hs) eqn:Hall; [|done].
  intros _ Hh. rewrite forallb_forall in Hall.
  apply list_elem_of_In, Hall in Hh. unfold is_fulfilled in Hh.
  by destruct (promise_state m h) as [[]|].
Qed.

(** X15.  A call suspended at line 40 is resumed only when every promise it
    found in the registry is fulfilled: it goes on to call the directory
    after each of those passes has called [resolve()], and in no other
    way. *)
Theorem wait_outlasts_awaited_passes m t userIds hs r m' :
  reachable m →
  tasks m !! t = Some (Waiting userIds hs) →
  step (Resume t r) m = Some m' →
  r = Ok ∧ m' = start_pass m t userIds ∧
  ∀ h, h ∈ hs → promise_state m h = Some Fulfilled ∧ EvResolve h ∈ events m.
Proof.
  intros Hr Ht Hs. simpl in Hs.
  apply resume_inv in Hs
    as [(us & hs' & Hk & -> & Hall & ->)|[(us & hs' & Hk & _ & Hall & _)|
        [(us & Hk & _)|[(us & p & e & st & log & e' & Hk & _)|
        [(us & b & m1 & Hk & _)|(us & b & Hk & _)]]]]];
    rewrite Ht in Hk; try done.
  - injection Hk as <- <-. split_and!; [done..|].
    intros h Hh. pose proof (promise_all_fulfilled_inv _ _ _ Hall Hh) as Hp.
    split; [done|]. unfold promise_state in Hp.
    destruct (tasks m !! h) as [k|] eqn:Hl; [|done].
    pose proof (reachable_all_ran m Hr _ _ Hl) as Hran.
    destruct k; try done; simpl in *.
    + injection Hp as ->. by apply Hran.
    + apply Hran.
  - injection Hk as <- <-. exfalso.
    by apply (promise_all_never_rejected m hs (reachable_never_rejected m Hr)).
Qed.

(** ** One stored device for each device id *)

Lemma validated_ids_sublist st userId todo :
  device_id <$> (validate_claims st userId todo []).1 `sublist_of` todo.*1.
Proof.
  rewrite validate_claims_validated. simpl.
  induction todo as [|[deviceId device] todo IH]; [done|].
  change (omap ?f ((deviceId, device) :: todo))
    with (match f (deviceId, device) with
          | Some w => w :: omap f todo
          | None => omap f todo
          end).
  cbn [fst snd]. rewrite fmap_cons. cbn [fst].
  destruct (accepts (getUserDevices st userId) userId deviceId device) eqn:Ha.
  - apply accepts_spec in Ha as (_ & Hid & _).
    rewrite fmap_cons, Hid. by apply sublist_skip.
  - by apply sublist_cons.
Qed.

Lemma existing_device_distinct (l : list UserDevice) d :
  NoDup (device_id <$> l) → d ∈ l → existing_device l (device_id d) = Some d.
Proof.
  unfold existing_device.
  induction l as [|a l IH]; intros Hnd Hd; [by apply elem_of_nil in Hd|].
  rewrite fmap_cons in Hnd. apply NoDup_cons in Hnd as [Hnot Hnd].
  simpl. apply elem_of_cons in Hd as [->|Hd].
  - by rewrite bool_decide_eq_true_2.
  - rewrite bool_decide_eq_false_2; [by apply IH|].
    intros Heq. apply Hnot. rewrite Heq. apply list_elem_of_fmap. by exists d.
Qed.

(** X16.  A completed pass leaves a user of the response with at most one device
    for each device id, so that the lookup of line 63 in a later pass finds
    the stored device itself, never another one of the same id before it. *)
Theorem stored_device_ids_are_distinct m t userIds resp m' userId cl :
  tasks m !! t = Some (Updating userIds Pending AwaitFetch) →
  completes_alone m t resp m' →
  resp !! userId = Some cl →
  NoDup (device_id <$> getUserDevices (cryptoStore m') userId) ∧
  ∀ d, d ∈ getUserDevices (cryptoStore m') userId →
       existing_device (getUserDevices (cryptoStore m') userId) (device_id d)
       = Some d.
Proof.
  intros Ht Hdone Hresp.
  destruct (completes_alone_spec m t userIds resp Ht) as [_ Hspec].
  destruct (Hspec m' Hdone) as (-> & _).
  assert (NoDup (device_id <$>
                 getUserDevices (run_pass (cryptoStore m) resp).1 userId))
    as Hnd.
  { unfold getUserDevices. rewrite (run_pass_commit _ _ _ _ Hresp). simpl.
    eapply sublist_NoDup; [|apply validated_ids_sublist].
    apply NoDup_fst_map_to_list. }
  split; [done|]. intros d Hd. by apply existing_device_distinct.
Qed.

(** ** The pin in a pass on its own *)

(** X17.  For a pass resumed on its own from the directory's answer to its
    end, the pin is the device stored when the pass starts.  While a device
    is stored for [(userId, deviceId)], a pass commits
    for that pair no device with another Ed25519 key: a claim with another
    key is rejected whatever the verifier says of its signature, no device is
    left under that id, and whatever is committed under the id carries the
    stored key. *)
Theorem key_pinned_while_stored m t userIds resp m' userId cl deviceId
    existingDevice :
  tasks m !! t = Some (Updating userIds Pending AwaitFetch) →
  completes_alone m t resp m' →
  resp !! userId = Some cl →
  existing_device (getUserDevices (cryptoStore m) userId) deviceId
    = Some existingDevice →
  (∀ device,
     cl !! deviceId = Some device →
     keys device !! key_label Ed25119 deviceId
       ≠ keys existingDevice !! key_label Ed25119 deviceId →
     accepts (getUserDevices (cryptoStore m) userId) userId deviceId device
       = false ∧
     ∀ d, d ∈ getUserDevices (cryptoStore m') userId → device_id d ≠ deviceId) ∧
  (∀ d, d ∈ getUserDevices (cryptoStore m') userId →
        device_id d = deviceId →
        keys d !! key_label Ed25119 deviceId
        = keys existingDevice !! key_label Ed25119 deviceId).
Proof.
  intros Ht Hdone Hresp Hold.
  destruct (completes_alone_spec m t userIds resp Ht) as [_ Hspec].
  destruct (Hspec m' Hdone) as (-> & _).
  by apply run_pass_pins.
Qed.

End Tracker.

(** * The claims on sample runs *)

(** Both sides are closed: evaluate and compare. *)
Ltac by_evaluation := vm_compute; reflexivity.

(** The scenarios of the specification's section 8, pass by pass. *)
Example first_use_commits :
  getUserDevices (run_pass always_valid ∅ answer_E1).1 alice = [phone_E1].
Proof. by_evaluation. Qed.

Example same_key_kept :
  getUserDevices (run_pass always_valid trusting_store answer_E1).1 alice
  = [phone_E1].
Proof. by_evaluation. Qed.

Example changed_key_empties :
  getUserDevices (run_pass always_valid trusting_store answer_E2).1 alice = [] ∧
  (run_pass always_valid trusting_store answer_E2).2
  = [EvWarn (compromised_warning alice "PHONE"); EvSetUserDevices alice []].
Proof. split; by_evaluation. Qed.

Example replacement_drops :
  getUserDevices (run_pass always_valid trusting_store answer_laptop).1 alice
  = [laptop].
Proof. by_evaluation. Qed.

(** The state in which [acts] leave [m]. *)
Ltac left_as m' acts m :=
  let r := eval vm_compute in (run always_valid acts m) in
  match r with Some ?x => pose (m' := x) end.

(** C1 as worded fails.  A first call is answered Alice's phone with key
    E1 and commits it.  A second call is answered the phone with key E2: the
    claim is rejected, and the commit leaves Alice without devices, so
    without pin.  A third call is answered the same: the phone is trusted on
    first use, with key E2. *)
Lemma pin_lost_after_rejection :
  ∃ m1 m2 m3,
    run always_valid
      [CallUpdate [alice]; Resume 0 (Devices answer_E1);
       Resume 0 Ok; Resume 0 Ok; Resume 0 Ok; Resume 0 Ok]
      (new_tracker ∅) = Some m1 ∧
    run always_valid
      [CallUpdate [alice]; Resume 1 Ok; Resume 1 (Devices answer_E2);
       Resume 1 Ok; Resume 1 Ok; Resume 1 Ok] m1 = Some m2 ∧
    run always_valid
      [CallUpdate [alice]; Resume 2 Ok; Resume 2 (Devices answer_E2);
       Resume 2 Ok; Resume 2 Ok; Resume 2 Ok; Resume 2 Ok] m2 = Some m3 ∧
    stored_key (cryptoStore m1) alice "PHONE" = Some "E1" ∧
    stored_key (cryptoStore m2) alice "PHONE" = None ∧
    stored_key (cryptoStore m3) alice "PHONE" = Some "E2" ∧
    outcome <$> tasks m3 = [Fulfilled; Fulfilled; Fulfilled] ∧
    ¬ pinned_for_good always_valid.
Proof.
  left_as m1 [CallUpdate [alice]; Resume 0 (Devices answer_E1);
              Resume 0 Ok; Resume 0 Ok; Resume 0 Ok; Resume 0 Ok]
    (new_tracker ∅).
  left_as m2 [CallUpdate [alice]; Resume 1 Ok; Resume 1 (Devices answer_E2);
              Resume 1 Ok; Resume 1 Ok; Resume 1 Ok] m1.
  left_as m3 [CallUpdate [alice]; Resume 2 Ok; Resume 2 (Devices answer_E2);
              Resume 2 Ok; Resume 2 Ok; Resume 2 Ok; Resume 2 Ok] m2.
  exists m1, m2, m3.
  split_and!; [by_evaluation..|].
  intros H.
  assert ("E2" = "E1") as Habs; [|discriminate Habs].
  apply (H ∅
           [CallUpdate [alice]; Resume 0 (Devices answer_E1);
            Resume 0 Ok; Resume 0 Ok; Resume 0 Ok; Resume 0 Ok]
           m1
           [CallUpdate [alice]; Resume 1 Ok; Resume 1 (Devices answer_E2);
            Resume 1 Ok; Resume 1 Ok; Resume 1 Ok;
            CallUpdate [alice]; Resume 2 Ok; Resume 2 (Devices answer_E2);
            Resume 2 Ok; Resume 2 Ok; Resume 2 Ok; Resume 2 Ok]
           m3 alice "PHONE"); by_evaluation.
Qed.

(** The pin does not hold either between passes under way at once.  Two
    calls wait for a first pass and start their own when it has ended; both
    get the store's answer at line 62 while it holds nothing for Alice; the
    first commits her phone with key E1, and the second then commits it
    with key E2 in its place. *)
Example pin_overwritten_by_a_pass_under_way :
  ∃ m m',
    run always_valid
      [CallUpdate [alice]; CallUpdate [alice]; CallUpdate [alice];
       Resume 0 (Devices ∅); Resume 1 Ok; Resume 2 Ok;
       Resume 1 (Devices answer_E1); Resume 2 (Devices answer_E2);
       Resume 1 Ok; Resume 2 Ok; Resume 1 Ok; Resume 2 Ok; Resume 1 Ok]
      (new_tracker ∅) = Some m ∧
    step always_valid (Resume 2 Ok) m = Some m' ∧
    stored_key (cryptoStore m) alice "PHONE" = Some "E1" ∧
    stored_key (cryptoStore m') alice "PHONE" = Some "E2".
Proof.
  left_as m [CallUpdate [alice]; CallUpdate [alice]; CallUpdate [alice];
             Resume 0 (Devices ∅); Resume 1 Ok; Resume 2 Ok;
             Resume 1 (Devices answer_E1); Resume 2 (Devices answer_E2);
             Resume 1 Ok; Resume 2 Ok; Resume 1 Ok; Resume 2 Ok; Resume 1 Ok]
    (new_tracker ∅).
  left_as m' [Resume 2 Ok] m.
  exists m, m'. split_and!; by_evaluation.
Qed.

(** The state in which the pass of call [t] of [m], answered [resp], ends
    after [n] more resumes. *)
Ltac ended_as m' n m t resp :=
  let r := eval vm_compute in
    (run always_valid (Resume t (Devices resp) :: replicate n (Resume t Ok)) m) in
  match r with Some ?x => pose (m' := x) end.

(** Alice's phone is stored with key E1 and claimed with key E2; another
    call is made before the pass gets to its commit. *)
Lemma key_pinned_at_the_read_witness :
  ∃ m m' m'',
    run always_valid
      [CallUpdate [alice; bob]; Resume 0 (Devices answer_both);
       Resume 0 Ok; Resume 0 Ok] (new_tracker trusting_store) = Some m ∧
    stored_key (cryptoStore m) alice "PHONE" = Some "E1" ∧
    run always_valid [Resume 0 Ok; CallUpdate [bob]] m = Some m' ∧
    tasks m' !! 0
    = Some (Updating [alice; bob] Pending
              (AwaitSetUserDevices [(bob, {[ "PHONE" := bobs_phone ]})] alice
                 [laptop])) ∧
    step always_valid (Resume 0 Ok) m' = Some m'' ∧
    getUserDevices (cryptoStore m'') alice = [laptop].
Proof.
  left_as m [CallUpdate [alice; bob]; Resume 0 (Devices answer_both);
             Resume 0 Ok; Resume 0 Ok] (new_tracker trusting_store).
  left_as m' [Resume 0 Ok; CallUpdate [bob]] m.
  assert (tasks m' !! 0
          = Some (Updating [alice; bob] Pending
                    (AwaitSetUserDevices [(bob, {[ "PHONE" := bobs_phone ]})]
                       alice [laptop]))) as Hset by by_evaluation.
  let r := eval vm_compute in (tasks m !! 0) in
  match r with
  | Some (Updating _ _ (AwaitGetUserDevices ?k ?ed)) =>
      destruct (key_pinned_at_the_read always_valid m 0 [alice; bob] Pending
                  k ed phone_E1 [CallUpdate [bob]] m')
        as (_ & _ & H)
  end.
  - exists trusting_store,
      [CallUpdate [alice; bob]; Resume 0 (Devices answer_both);
       Resume 0 Ok; Resume 0 Ok].
    by_evaluation.
  - by_evaluation.
  - by_evaluation.
  - vm_compute. discriminate.
  - by_evaluation.
  - destruct (H [alice; bob] Pending alice [laptop]) as (_ & _ & m'' & Hs & _ & Hst).
    { exact Hset. }
    exists m, m', m''.
    split; [by_evaluation|]. split; [by_evaluation|]. split; [by_evaluation|].
    split; [exact Hset|]. split; [exact Hs|exact Hst].
Defined.

Lemma commit_is_full_replacement_witness :
  ∃ m',
    completes_alone always_valid
      (updateUsersDeviceLists [alice] (new_tracker trusting_store)) 0
      answer_laptop m' ∧
    ∀ d, d ∈ getUserDevices (cryptoStore m') alice → device_id d ≠ "PHONE".
Proof.
  ended_as m' 3 (updateUsersDeviceLists [alice] (new_tracker trusting_store))
    0 answer_laptop.
  assert (completes_alone always_valid
            (updateUsersDeviceLists [alice] (new_tracker trusting_store))
            0 answer_laptop m') as Hdone.
  { exists 3. split; by_evaluation. }
  exists m'. split; [exact Hdone|].
  destruct (commit_is_full_replacement always_valid
              (updateUsersDeviceLists [alice] (new_tracker trusting_store))
              0 [alice] answer_laptop m' alice {[ "LAPTOP" := laptop ]})
    as (_ & _ & H); [by_evaluation|exact Hdone|by_evaluation|].
  apply H. intros device Hd. vm_compute in Hd. discriminate Hd.
Defined.

Lemma mismatched_identity_excluded_witness :
  ∃ m',
    completes_alone always_valid
      (updateUsersDeviceLists [alice] (new_tracker ∅)) 0 answer_lying m' ∧
    user_id bobs_phone ≠ alice ∧
    accepts always_valid (getUserDevices ∅ alice) alice "PHONE" bobs_phone = false ∧
    ∀ d, d ∈ getUserDevices (cryptoStore m') alice → device_id d ≠ "PHONE".
Proof.
  ended_as m' 1 (updateUsersDeviceLists [alice] (new_tracker ∅)) 0 answer_lying.
  assert (completes_alone always_valid
            (updateUsersDeviceLists [alice] (new_tracker ∅)) 0 answer_lying m')
    as Hdone.
  { exists 1. split; by_evaluation. }
  exists m'. split; [exact Hdone|].
  assert (user_id bobs_phone ≠ alice) as Hne by (vm_compute; discriminate).
  split; [exact Hne|].
  destruct (mismatched_identity_excluded always_valid
              (updateUsersDeviceLists [alice] (new_tracker ∅))
              0 [alice] answer_lying m' alice {[ "PHONE" := bobs_phone ]}
              "PHONE" bobs_phone)
    as (H1 & _ & H3 & _);
    [by_evaluation|exact Hdone|by_evaluation|by_evaluation|by left|].
  split; [exact H1|exact H3].
Defined.

Lemma incomplete_keys_excluded_witness :
  ∃ m',
    completes_alone always_valid
      (updateUsersDeviceLists [alice] (new_tracker ∅)) 0 answer_keyless m' ∧
    keys keyless_phone !! key_label Curve25519 "PHONE" = None ∧
    accepts always_valid (getUserDevices ∅ alice) alice "PHONE" keyless_phone
      = false ∧
    ∀ d, d ∈ getUserDevices (cryptoStore m') alice → device_id d ≠ "PHONE".
Proof.
  ended_as m' 1 (updateUsersDeviceLists [alice] (new_tracker ∅)) 0 answer_keyless.
  assert (completes_alone always_valid
            (updateUsersDeviceLists [alice] (new_tracker ∅)) 0 answer_keyless m')
    as Hdone.
  { exists 1. split; by_evaluation. }
  exists m'. split; [exact Hdone|].
  assert (keys keyless_phone !! key_label Curve25519 "PHONE" = None) as Hmiss
    by by_evaluation.
  split; [exact Hmiss|].
  destruct (incomplete_keys_excluded always_valid
              (updateUsersDeviceLists [alice] (new_tracker ∅))
              0 [alice] answer_keyless m' alice {[ "PHONE" := keyless_phone ]}
              "PHONE" keyless_phone)
    as (H1 & _ & H3);
    [by_evaluation|exact Hdone|by_evaluation|by_evaluation|by right|].
  split; [exact H1|exact H3].
Defined.

Lemma trust_on_first_use_witness :
  existing_device (getUserDevices ∅ alice) "PHONE" = None ∧
  accepts always_valid (getUserDevices ∅ alice) alice "PHONE" phone_E1 = true ∧
  ∃ m',
    completes_alone always_valid
      (updateUsersDeviceLists [alice] (new_tracker ∅)) 0 answer_E1 m' ∧
    phone_E1 ∈ getUserDevices (cryptoStore m') alice.
Proof.
  split; [by_evaluation|].
  destruct (trust_on_first_use always_valid
              (updateUsersDeviceLists [alice] (new_tracker ∅))
              0 [alice] answer_E1 alice {[ "PHONE" := phone_E1 ]}
              "PHONE" phone_E1 "E1" "X1" "S1")
    as (H1 & [m' Hm'] & H3);
    [by_evaluation|by_evaluation|by_evaluation|by_evaluation|by_evaluation
    |by_evaluation|by_evaluation|discriminate|by_evaluation|discriminate
    |by_evaluation|discriminate|by_evaluation|].
  split; [exact H1|]. exists m'. split; [exact Hm'|]. by apply H3.
Defined.

Lemma absent_user_untouched_witness :
  ∃ m',
    completes_alone always_valid
      (updateUsersDeviceLists [alice; bob] (new_tracker trusting_store)) 0
      answer_E2 m' ∧
    answer_E2 !! bob = None ∧
    getUserDevices (cryptoStore m') bob = [bobs_phone].
Proof.
  ended_as m' 2 (updateUsersDeviceLists [alice; bob] (new_tracker trusting_store))
    0 answer_E2.
  assert (completes_alone always_valid
            (updateUsersDeviceLists [alice; bob] (new_tracker trusting_store))
            0 answer_E2 m') as Hdone.
  { exists 2. split; by_evaluation. }
  exists m'. split; [exact Hdone|].
  assert (answer_E2 !! bob = None) as Habsent by by_evaluation.
  split; [exact Habsent|].
  destruct (absent_user_untouched always_valid
              (updateUsersDeviceLists [alice; bob] (new_tracker trusting_store))
              0 [alice; bob] answer_E2 m' bob)
    as (_ & H2 & _); [by_evaluation|exact Hdone|exact Habsent|].
  rewrite H2. by_evaluation.
Defined.

(** C5 as worded fails: the directory is called before the registry is
    written. *)
Lemma fetch_precedes_registration :
  events (updateUsersDeviceLists [alice] (new_tracker ∅))
  = [EvFetch 0 [alice]; EvRegister alice 0] ∧
  ¬ registered_before_fetch (events (updateUsersDeviceLists [alice] (new_tracker ∅))).
Proof.
  split; [by_evaluation|].
  intros H. destruct (H 0 0 [alice] alice) as (j & Hj & _).
  - by_evaluation.
  - left.
  - lia.
Qed.

Lemma fetch_then_registration_witness :
  step always_valid (CallUpdate [alice]) (new_tracker ∅)
  = Some (updateUsersDeviceLists [alice] (new_tracker ∅)) ∧
  promise_state (updateUsersDeviceLists [alice] (new_tracker ∅)) 0 = Some Pending ∧
  deviceListUpdates (updateUsersDeviceLists [alice] (new_tracker ∅)) !! alice
  = Some 0 ∧
  0 ∈ existing_promises (updateUsersDeviceLists [alice] (new_tracker ∅)) [bob; alice].
Proof.
  split; [reflexivity|].
  destruct (fetch_then_registration always_valid (CallUpdate [alice])
              (new_tracker ∅) (updateUsersDeviceLists [alice] (new_tracker ∅))
              0 [alice]) as (_ & H2 & H3 & H4).
  - reflexivity.
  - by_evaluation.
  - vm_compute; discriminate.
  - split; [exact H2|]. split; [apply H3; left|].
    apply (H4 [bob; alice] alice); [left|right; left].
Defined.

Lemma fetch_failure_never_settles_witness :
  ∃ m m',
    run always_valid [CallUpdate [alice]; CallUpdate [alice]] (new_tracker ∅)
    = Some m ∧
    run always_valid [Resume 0 Threw; CallUpdate [bob]] m = Some m' ∧
    promise_state m' 0 = Some Pending ∧
    tasks m' !! 0 = Some (Updating [alice] Pending Crashed) ∧
    tasks m' !! 1 = Some (Waiting [alice] [0]).
Proof.
  eexists. eexists.
  split; [by_evaluation|]. split; [by_evaluation|].
  edestruct (fetch_failure_never_settles always_valid) as (_ & H2 & H3 & _ & H5).
  - exists ∅, [CallUpdate [alice]; CallUpdate [alice]]. by_evaluation.
  - instantiate (1 := [alice]). instantiate (1 := 0). by_evaluation.
  - instantiate (2 := [CallUpdate [bob]]). by_evaluation.
  - split; [exact H2|]. split; [exact H3|].
    apply (H5 1 [alice] [0]); [by_evaluation|left].
Defined.

Lemma failed_pass_blocks_later_calls_witness :
  ∃ m m',
    run always_valid [CallUpdate [alice]; Resume 0 Threw; CallUpdate [alice; bob]]
      (new_tracker ∅) = Some m ∧
    run always_valid [CallFlag [alice] true; Resume 2 Ok] m = Some m' ∧
    tasks m' !! 1 = Some (Waiting [alice; bob] [0]) ∧
    ∀ r, step always_valid (Resume 1 r) m' = None.
Proof.
  eexists. eexists.
  split; [by_evaluation|]. split; [by_evaluation|].
  edestruct (failed_pass_blocks_later_calls always_valid) as (H1 & H2 & _).
  - exists ∅, [CallUpdate [alice]; Resume 0 Threw; CallUpdate [alice; bob]].
    by_evaluation.
  - instantiate (1 := [0]). instantiate (1 := [alice; bob]). instantiate (1 := 1).
    by_evaluation.
  - instantiate (1 := 0). left.
  - instantiate (1 := [alice]). by_evaluation.
  - instantiate (2 := [CallFlag [alice] true; Resume 2 Ok]). by_evaluation.
  - split; [exact H1|exact H2].
Defined.


(** * The further properties on sample runs *)

Lemma changed_key_is_reported_witness :
  ∃ m',
    completes_alone always_valid
      (updateUsersDeviceLists [alice] (new_tracker trusting_store)) 0 answer_E2 m' ∧
    (∃ log,
       events m'
       = events (updateUsersDeviceLists [alice] (new_tracker trusting_store))
         ++ log ∧
       EvWarn (compromised_warning alice "PHONE") ∈ log) ∧
    ∀ d, d ∈ getUserDevices (cryptoStore m') alice → device_id d ≠ "PHONE".
Proof.
  ended_as m' 2 (updateUsersDeviceLists [alice] (new_tracker trusting_store))
    0 answer_E2.
  assert (completes_alone always_valid
            (updateUsersDeviceLists [alice] (new_tracker trusting_store))
            0 answer_E2 m') as Hdone.
  { exists 2. split; by_evaluation. }
  exists m'. split; [exact Hdone|].
  destruct (changed_key_is_reported always_valid
              (updateUsersDeviceLists [alice] (new_tracker trusting_store))
              0 [alice] answer_E2 m' alice {[ "PHONE" := phone_E2 ]} "PHONE"
              phone_E2 "E2" phone_E1) as (_ & H2 & H3);
    [by_evaluation|exact Hdone|by_evaluation|by_evaluation|by_evaluation
    |by_evaluation|vm_compute; discriminate|].
  split; [exact H2|exact H3].
Defined.

Lemma missing_signature_excluded_witness :
  ∃ m',
    completes_alone always_valid
      (updateUsersDeviceLists [alice] (new_tracker ∅)) 0 answer_unsigned m' ∧
    self_signature alice "PHONE" unsigned_phone = None ∧
    accepts always_valid (getUserDevices ∅ alice) alice "PHONE" unsigned_phone
      = false ∧
    ∀ d, d ∈ getUserDevices (cryptoStore m') alice → device_id d ≠ "PHONE".
Proof.
  ended_as m' 2 (updateUsersDeviceLists [alice] (new_tracker ∅)) 0
    answer_unsigned.
  assert (completes_alone always_valid
            (updateUsersDeviceLists [alice] (new_tracker ∅)) 0 answer_unsigned m')
    as Hdone.
  { exists 2. split; by_evaluation. }
  exists m'. split; [exact Hdone|].
  assert (self_signature alice "PHONE" unsigned_phone = None) as Hnone
    by by_evaluation.
  split; [exact Hnone|].
  destruct (missing_signature_excluded always_valid
              (updateUsersDeviceLists [alice] (new_tracker ∅))
              0 [alice] answer_unsigned m' alice {[ "PHONE" := unsigned_phone ]}
              "PHONE" unsigned_phone "E1") as (H1 & _ & H3);
    [by_evaluation|exact Hdone|by_evaluation|by_evaluation|by_evaluation
    |intros old Hold; vm_compute in Hold; discriminate Hold
    |left; exact Hnone|].
  split; [exact H1|exact H3].
Defined.

(** The state in which the pass of call [t] of [m], answered [resp], ends
    after [n] more resumes, with the verifier [v]. *)
Ltac ended_with v m' n m t resp :=
  let r := eval vm_compute in
    (run v (Resume t (Devices resp) :: replicate n (Resume t Ok)) m) in
  match r with Some ?x => pose (m' := x) end.

Lemma invalid_signature_excluded_witness :
  ∃ m',
    completes_alone never_valid
      (updateUsersDeviceLists [alice] (new_tracker ∅)) 0 answer_E1 m' ∧
    never_valid phone_E1 "E1" "S1" = false ∧
    accepts never_valid (getUserDevices ∅ alice) alice "PHONE" phone_E1 = false ∧
    (∃ log,
       events m' = events (updateUsersDeviceLists [alice] (new_tracker ∅)) ++ log ∧
       EvWarn (invalid_signature_warning alice "PHONE") ∈ log) ∧
    ∀ d, d ∈ getUserDevices (cryptoStore m') alice → device_id d ≠ "PHONE".
Proof.
  ended_with never_valid m' 3 (updateUsersDeviceLists [alice] (new_tracker ∅)) 0
    answer_E1.
  assert (completes_alone never_valid
            (updateUsersDeviceLists [alice] (new_tracker ∅)) 0 answer_E1 m')
    as Hdone.
  { exists 3. split; by_evaluation. }
  exists m'. split; [exact Hdone|]. split; [reflexivity|].
  exact (invalid_signature_excluded never_valid
           (updateUsersDeviceLists [alice] (new_tracker ∅))
           0 [alice] answer_E1 m' alice {[ "PHONE" := phone_E1 ]}
           "PHONE" phone_E1 "E1" "S1"
           ltac:(by_evaluation) Hdone ltac:(by_evaluation) ltac:(by_evaluation)
           ltac:(by_evaluation) ltac:(by_evaluation) ltac:(reflexivity)).
Defined.

Lemma every_claim_is_accounted_for_witness :
  ∃ m',
    completes_alone always_valid
      (updateUsersDeviceLists [alice; bob] (new_tracker trusting_store)) 0
      answer_both m' ∧
    claims_in answer_both = 3 ∧ size answer_both = 2 ∧
    ∃ log,
      events m'
      = events (updateUsersDeviceLists [alice; bob] (new_tracker trusting_store))
        ++ log ++ [EvResolve 0] ∧
      warnings log + committed log = claims_in answer_both ∧
      commits log = size answer_both.
Proof.
  ended_as m' 7 (updateUsersDeviceLists [alice; bob] (new_tracker trusting_store))
    0 answer_both.
  assert (completes_alone always_valid
            (updateUsersDeviceLists [alice; bob] (new_tracker trusting_store))
            0 answer_both m') as Hdone.
  { exists 7. split; by_evaluation. }
  exists m'. split; [exact Hdone|].
  split; [by_evaluation|]. split; [by_evaluation|].
  exact (every_claim_is_accounted_for always_valid
           (updateUsersDeviceLists [alice; bob] (new_tracker trusting_store))
           0 [alice; bob] answer_both m' ltac:(by_evaluation) Hdone).
Defined.

Lemma all_rejected_wipes_witness :
  ∃ m',
    completes_alone always_valid
      (updateUsersDeviceLists [alice] (new_tracker trusting_store)) 0 answer_E2 m' ∧
    trusting_store !! alice = Some [phone_E1] ∧
    cryptoStore m' !! alice = Some [].
Proof.
  ended_as m' 2 (updateUsersDeviceLists [alice] (new_tracker trusting_store))
    0 answer_E2.
  assert (completes_alone always_valid
            (updateUsersDeviceLists [alice] (new_tracker trusting_store))
            0 answer_E2 m') as Hdone.
  { exists 2. split; by_evaluation. }
  exists m'. split; [exact Hdone|]. split; [by_evaluation|].
  destruct (all_rejected_wipes always_valid
              (updateUsersDeviceLists [alice] (new_tracker trusting_store))
              0 [alice] answer_E2 m' alice {[ "PHONE" := phone_E2 ]})
    as [H _]; [by_evaluation|exact Hdone|by_evaluation| |exact H].
  intros deviceId device Hd.
  apply lookup_singleton_Some in Hd as [<- <-]. by_evaluation.
Defined.

(** The state in which [acts] leave [m], with the verifier [v]. *)
Ltac left_with v m' acts m :=
  let r := eval vm_compute in (run v acts m) in
  match r with Some ?x => pose (m' := x) end.

Lemma same_answer_twice_forgets_the_past_witness :
  ∃ m1 m1' m2,
    completes_alone always_valid
      (updateUsersDeviceLists [alice] (new_tracker trusting_store)) 0 answer_E2
      m1 ∧
    run always_valid [Resume 0 Ok; CallUpdate [alice]; Resume 1 Ok] m1
    = Some m1' ∧
    completes_alone always_valid m1' 1 answer_E2 m2 ∧
    stored_key trusting_store alice "PHONE" = Some "E1" ∧
    phone_E2 ∈ getUserDevices (cryptoStore m2) alice.
Proof.
  ended_as m1 2 (updateUsersDeviceLists [alice] (new_tracker trusting_store))
    0 answer_E2.
  left_as m1' [Resume 0 Ok; CallUpdate [alice]; Resume 1 Ok] m1.
  ended_as m2 3 m1' 1 answer_E2.
  assert (completes_alone always_valid
            (updateUsersDeviceLists [alice] (new_tracker trusting_store))
            0 answer_E2 m1) as Hdone.
  { exists 2. split; by_evaluation. }
  assert (completes_alone always_valid m1' 1 answer_E2 m2) as Hdone'.
  { exists 3. split; by_evaluation. }
  exists m1, m1', m2.
  split; [exact Hdone|]. split; [by_evaluation|]. split; [exact Hdone'|].
  split; [by_evaluation|].
  apply (same_answer_twice_forgets_the_past always_valid
           (updateUsersDeviceLists [alice] (new_tracker trusting_store))
           0 [alice] answer_E2 m1 m1' 1 [alice] m2 alice
           {[ "PHONE" := phone_E2 ]});
    [by_evaluation|exact Hdone|by_evaluation|by_evaluation|exact Hdone'
    |by_evaluation|].
  exists "PHONE". split; by_evaluation.
Defined.

Lemma visiting_order_is_immaterial_witness :
  (update_users always_valid trusting_store
     [(alice, {[ "PHONE" := phone_E1 ]}); (bob, {[ "PHONE" := bobs_phone ]})]).1
  = (update_users always_valid trusting_store
       [(bob, {[ "PHONE" := bobs_phone ]}); (alice, {[ "PHONE" := phone_E1 ]})]).1 ∧
  (validate_claims always_valid trusting_store alice
     [("PHONE", phone_E1); ("LAPTOP", laptop)] []).1
  ≡ₚ (validate_claims always_valid trusting_store alice
        [("LAPTOP", laptop); ("PHONE", phone_E1)] []).1.
Proof.
  apply (visiting_order_is_immaterial always_valid).
  - apply NoDup_cons. split.
    + intros H. apply list_elem_of_singleton in H. discriminate H.
    + apply NoDup_singleton.
  - apply perm_swap.
  - apply perm_swap.
Defined.

Lemma stored_devices_are_self_signed_witness :
  ∃ m,
    run always_valid
      [CallUpdate [alice]; Resume 0 (Devices answer_E1);
       Resume 0 Ok; Resume 0 Ok; Resume 0 Ok] (new_tracker ∅) = Some m ∧
    getUserDevices (cryptoStore m) alice = [phone_E1] ∧
    ∃ ed25519 curve25519 signature,
      keys phone_E1 !! key_label Ed25119 (device_id phone_E1) = Some ed25519 ∧
      ed25519 ≠ EmptyString ∧
      keys phone_E1 !! key_label Curve25519 (device_id phone_E1)
        = Some curve25519 ∧
      curve25519 ≠ EmptyString ∧
      self_signature alice (device_id phone_E1) phone_E1 = Some signature ∧
      signature ≠ EmptyString ∧
      always_valid phone_E1 ed25519 signature = true.
Proof.
  left_as m [CallUpdate [alice]; Resume 0 (Devices answer_E1);
             Resume 0 Ok; Resume 0 Ok; Resume 0 Ok] (new_tracker ∅).
  assert (getUserDevices (cryptoStore m) alice = [phone_E1]) as Hst
    by by_evaluation.
  exists m. split; [by_evaluation|]. split; [exact Hst|].
  destruct (stored_devices_are_self_signed always_valid ∅
              [CallUpdate [alice]; Resume 0 (Devices answer_E1);
               Resume 0 Ok; Resume 0 Ok; Resume 0 Ok] m alice phone_E1)
    as [_ H].
  - intros userId devices Hl. rewrite lookup_empty in Hl. discriminate Hl.
  - by_evaluation.
  - left. rewrite Hst. left.
  - exact H.
Defined.

Lemma stored_device_ids_are_distinct_witness :
  ∃ m',
    completes_alone always_valid
      (updateUsersDeviceLists [alice; bob] (new_tracker trusting_store)) 0
      answer_both m' ∧
    NoDup (device_id <$> getUserDevices (cryptoStore m') alice).
Proof.
  ended_as m' 7 (updateUsersDeviceLists [alice; bob] (new_tracker trusting_store))
    0 answer_both.
  assert (completes_alone always_valid
            (updateUsersDeviceLists [alice; bob] (new_tracker trusting_store))
            0 answer_both m') as Hdone.
  { exists 7. split; by_evaluation. }
  exists m'. split; [exact Hdone|].
  destruct (stored_device_ids_are_distinct always_valid
              (updateUsersDeviceLists [alice; bob] (new_tracker trusting_store))
              0 [alice; bob] answer_both m' alice
              {[ "PHONE" := phone_E2; "LAPTOP" := laptop ]})
    as [H _]; [by_evaluation|exact Hdone|by_evaluation|exact H].
Defined.

(** The store throws at line 62 for Bob's phone, after Alice's list has
    been committed. *)
Lemma collaborator_failure_never_settles_witness :
  ∃ m m',
    run always_valid
      (Resume 0 (Devices answer_both) :: replicate 4 (Resume 0 Ok))
      (updateUsersDeviceLists [alice; bob] (new_tracker trusting_store))
    = Some m ∧
    run always_valid [Resume 0 Threw; CallUpdate [bob]] m = Some m' ∧
    getUserDevices (cryptoStore m') alice = [laptop] ∧
    getUserDevices (cryptoStore m') bob = [bobs_phone] ∧
    tasks m' !! 0 = Some (Updating [alice; bob] Pending Crashed) ∧
    promise_state m' 0 = Some Pending ∧
    (∀ r, step always_valid (Resume 0 r) m' = None) ∧
    tasks m' !! 1 = Some (Waiting [bob] [0]).
Proof.
  left_as m (Resume 0 (Devices answer_both) :: replicate 4 (Resume 0 Ok))
    (updateUsersDeviceLists [alice; bob] (new_tracker trusting_store)).
  left_as m' [Resume 0 Threw; CallUpdate [bob]] m.
  exists m, m'.
  split; [by_evaluation|]. split; [by_evaluation|].
  split; [by_evaluation|]. split; [by_evaluation|].
  let r := eval vm_compute in (tasks m !! 0) in
  match r with
  | Some (Updating _ _ ?e) =>
      destruct (collaborator_failure_never_settles always_valid m 0
                  [alice; bob] e [CallUpdate [bob]] m')
        as (_ & H2 & H3 & H4); [by_evaluation..|]
  end.
  split; [exact H2|]. split; [exact H3|]. split; [exact H4|]. by_evaluation.
Defined.

Lemma flag_store_failure_rejects_witness :
  ∃ m',
    run always_valid [Resume 0 Threw; CallUpdate [bob]]
      (flagUsersOutdated [alice] true (new_tracker ∅)) = Some m' ∧
    elements (outdated m') = [] ∧
    length (tasks m') = 2 ∧
    ∃ k, tasks m' !! 0 = Some k ∧ outcome k = Rejected.
Proof.
  left_as m' [Resume 0 Threw; CallUpdate [bob]]
    (flagUsersOutdated [alice] true (new_tracker ∅)).
  exists m'. split; [by_evaluation|]. split; [by_evaluation|].
  split; [by_evaluation|].
  destruct (flag_store_failure_rejects always_valid
              (flagUsersOutdated [alice] true (new_tracker ∅)) 0 [alice] true
              [CallUpdate [bob]] m') as [_ H]; [by_evaluation..|exact H].
Defined.

Lemma only_flagging_rejects_witness :
  ∃ m k,
    run always_valid [CallFlag [alice] true; Resume 0 Threw] (new_tracker ∅)
    = Some m ∧
    tasks m !! 0 = Some k ∧ outcome k = Rejected ∧ k = FlagFailed.
Proof.
  left_as m [CallFlag [alice] true; Resume 0 Threw] (new_tracker ∅).
  let r := eval vm_compute in (tasks m !! 0) in
  match r with Some ?x => pose (k := x) end.
  exists m, k.
  assert (tasks m !! 0 = Some k) as Hk by by_evaluation.
  assert (outcome k = Rejected) as Ho by by_evaluation.
  split; [by_evaluation|]. split; [exact Hk|]. split; [exact Ho|].
  apply (only_flagging_rejects always_valid m 0 k); [|exact Hk|exact Ho].
  exists ∅, [CallFlag [alice] true; Resume 0 Threw]. by_evaluation.
Defined.

(** Alice's pass has ended and its call has returned; a call naming her
    still suspends first. *)
Lemma registry_never_forgets_witness :
  ∃ m',
    run always_valid
      [Resume 0 (Devices answer_E1); Resume 0 Ok; Resume 0 Ok; Resume 0 Ok;
       Resume 0 Ok]
      (updateUsersDeviceLists [alice] (new_tracker ∅)) = Some m' ∧
    tasks m' = [Returned] ∧
    deviceListUpdates m' !! alice = Some 0 ∧
    tasks (updateUsersDeviceLists [alice; bob] m')
    = [Returned; Waiting [alice; bob] [0]] ∧
    events (updateUsersDeviceLists [alice; bob] m') = events m'.
Proof.
  left_as m' [Resume 0 (Devices answer_E1); Resume 0 Ok; Resume 0 Ok;
              Resume 0 Ok; Resume 0 Ok]
    (updateUsersDeviceLists [alice] (new_tracker ∅)).
  exists m'. split; [by_evaluation|]. split; [by_evaluation|].
  split; [by_evaluation|].
  destruct (registry_never_forgets always_valid
              (updateUsersDeviceLists [alice] (new_tracker ∅))
              [Resume 0 (Devices answer_E1); Resume 0 Ok; Resume 0 Ok;
               Resume 0 Ok; Resume 0 Ok] m' alice [alice; bob])
    as (_ & _ & H).
  - exists 0. by_evaluation.
  - by_evaluation.
  - left.
  - rewrite H. split; by_evaluation.
Defined.

Lemma waiting_calls_fetch_side_by_side_witness :
  ∃ m m',
    run always_valid
      [CallUpdate [alice]; CallUpdate [alice]; CallUpdate [alice; bob];
       Resume 0 (Devices answer_E1); Resume 0 Ok; Resume 0 Ok; Resume 0 Ok]
      (new_tracker ∅) = Some m ∧
    run always_valid [Resume 1 Ok; Resume 2 Ok] m = Some m' ∧
    tasks m' !! 1 = Some (Updating [alice] Pending AwaitFetch) ∧
    tasks m' !! 2 = Some (Updating [alice; bob] Pending AwaitFetch) ∧
    deviceListUpdates m' !! alice = Some 2.
Proof.
  left_as m [CallUpdate [alice]; CallUpdate [alice]; CallUpdate [alice; bob];
             Resume 0 (Devices answer_E1); Resume 0 Ok; Resume 0 Ok; Resume 0 Ok]
    (new_tracker ∅).
  destruct (waiting_calls_fetch_side_by_side always_valid m
              1 [alice] [0] 2 [alice; bob] [0])
    as (m' & Hrun & H1 & H2 & _ & H4 & _).
  - by_evaluation.
  - by_evaluation.
  - lia.
  - intros h Hh. simpl in Hh. rewrite !elem_of_cons in Hh.
    destruct Hh as [->|[->|Hh]]; [by_evaluation|by_evaluation|].
    by apply elem_of_nil in Hh.
  - exists m, m'. split; [by_evaluation|]. split; [exact Hrun|].
    split; [exact H1|]. split; [exact H2|]. apply H4. left.
Defined.

Lemma returned_call_ran_its_own_pass_witness :
  ∃ m,
    run always_valid
      [CallUpdate [alice]; Resume 0 (Devices answer_E1);
       Resume 0 Ok; Resume 0 Ok; Resume 0 Ok; Resume 0 Ok] (new_tracker ∅)
    = Some m ∧
    tasks m !! 0 = Some Returned ∧
    (∃ userIds, EvFetch 0 userIds ∈ events m) ∧ EvResolve 0 ∈ events m.
Proof.
  left_as m [CallUpdate [alice]; Resume 0 (Devices answer_E1);
             Resume 0 Ok; Resume 0 Ok; Resume 0 Ok; Resume 0 Ok] (new_tracker ∅).
  assert (tasks m !! 0 = Some Returned) as Ht by by_evaluation.
  exists m. split; [by_evaluation|]. split; [exact Ht|].
  apply (returned_call_ran_its_own_pass always_valid m 0); [|exact Ht].
  exists ∅, [CallUpdate [alice]; Resume 0 (Devices answer_E1);
             Resume 0 Ok; Resume 0 Ok; Resume 0 Ok; Resume 0 Ok].
  by_evaluation.
Defined.


Lemma wait_outlasts_awaited_passes_witness :
  ∃ m m',
    run always_valid
      [CallUpdate [alice]; CallUpdate [alice];
       Resume 0 (Devices answer_E1); Resume 0 Ok; Resume 0 Ok; Resume 0 Ok]
      (new_tracker ∅) = Some m ∧
    tasks m !! 1 = Some (Waiting [alice] [0]) ∧
    step always_valid (Resume 1 Ok) m = Some m' ∧
    m' = start_pass m 1 [alice] ∧
    EvResolve 0 ∈ events m.
Proof.
  left_as m [CallUpdate [alice]; CallUpdate [alice];
             Resume 0 (Devices answer_E1); Resume 0 Ok; Resume 0 Ok; Resume 0 Ok]
    (new_tracker ∅).
  left_as m' [Resume 1 Ok] m.
  assert (tasks m !! 1 = Some (Waiting [alice] [0])) as Ht by by_evaluation.
  assert (step always_valid (Resume 1 Ok) m = Some m') as Hs by by_evaluation.
  exists m, m'. split; [by_evaluation|]. split; [exact Ht|]. split; [exact Hs|].
  destruct (wait_outlasts_awaited_passes always_valid m 1 [alice] [0] Ok m')
    as (_ & H2 & H3); [|exact Ht|exact Hs|].
  - exists ∅, [CallUpdate [alice]; CallUpdate [alice];
               Resume 0 (Devices answer_E1); Resume 0 Ok; Resume 0 Ok;
               Resume 0 Ok].
    by_evaluation.
  - split; [exact H2|]. apply (H3 0). left.
Defined.

Lemma key_pinned_while_stored_witness :
  ∃ m',
    completes_alone always_valid
      (updateUsersDeviceLists [alice] (new_tracker trusting_store)) 0 answer_E2 m' ∧
    accepts always_valid (getUserDevices trusting_store alice) alice "PHONE" phone_E2
      = false ∧
    ∀ d, d ∈ getUserDevices (cryptoStore m') alice → device_id d ≠ "PHONE".
Proof.
  ended_as m' 2 (updateUsersDeviceLists [alice] (new_tracker trusting_store))
    0 answer_E2.
  assert (completes_alone always_valid
            (updateUsersDeviceLists [alice] (new_tracker trusting_store))
            0 answer_E2 m') as Hdone.
  { exists 2. split; by_evaluation. }
  exists m'. split; [exact Hdone|].
  destruct (key_pinned_while_stored always_valid
              (updateUsersDeviceLists [alice] (new_tracker trusting_store))
              0 [alice] answer_E2 m' alice {[ "PHONE" := phone_E2 ]} "PHONE"
              phone_E1) as [H _]; [by_evaluation|exact Hdone|by_evaluation..|].
  apply (H phone_E2); [by_evaluation|vm_compute; discriminate].
Defined.
